(** * Hybrid MPI + OpenMP matrix kernels: a shallow embedding

    This development embeds [src/matrix_operations_mpi.cpp] and states the
    properties of its row partitioning, its distributed multiplication, its
    distributed Gauss-Jordan inversion, its partitioned result files and its
    bottleneck report.

    Conventions.
    - A C++ [int] is a [Z].  Signed overflow is undefined behaviour in C++, so
      there is no wrap-around to write out: the development describes the
      executions in which index arithmetic stays in range.  [a / b] on [int]
      truncates towards zero and is [Z.quot].
    - A C++ [double] is a type [D] with the operations of the class [Scalar].
      The kernels are written once, for every such type; no algebraic law is
      assumed unless a statement lists it.  Two instances are provided:
      [float] (IEEE 754 binary64, the arithmetic of the program) and [Q]
      (exact arithmetic).
    - A [double*] is the base address [loc] of an allocation; the memory of
      one process is a finite map from base addresses to flat row-major
      buffers.  Reads and writes go through the memory, so passing the same
      address twice aliases.  Out-of-range accesses are undefined behaviour in
      C++; here a read out of range yields [d_zero] and a write out of range
      does nothing.  The statements on computed contents carry the size
      conditions under which no such access happens; the frame statements
      hold regardless.
    - Every MPI rank has a memory of its own; a run of [size] ranks is a list
      of process states indexed by rank, and a collective or a send/receive
      pair moves buffer contents between the entries of that list.
    - An OpenMP [parallel for] is run in ascending index order: every
      iteration of the loops concerned writes cells no other iteration reads
      or writes.  For the multiplication, [multiply_rows_any_schedule] shows
      that every other order of the iterations leaves the same memory.
    - A rank that waits in a collective which another rank never enters is
      [Stuck]: the MPI standard gives such a run no meaning. *)

From Stdlib Require Import ZArith QArith Qabs Qfield Qpower Lqa Uint63.
From Stdlib Require Import Floats.PrimFloat Floats.SpecFloat Floats.FloatOps
  Floats.FloatAxioms.
From stdpp Require Import base numbers list gmap strings pretty.

Local Open Scope Z_scope.

(** ** Scalars: the operations the program uses on [double] *)

Class Scalar (D : Type) := {
  d_zero : D;                 (* 0.0 *)
  d_one : D;                  (* 1.0 *)
  d_eps : D;                  (* the literal 1e-10 *)
  d_of_int : Z → D;           (* implicit conversion int -> double *)
  d_add : D → D → D;
  d_sub : D → D → D;
  d_mul : D → D → D;
  d_div : D → D → D;
  d_fabs : D → D;
  d_lt : D → D → bool         (* a < b; a > b is d_lt b a *)
}.

Definition d_gt `{Scalar D} (a b : D) : bool := d_lt b a.

Definition float_of_int (z : Z) : float :=
  if decide (z < 0) then PrimFloat.opp (PrimFloat.of_uint63 (Uint63.of_Z (- z)))
  else PrimFloat.of_uint63 (Uint63.of_Z z).

#[export] Instance float_scalar : Scalar float := {
  d_zero := 0%float;
  d_one := 1%float;
  d_eps := 0x1.b7cdfd9d7bdbbp-34%float;
  d_of_int := float_of_int;
  d_add := PrimFloat.add;
  d_sub := PrimFloat.sub;
  d_mul := PrimFloat.mul;
  d_div := PrimFloat.div;
  d_fabs := PrimFloat.abs;
  d_lt := PrimFloat.ltb
}.

Definition Q_lt (a b : Q) : bool := negb (Qle_bool b a).

#[export] Instance Q_scalar : Scalar Q := {
  d_zero := 0%Q;
  d_one := 1%Q;
  d_eps := (1 # 10000000000)%Q;
  d_of_int := inject_Z;
  d_add := Qplus;
  d_sub := Qminus;
  d_mul := Qmult;
  d_div := Qdiv;
  d_fabs := Qabs.Qabs;
  d_lt := Q_lt
}.

(** ** Control flow *)

(** [for (int i = lo; i < hi; i++) body] on a state [St]. *)
Definition for_range {St : Type} (lo hi : Z) (body : Z → St → St) (s : St) : St :=
  foldl (λ acc i, body i acc) s (seqZ lo (hi - lo)).

(** ** The row partitioning rule

    [int rows_per_proc = n / size;
     int start_row = rank * rows_per_proc;
     int end_row = (rank == size - 1) ? n : start_row + rows_per_proc;] *)

Definition rows_per_proc (n size : Z) : Z := n ÷ size.

Definition start_row (n size rank : Z) : Z := rank * rows_per_proc n size.

Definition end_row (n size rank : Z) : Z :=
  if decide (rank = size - 1) then n
  else start_row n size rank + rows_per_proc n size.

(** Number of rows of the partition of [rank]. *)
Definition part_rows (n size rank : Z) : Z :=
  end_row n size rank - start_row n size rank.

(** The rank whose partition holds row [i]. *)
Definition owner (n size i : Z) : Z :=
  if decide (i < (size - 1) * rows_per_proc n size)
  then i ÷ rows_per_proc n size
  else size - 1.

(** ** Process memory *)

(** Base address of an allocation ([double*] as returned by [new double[..]]). *)
Definition loc := positive.

Section memory.
Context `{Scalar D}.

(** [l[i]] on a flat buffer. *)
Definition get_cell (l : list D) (i : Z) : D :=
  if decide (0 ≤ i) then default d_zero (l !! Z.to_nat i) else d_zero.

(** [l[i] = v] on a flat buffer. *)
Definition set_cell (l : list D) (i : Z) (v : D) : list D :=
  if decide (0 ≤ i) then <[Z.to_nat i := v]> l else l.

(** The buffer at base address [p]. *)
Definition buffer (h : gmap loc (list D)) (p : loc) : list D :=
  default [] (h !! p).

(** [p[i]] *)
Definition load (h : gmap loc (list D)) (p : loc) (i : Z) : D :=
  get_cell (buffer h p) i.

(** [p[i] = v] *)
Definition store (h : gmap loc (list D)) (p : loc) (i : Z) (v : D)
  : gmap loc (list D) :=
  alter (λ l, set_cell l i v) p h.

(** The [count] cells [p[off], ..., p[off+count-1]]: the payload of a send
    of [count] doubles from [&p[off]]. *)
Definition read_range (h : gmap loc (list D)) (p : loc) (off count : Z)
  : list D :=
  (λ k, load h p (off + k)) <$> seqZ 0 count.

(** Storing the values [vs] at [p[off], p[off+1], ...]: the effect of a
    receive into [&p[off]]. *)
Fixpoint write_range (h : gmap loc (list D)) (p : loc) (off : Z) (vs : list D)
  : gmap loc (list D) :=
  match vs with
  | [] => h
  | v :: vs' => write_range (store h p off v) p (off + 1) vs'
  end.
End memory.

(** ** Matrix multiplication *)

Section multiply.
Context `{Scalar D}.

(** [double sum = 0.0;
     for (int k = 0; k < n; k++) sum += A[i * n + k] * B[k * n + j];] *)
Definition dot_loop (h : gmap loc (list D)) (A B : loc) (n i j : Z) : D :=
  for_range 0 n
    (λ k sum, d_add sum (d_mul (load h A (i * n + k)) (load h B (k * n + j))))
    d_zero.

(** The local computation of [matrix_multiply_mpi]: rows [lo .. hi-1] of
    [C], every column, in row-major order. *)
Definition multiply_rows (A B C : loc) (n lo hi : Z) (h : gmap loc (list D))
  : gmap loc (list D) :=
  for_range lo hi
    (λ i h1, for_range 0 n
               (λ j h2, store h2 C (i * n + j) (dot_loop h2 A B n i j)) h1)
    h.

(** The same loop nest under [#pragma omp parallel for collapse(2)] with the
    iterations [(i, j)] completed in the order [sched]. *)
Definition multiply_cells (A B C : loc) (n : Z) (sched : list (Z * Z))
    (h : gmap loc (list D)) : gmap loc (list D) :=
  foldl (λ h1 '(i, j), store h1 C (i * n + j) (dot_loop h1 A B n i j)) h sched.

(** [matrix_multiply_mpi(A, B, C, rank, size, n)] as run by one rank.
    [recv p] is the message that the matching [MPI_Send] of rank [p]
    carries.  The result is the memory of the rank on return and, for a
    rank other than 0, the message it sent to rank 0. *)
Definition matrix_multiply_mpi (A B C : loc) (rank size n : Z)
    (recv : Z → list D) (h : gmap loc (list D))
  : gmap loc (list D) * option (list D) :=
  let h1 :=
    multiply_rows A B C n (start_row n size rank) (end_row n size rank) h in
  if decide (rank = 0) then
    (for_range 1 size
       (λ p h2,
          let p_start := p * rows_per_proc n size in
          let p_end :=
            if decide (p = size - 1) then n
            else p_start + rows_per_proc n size in
          let count := (p_end - p_start) * n in
          write_range h2 C (p_start * n) (take (Z.to_nat count) (recv p)))
       h1,
     None)
  else
    let count := (end_row n size rank - start_row n size rank) * n in
    (h1, Some (read_range h1 C (start_row n size rank * n) count)).

(** A run of [size] ranks, rank [r] starting from memory [w !! r]: the
    ranks other than 0 compute and send; rank 0 computes and receives, from
    each rank [p] in turn, what that rank sent. *)
Definition run_multiply (A B C : loc) (size n : Z)
    (w : list (gmap loc (list D))) : list (gmap loc (list D)) :=
  let outs :=
    imap (λ r h, matrix_multiply_mpi A B C (Z.of_nat r) size n (λ _, []) h) w in
  let sent (p : Z) : list D :=
    default [] (outs !! Z.to_nat p ≫= snd) in
  imap (λ r h,
          if decide (r = 0%nat)
          then (matrix_multiply_mpi A B C 0 size n sent h).1
          else (matrix_multiply_mpi A B C (Z.of_nat r) size n (λ _, []) h).1)
       w.

(** The entry [(i, j)] of the product of the [n × n] matrices [a] and [b]:
    the sum over [k = 0 .. n-1], in that order, of [a[i][k] * b[k][j]]. *)
Definition dot (a b : list D) (n i j : Z) : D :=
  for_range 0 n
    (λ k sum, d_add sum (d_mul (get_cell a (i * n + k)) (get_cell b (k * n + j))))
    d_zero.
End multiply.

(** ** Output streams and process states *)

(** What one [<<] (or one binary [write]) puts on a stream. *)
Inductive out_item (D : Type) : Type :=
  | OStr (s : string)     (* << "literal" *)
  | OInt (z : Z)          (* << int *)
  | ODbl (d : D)          (* << double, as text *)
  | OEndl                 (* << endl *)
  | ORaw (d : D).         (* the sizeof(double) bytes of one double *)
Arguments OStr {D} s.
Arguments OInt {D} z.
Arguments ODbl {D} d.
Arguments OEndl {D}.
Arguments ORaw {D} d.

(** Where a rank stands in [matrix_inverse_mpi]. *)
Inductive status : Type :=
  | Running     (* inside the function *)
  | Returned    (* the function has returned *)
  | Stuck.      (* inside a collective that some rank never enters *)

#[export] Instance status_eq_dec : EqDecision status.
Proof. solve_decision. Defined.

(** One rank during [matrix_inverse_mpi]: its memory, what it has printed on
    [cout], its local variable [work], and where it stands. *)
Record rank_state (D : Type) : Type := RankState {
  mem : gmap loc (list D);
  cout : list (out_item D);
  work : loc;
  st : status
}.
Arguments RankState {D} mem cout work st.
Arguments mem {D} r.
Arguments cout {D} r.
Arguments work {D} r.
Arguments st {D} r.

Definition is_running {D : Type} (s : rank_state D) : bool :=
  bool_decide (st s = Running).

(** ** Matrix inversion *)

Section inverse.
Context `{Scalar D}.

(** [initialize_identity(matrix, size)] *)
Definition initialize_identity (matrix : loc) (size : Z)
    (h : gmap loc (list D)) : gmap loc (list D) :=
  for_range 0 size
    (λ i h1, for_range 0 size
               (λ j h2, store h2 matrix (i * size + j)
                          (if decide (i = j) then d_one else d_zero)) h1)
    h.

(** [double* work = new double[n * n]; for (i < n * n) work[i] = A[i];
     initialize_identity(A_inv, n);] *)
Definition matrix_inverse_mpi_begin (A A_inv : loc) (n : Z)
    (h : gmap loc (list D)) (out : list (out_item D)) : rank_state D :=
  let work := fresh (dom h) in
  let h1 := <[work := replicate (Z.to_nat (n * n)) d_zero]> h in
  let h2 := for_range 0 (n * n) (λ i h', store h' work i (load h' A i)) h1 in
  RankState (initialize_identity A_inv n h2) out work Running.

(** [int pivot_row = col; double max_val = fabs(work[col * n + col]);
     for (int i = col + 1; i < n; i++)
       if (fabs(work[i * n + col]) > max_val) { max_val = ...; pivot_row = i; }] *)
Definition find_pivot (h : gmap loc (list D)) (work : loc) (n col : Z) : Z * D :=
  for_range (col + 1) n
    (λ i '(pivot_row, max_val),
       if d_gt (d_fabs (load h work (i * n + col))) max_val
       then (i, d_fabs (load h work (i * n + col)))
       else (pivot_row, max_val))
    (col, d_fabs (load h work (col * n + col))).

(** [swap(p[i], p[j])] *)
Definition swap_cells (h : gmap loc (list D)) (p : loc) (i j : Z)
  : gmap loc (list D) :=
  let tmp := load h p i in
  store (store h p i (load h p j)) p j tmp.

(** [for (j < n) { swap(work[col*n+j], work[pivot_row*n+j]);
                   swap(A_inv[col*n+j], A_inv[pivot_row*n+j]); }] *)
Definition swap_rows (work A_inv : loc) (n col pivot_row : Z)
    (h : gmap loc (list D)) : gmap loc (list D) :=
  for_range 0 n
    (λ j h1,
       swap_cells
         (swap_cells h1 work (col * n + j) (pivot_row * n + j))
         A_inv (col * n + j) (pivot_row * n + j))
    h.

(** [for (j < n) { work[col*n+j] /= pivot; A_inv[col*n+j] /= pivot; }] *)
Definition scale_row (work A_inv : loc) (n col : Z) (pivot : D)
    (h : gmap loc (list D)) : gmap loc (list D) :=
  for_range 0 n
    (λ j h1,
       let h2 := store h1 work (col * n + j)
                   (d_div (load h1 work (col * n + j)) pivot) in
       store h2 A_inv (col * n + j) (d_div (load h2 A_inv (col * n + j)) pivot))
    h.

(** [if (i != col) { double factor = work[i*n+col];
      for (j < n) { work[i*n+j] -= factor * work[col*n+j];
                    A_inv[i*n+j] -= factor * A_inv[col*n+j]; } }] *)
Definition eliminate_row (work A_inv : loc) (n col i : Z)
    (h : gmap loc (list D)) : gmap loc (list D) :=
  if decide (i ≠ col) then
    let factor := load h work (i * n + col) in
    for_range 0 n
      (λ j h1,
         let h2 := store h1 work (i * n + j)
                     (d_sub (load h1 work (i * n + j))
                            (d_mul factor (load h1 work (col * n + j)))) in
         store h2 A_inv (i * n + j)
           (d_sub (load h2 A_inv (i * n + j))
                  (d_mul factor (load h2 A_inv (col * n + j)))))
      h
  else h.

(** The elimination loop over the rows [lo .. hi-1] of one rank. *)
Definition eliminate_rows (work A_inv : loc) (n col lo hi : Z)
    (h : gmap loc (list D)) : gmap loc (list D) :=
  for_range lo hi (λ i h1, eliminate_row work A_inv n col i h1) h.

(** The memory after the pivot search and the row swap of column [col]. *)
Definition pivot_swap (A_inv work : loc) (n col : Z) (h : gmap loc (list D))
  : gmap loc (list D) :=
  let pivot_row := (find_pivot h work n col).1 in
  if decide (pivot_row ≠ col) then swap_rows work A_inv n col pivot_row h
  else h.

(** The body of the loop over [col], up to the two [MPI_Allgather] calls:
    pivot search, row swap, singularity test (print, free [work], return),
    scaling, and elimination on the rows of the rank. *)
Definition matrix_inverse_mpi_column (A_inv : loc) (rank size n col : Z)
    (s : rank_state D) : rank_state D :=
  let h1 := pivot_swap A_inv (work s) n col (mem s) in
  let pivot := load h1 (work s) (col * n + col) in
  if d_lt (d_fabs pivot) d_eps then
    RankState (delete (work s) h1)
              (cout s ++ [OStr "Matrix is singular!"; OEndl])
              (work s) Returned
  else
    let h2 := scale_row (work s) A_inv n col pivot h1 in
    let h3 := eliminate_rows (work s) A_inv n col
                (start_row n size rank) (end_row n size rank) h2 in
    RankState h3 (cout s) (work s) Running.

(** [MPI_Allgather(MPI_IN_PLACE, 0, MPI_DATATYPE_NULL, buf, recvcount,
    MPI_DOUBLE, MPI_COMM_WORLD)] entered by all ranks: rank [q] contributes
    the [recvcount] cells at offset [q * recvcount] of its own buffer, and
    every rank receives the contribution of each rank [q] at offset
    [q * recvcount] of its buffer.  [buf s] is the buffer address that the
    rank in state [s] passes. *)
Definition allgather_in_place (buf : rank_state D → loc) (recvcount : Z)
    (w : list (rank_state D)) : list (rank_state D) :=
  let block (q : nat) : list D :=
    match w !! q with
    | Some s => read_range (mem s) (buf s) (Z.of_nat q * recvcount) recvcount
    | None => []
    end in
  (λ s, RankState
          (foldl (λ h q, write_range h (buf s) (Z.of_nat q * recvcount) (block q))
                 (mem s) (seq 0 (length w)))
          (cout s) (work s) (st s)) <$> w.

(** One iteration of the loop over [col] on all ranks.  The ranks still
    inside the function run the body; if all ranks reach the collectives,
    the two all-gathers take place; a rank that reaches them while another
    rank has returned waits for a call that never comes. *)
Definition matrix_inverse_mpi_round (A_inv : loc) (size n col : Z)
    (w : list (rank_state D)) : list (rank_state D) :=
  let w1 :=
    imap (λ r s, if is_running s
                 then matrix_inverse_mpi_column A_inv (Z.of_nat r) size n col s
                 else s) w in
  if forallb is_running w1 then
    allgather_in_place (λ _, A_inv) (n * rows_per_proc n size)
      (allgather_in_place work (n * rows_per_proc n size) w1)
  else
    (λ s, if is_running s then RankState (mem s) (cout s) (work s) Stuck else s)
      <$> w1.

(** The final [delete[] work;] and the return. *)
Definition matrix_inverse_mpi_end (s : rank_state D) : rank_state D :=
  if is_running s
  then RankState (delete (work s) (mem s)) (cout s) (work s) Returned
  else s.

(** [matrix_inverse_mpi(A, A_inv, rank, size, n)] on all [size] ranks, rank
    [r] starting with the memory and the console output [w !! r]. *)
Definition matrix_inverse_mpi (A A_inv : loc) (size n : Z)
    (w : list (gmap loc (list D) * list (out_item D)))
  : list (rank_state D) :=
  let w0 := (λ '(h, out), matrix_inverse_mpi_begin A A_inv n h out) <$> w in
  matrix_inverse_mpi_end <$>
    for_range 0 n (λ col w1, matrix_inverse_mpi_round A_inv size n col w1) w0.

(** The states of the ranks when they enter the iteration of column [col]. *)
Definition inverse_states_at (A A_inv : loc) (size n col : Z)
    (w : list (gmap loc (list D) * list (out_item D)))
  : list (rank_state D) :=
  for_range 0 col (λ c w1, matrix_inverse_mpi_round A_inv size n c w1)
    ((λ '(h, out), matrix_inverse_mpi_begin A A_inv n h out) <$> w).
End inverse.

(** ** Files *)

(** The files the program writes: the content of each file, and the paths on
    which opening a stream for writing fails. *)
Record filesys (D : Type) : Type := FileSys {
  files : gmap string (list (out_item D));
  denied : gset string
}.
Arguments FileSys {D} files denied.
Arguments files {D} f.
Arguments denied {D} f.

(** [ofstream f(path, ios::app); f << items; f.close();].  On a stream that
    failed to open every insertion is a no-op. *)
Definition append_file {D : Type} (path : string) (items : list (out_item D))
    (fs : filesys D) : filesys D :=
  if decide (path ∈ denied fs) then fs
  else FileSys (<[path := default [] (files fs !! path) ++ items]> (files fs))
               (denied fs).

(** [sizeof(double)] *)
Definition sizeof_double : Z := 8.

(** Size in bytes of a file written in binary mode. *)
Definition raw_bytes {D : Type} (items : list (out_item D)) : Z :=
  sizeof_double * Z.of_nat (length items).

(** ** Saving the partitions *)

Section save.
Context `{Scalar D}.

(** [ss << filename << "_part" << rank << ".dat"] *)
Definition part_file_name (filename : string) (rank : Z) : string :=
  filename +:+ "_part" +:+ pretty rank +:+ ".dat".

(** [file.write(reinterpret_cast<char*>(&matrix[i * n]), n * sizeof(double))]:
    the bytes of the [n] doubles [matrix[i * n], ..., matrix[i * n + n - 1]]. *)
Definition write_row (h : gmap loc (list D)) (matrix : loc) (n i : Z)
  : list (out_item D) :=
  ORaw <$> read_range h matrix (i * n) n.

(** [save_matrix_distributed(matrix, n, filename, rank, size)] *)
Definition save_matrix_distributed (matrix : loc) (n : Z) (filename : string)
    (rank size : Z) (h : gmap loc (list D)) (fs : filesys D) : filesys D :=
  let path := part_file_name filename rank in
  if decide (path ∈ denied fs) then fs
  else
    let content :=
      for_range (start_row n size rank) (end_row n size rank)
        (λ i written, written ++ write_row h matrix n i) [] in
    FileSys (<[path := content]> (files fs)) (denied fs).

(** All ranks save, rank [r] from its memory [w !! r]. *)
Definition run_save (matrix : loc) (n : Z) (filename : string) (size : Z)
    (w : list (gmap loc (list D))) (fs : filesys D) : filesys D :=
  foldl (λ fs1 '(r, h),
           save_matrix_distributed matrix n filename (Z.of_nat r) size h fs1)
        fs (imap pair w).

(** The rows [lo .. hi-1] of the [n]-column matrix [m], one after the
    other. *)
Definition rows_of (m : list D) (n lo hi : Z) : list D :=
  mjoin ((λ i, (λ j, get_cell m (i * n + j)) <$> seqZ 0 n) <$> seqZ lo (hi - lo)).
End save.

(** ** The bottleneck report *)

Section analyze.
Context `{Scalar D}.

(** [MPI_Reduce(.., MPI_SUM, 0, ..)]: the value the root obtains from the
    contributions [xs] of the ranks [0, 1, ...], summed in rank order. *)
Definition mpi_reduce_sum (xs : list D) : D :=
  match xs with
  | [] => d_zero
  | x :: xs' => foldl d_add x xs'
  end.

(** The block that rank 0 appends. *)
Definition bottleneck_record (size : Z) (avg_comp avg_comm comm_ratio : D)
  : list (out_item D) :=
  [ OStr "Processors: "; OInt size; OEndl;
    OStr "Avg Computation Time: "; ODbl avg_comp; OStr " seconds"; OEndl;
    OStr "Avg Communication Time: "; ODbl avg_comm; OStr " seconds"; OEndl;
    OStr "Communication Overhead: "; ODbl comm_ratio; OStr "%"; OEndl;
    OStr "---"; OEndl ].

(** [(avg_comm / (avg_comp + avg_comm)) * 100] *)
Definition comm_ratio (avg_comp avg_comm : D) : D :=
  d_mul (d_div avg_comm (d_add avg_comp avg_comm)) (d_of_int 100).

(** [analyze_communication(rank, size, comp_time, comm_time, filename)] on
    one rank; [comp_times] and [comm_times] are the values that the ranks
    [0, 1, ...] pass, which the two reductions sum at rank 0. *)
Definition analyze_communication (rank size : Z) (comp_times comm_times : list D)
    (filename : string) (fs : filesys D) : filesys D :=
  let total_comp_time := mpi_reduce_sum comp_times in
  let total_comm_time := mpi_reduce_sum comm_times in
  if decide (rank = 0) then
    let avg_comp := d_div total_comp_time (d_of_int size) in
    let avg_comm := d_div total_comm_time (d_of_int size) in
    append_file filename
      (bottleneck_record size avg_comp avg_comm (comm_ratio avg_comp avg_comm))
      fs
  else fs.

(** All [size] ranks call [analyze_communication]. *)
Definition run_analyze (size : Z) (comp_times comm_times : list D)
    (filename : string) (fs : filesys D) : filesys D :=
  for_range 0 size
    (λ rank fs1, analyze_communication rank size comp_times comm_times filename fs1)
    fs.

(** The times [main] passes for the multiplication:
    [start_time = MPI_Wtime()] in the constructor of the monitor ([t0]),
    [mult_start = MPI_Wtime()] ([t1]),
    [mult_time = end_time - start_time] with [end_time = MPI_Wtime()] ([t2]),
    [mult_comm = MPI_Wtime() - mult_start - mult_time] ([t3]). *)
Definition main_mult_times (t0 t1 t2 t3 : D) : D * D :=
  let mult_time := d_sub t2 t0 in
  let mult_comm := d_sub (d_sub t3 t1) mult_time in
  (mult_time, mult_comm).

(** The numbers a block carries. *)
Definition numeric_fields (items : list (out_item D)) : list (out_item D) :=
  omap (λ it, match it with OInt _ | ODbl _ => Some it | _ => None end) items.

(** The literal texts of a block. *)
Definition labels (items : list (out_item D)) : list string :=
  omap (λ it, match it with OStr s => Some s | _ => None end) items.
End analyze.

(** ** Data for the statements and the examples *)

(** The report file of [main]. *)
Definition report_path : string := "results/bottleneck_analysis.txt".

(** Average over [size] ranks of the values [xs] that the ranks contribute:
    the sum that the reduction delivers at rank 0, divided by [size]. *)
Definition average `{Scalar D} (size : Z) (xs : list D) : D :=
  d_div (mpi_reduce_sum xs) (d_of_int size).

(** An empty file system on which every path can be opened. *)
Definition fs_empty {D : Type} : filesys D := FileSys ∅ ∅.

(** A working matrix whose column 0 holds the absolute values 1, 2, 2. *)
Definition pivot_mem : gmap loc (list float) :=
  {[ 3%positive := [1; 5; 0; -2; 1; 1; 2; 0; 4]%float ]}.

(** A process memory with the singular matrix [[1 2] [2 4]] at address 1 and
    a result buffer filled with 9 at address 2. *)
Definition sing_mem : gmap loc (list float) :=
  <[1%positive := [1; 2; 2; 4]%float]>
    (<[2%positive := [9; 9; 9; 9]%float]> ∅).

(** The state of the single rank inverting [sing_mem] when it enters the
    iteration of column 1. *)
Definition sing_state : rank_state float :=
  RankState
    (<[1%positive := [1; 2; 2; 4]%float]>
       (<[2%positive := [0; 0.5; 1; -0.5]%float]>
          (<[3%positive := [1; 2; 0; 0]%float]> ∅)))
    [] 3%positive Running.

(** A process memory with the invertible matrix [[2 1 1] [1 3 2] [1 0 0]] at
    address 1 and a zeroed result buffer at address 2. *)
Definition inv_mem : gmap loc (list float) :=
  <[1%positive := [2; 1; 1; 1; 3; 2; 1; 0; 0]%float]>
    (<[2%positive := replicate 9 0%float]> ∅).

(** Two 3 × 3 matrices and a process memory holding them at addresses 1 and
    2, with an output buffer at address 3. *)
Definition mul_a : list float := [1; 2; 3; 4; 5; 6; 7; 8; 9]%float.
Definition mul_b : list float := [0.5; 0; 1; 2; 1; 0; 0; 3; 1]%float.
Definition mul_mem : gmap loc (list float) :=
  <[1%positive := mul_a]>
    (<[2%positive := mul_b]> (<[3%positive := replicate 9 0%float]> ∅)).

(** ** Initialisation with random values *)

Section initialize.
Context `{Scalar D}.

(** [initialize_matrix(matrix, rows, cols)]:
    [matrix[i * cols + j] = (double)(rand() % 100) / 10.0].  [rnd i j] is the
    value that the call of [rand()] made for the cell [(i, j)] returns; the
    literal [10.0] is the double of the integer 10. *)
Definition initialize_matrix (rnd : Z → Z → Z) (matrix : loc) (rows cols : Z)
    (h : gmap loc (list D)) : gmap loc (list D) :=
  for_range 0 rows
    (λ i h1, for_range 0 cols
               (λ j h2, store h2 matrix (i * cols + j)
                          (d_div (d_of_int (rnd i j `rem` 100)) (d_of_int 10)))
               h1)
    h.
End initialize.

(** The double nearest to 9.9, which is [99.0 / 10.0]. *)
Definition max_tenth : float := 0x1.3cccccccccccdp+3%float.

(** ** Loading the partitions *)

Section load.
Context `{Scalar D}.

(** The doubles at the head of a file written in binary mode.  Reading text
    as doubles is outside the model: the stream ends at the first item that
    is not a raw double. *)
Fixpoint raw_prefix (items : list (out_item D)) : list D :=
  match items with
  | ORaw d :: items' => d :: raw_prefix items'
  | _ => []
  end.

(** [file.read(reinterpret_cast<char*>(&matrix[i * n]), n * sizeof(double))]
    on a stream with the doubles [rest] still to come and the state [ok]: a
    stream that has failed reads nothing; otherwise the doubles that are
    there, at most [n], are stored, and the stream fails when fewer than [n]
    were there. *)
Definition read_row (matrix : loc) (n i : Z)
    (strm : gmap loc (list D) * list D * bool)
  : gmap loc (list D) * list D * bool :=
  let '(h, rest, ok) := strm in
  if ok then
    (write_range h matrix (i * n) (take (Z.to_nat n) rest),
     drop (Z.to_nat n) rest,
     bool_decide (Z.to_nat n ≤ length rest)%nat)
  else strm.

(** [load_matrix_distributed(matrix, n, filename, rank, size)]: a file that
    does not exist cannot be opened, and nothing is read. *)
Definition load_matrix_distributed (matrix : loc) (n : Z) (filename : string)
    (rank size : Z) (fs : filesys D) (h : gmap loc (list D))
  : gmap loc (list D) :=
  match files fs !! part_file_name filename rank with
  | None => h
  | Some items =>
      (for_range (start_row n size rank) (end_row n size rank)
         (λ i strm, read_row matrix n i strm)
         (h, raw_prefix items, true)).1.1
  end.
End load.

(** ** The resource monitor *)

(** [const int MATRIX_SIZE = 4096;] *)
Definition MATRIX_SIZE : Z := 4096.

(** [class ResourceMonitor]; [end_time] has no value before [stop()]. *)
Record ResourceMonitor (D : Type) : Type := Monitor {
  start_time : D;
  end_time : option D;
  operation_name : string
}.
Arguments Monitor {D} start_time end_time operation_name.
Arguments start_time {D} r.
Arguments end_time {D} r.
Arguments operation_name {D} r.

Section monitor.
Context `{Scalar D}.

(** The constructor; [now] is what [MPI_Wtime()] returns. *)
Definition monitor_start (op_name : string) (now : D) : ResourceMonitor D :=
  Monitor now None op_name.

(** [stop()]: the monitor afterwards and the value returned. *)
Definition monitor_stop (m : ResourceMonitor D) (now : D)
  : ResourceMonitor D * D :=
  (Monitor (start_time m) (Some now) (operation_name m),
   d_sub now (start_time m)).

(** [log_metrics(rank, size, elapsed_time, filename)] *)
Definition log_metrics (m : ResourceMonitor D) (rank size : Z) (elapsed_time : D)
    (filename : string) (fs : filesys D) : filesys D :=
  if decide (rank = 0) then
    append_file filename
      [OStr (operation_name m); OStr ","; OInt size; OStr ",";
       ODbl elapsed_time; OStr ","; OInt MATRIX_SIZE; OEndl]
      fs
  else fs.

(** A sequence of calls of [log_metrics] on one file. *)
Definition log_all (calls : list (ResourceMonitor D * Z * Z * D))
    (filename : string) (fs : filesys D) : filesys D :=
  foldl (λ fs1 '(m, rank, size, elapsed), log_metrics m rank size elapsed filename fs1)
        fs calls.
End monitor.

(** ** Sequential Gauss-Jordan elimination on matrices as functions

    The reference against which the distributed inversion is compared: the
    same pivot search, swap, test, scaling and elimination, on matrices given
    as functions from row and column to entry, with the elimination done on
    all rows by one process. *)

(** The entry [(i, j)] of the [n]-column matrix in the buffer [p]. *)
Definition entry `{Scalar D} (h : gmap loc (list D)) (p : loc) (n i j : Z) : D :=
  load h p (i * n + j).

(** The number of cells of the buffer at [p], if it is allocated. *)
Definition cells {D : Type} (h : gmap loc (list D)) (p : loc) : option nat :=
  length <$> h !! p.

Section gauss_jordan.
Context `{Scalar D}.

Definition gj_find_pivot (W : Z → Z → D) (n col : Z) : Z :=
  (for_range (col + 1) n
     (λ i '(pivot_row, max_val),
        if d_gt (d_fabs (W i col)) max_val
        then (i, d_fabs (W i col))
        else (pivot_row, max_val))
     (col, d_fabs (W col col))).1.

Definition gj_swap_rows (M : Z → Z → D) (r1 r2 : Z) : Z → Z → D :=
  λ i j, if decide (i = r1) then M r2 j
         else if decide (i = r2) then M r1 j
         else M i j.

Definition gj_scale (M : Z → Z → D) (col : Z) (pivot : D) : Z → Z → D :=
  λ i j, if decide (i = col) then d_div (M i j) pivot else M i j.

(** Row [i ≠ col] of [M] minus [W[i][col]] times row [col] of [M]. *)
Definition gj_eliminate (W M : Z → Z → D) (col : Z) : Z → Z → D :=
  λ i j, if decide (i = col) then M i j
         else d_sub (M i j) (d_mul (W i col) (M col j)).

(** One pivot column: [None] when the pivot is below the threshold. *)
Definition gj_step (n col : Z) (W V : Z → Z → D)
  : option ((Z → Z → D) * (Z → Z → D)) :=
  let pivot_row := gj_find_pivot W n col in
  let W1 := gj_swap_rows W col pivot_row in
  let V1 := gj_swap_rows V col pivot_row in
  let pivot := W1 col col in
  if d_lt (d_fabs pivot) d_eps then None
  else
    let W2 := gj_scale W1 col pivot in
    let V2 := gj_scale V1 col pivot in
    Some (gj_eliminate W2 W2 col, gj_eliminate W2 V2 col).

(** The outcome of the elimination: the accumulator after the last column,
    or the column at which the pivot was too small and the accumulator as
    the swap of that column left it. *)
Inductive gj_result : Type :=
  | GJRunning (W V : Z → Z → D)
  | GJSingular (col : Z) (V : Z → Z → D).

Definition gj_column (n col : Z) (acc : gj_result) : gj_result :=
  match acc with
  | GJRunning W V =>
      match gj_step n col W V with
      | Some (W', V') => GJRunning W' V'
      | None => GJSingular col (gj_swap_rows V col (gj_find_pivot W n col))
      end
  | GJSingular c V => GJSingular c V
  end.

(** The columns [0 .. col-1] on the matrix [A] and the identity. *)
Definition gj_run (n col : Z) (A : Z → Z → D) : gj_result :=
  for_range 0 col (λ c acc, gj_column n c acc)
    (GJRunning A (λ i j, if decide (i = j) then d_one else d_zero)).

(** The rank in state [s] holds the [n × n] matrices [W] and [V] in its
    working buffer and in [A_inv], two different buffers of [n * n] cells. *)
Definition rank_holds (A_inv : loc) (n : Z) (W V : Z → Z → D)
    (s : rank_state D) : Prop :=
  work s ≠ A_inv ∧
  cells (mem s) (work s) = Some (Z.to_nat (n * n)) ∧
  cells (mem s) A_inv = Some (Z.to_nat (n * n)) ∧
  ∀ i j, 0 ≤ i < n → 0 ≤ j < n →
    entry (mem s) (work s) n i j = W i j ∧ entry (mem s) A_inv n i j = V i j.

(** What [cout] receives when a pivot is too small. *)
Definition singular_message : list (out_item D) :=
  [OStr "Matrix is singular!"; OEndl].

(** The entry [(i, j)] of the product of two matrices given as functions. *)
Definition mat_dot (n : Z) (M N : Z → Z → D) (i j : Z) : D :=
  for_range 0 n (λ k sum, d_add sum (d_mul (M i k) (N k j))) d_zero.
End gauss_jordan.

(** The sum [f 0 + ... + f (n - 1)] of rationals, from 0 upwards. *)
Definition qsum (f : Z → Q) (n : Z) : Q :=
  for_range 0 n (λ k acc, (acc + f k)%Q) 0%Q.

(** The entries of the identity matrix, as rationals. *)
Definition delta (i j : Z) : Q := if decide (i = j) then 1%Q else 0%Q.

(** ** Further example data *)

(** The matrix [[2 1] [1 1]] over the rationals and a process memory holding
    it at address 1, with a zeroed result buffer at address 2. *)
Definition q_a : list Q := [2; 1; 1; 1]%Q.
Definition q_mem : gmap loc (list Q) :=
  <[1%positive := q_a]> (<[2%positive := replicate 4 0%Q]> ∅).

(** Three calls of [log_metrics]: two by rank 0, one by rank 1. *)
Definition log_calls : list (ResourceMonitor float * Z * Z * float) :=
  [(Monitor 0%float None "MatMul", 0, 4, 1.5%float);
   (Monitor 0%float None "MatMul", 1, 4, 1.5%float);
   (Monitor 0%float None "MatInv", 0, 4, 2.5%float)].

(** The memory [mul_mem] with the two input matrices exchanged, and the
    matrices that the ranks of [[mul_mem; mul_mem_swapped]] hold. *)
Definition mul_mem_swapped : gmap loc (list float) :=
  <[1%positive := mul_b]>
    (<[2%positive := mul_a]> (<[3%positive := replicate 9 0%float]> ∅)).
Definition mixed_a (r : Z) : list float := if decide (r = 0) then mul_a else mul_b.
Definition mixed_b (r : Z) : list float := if decide (r = 0) then mul_b else mul_a.

(** ** Values of binary64 numbers

    The primitive operations on [float] are specified by the functions of
    [SpecFloat] on a sign, a mantissa and an exponent.  The value of a
    mantissa [m] at exponent [e] is the rational [m * 2^e]. *)

Definition bpow (e : Z) : Q := (2 ^ e)%Q.

Definition F2Q (m e : Z) : Q := (inject_Z m * bpow e)%Q.

(** The finite positive numbers of binary64: a mantissa of at most 53 bits
    at an exponent from -1074 on, of exactly 53 bits above -1074. *)
Definition canon (m e : Z) : Prop :=
  0 < m < 2 ^ 53 ∧ -1074 ≤ e ∧ (-1074 < e → 2 ^ 52 ≤ m).

(** A shift record [mrs] at exponent [e] truncates the non-negative number
    [x]: [x] lies from [m * 2^e] up to, but not including, [(m + 1) * 2^e],
    and is above [m * 2^e] when the round or the sticky bit is set. *)
Definition trunc_inv (mrs : shr_record) (e : Z) (x : Q) : Prop :=
  0 ≤ shr_m mrs ∧
  (F2Q (shr_m mrs) e <= x)%Q ∧ (x < F2Q (shr_m mrs + 1) e)%Q ∧
  (shr_r mrs || shr_s mrs = true → (F2Q (shr_m mrs) e < x)%Q).

(** * Properties *)

(** ** Generic loop rules *)

Lemma for_range_empty {St : Type} lo hi (body : Z → St → St) s :
  hi ≤ lo → for_range lo hi body s = s.
Proof. intros Hle. unfold for_range. rewrite seqZ_nil; [done | lia]. Qed.

Lemma for_range_snoc {St : Type} lo hi (body : Z → St → St) s :
  lo ≤ hi →
  for_range lo (hi + 1) body s = body hi (for_range lo hi body s).
Proof.
  intros Hle. unfold for_range.
  replace (hi + 1 - lo) with (Z.of_nat (S (Z.to_nat (hi - lo)))) by lia.
  rewrite seqZ_S, foldl_app. simpl.
  replace (Z.of_nat (Z.to_nat (hi - lo))) with (hi - lo) by lia.
  by replace (lo + (hi - lo)) with hi by lia.
Qed.

(** Hoare-style invariant rule for a [for] loop. *)
Lemma for_range_inv {St : Type} (P : Z → St → Prop) lo hi (body : Z → St → St) s :
  lo ≤ hi →
  P lo s →
  (∀ i acc, lo ≤ i < hi → P i acc → P (i + 1) (body i acc)) →
  P hi (for_range lo hi body s).
Proof.
  intros Hle H0 Hstep.
  assert (Hgen : ∀ k : nat, lo + Z.of_nat k ≤ hi →
            P (lo + Z.of_nat k) (for_range lo (lo + Z.of_nat k) body s)).
  { induction k as [|k IH]; intros Hk.
    - rewrite Z.add_0_r, for_range_empty by lia. done.
    - replace (lo + Z.of_nat (S k)) with (lo + Z.of_nat k + 1) by lia.
      rewrite for_range_snoc by lia. apply Hstep; [lia|]. apply IH. lia. }
  specialize (Hgen (Z.to_nat (hi - lo))).
  replace (lo + Z.of_nat (Z.to_nat (hi - lo))) with hi in Hgen by lia.
  apply Hgen. lia.
Qed.

(** ** Row partitioning: facts *)

Section partition.
Variables n size : Z.
Hypothesis Hn : 0 ≤ n.
Hypothesis Hsize : 1 ≤ size.

Lemma rows_per_proc_div : rows_per_proc n size = n `div` size.
Proof. unfold rows_per_proc. apply Z.quot_div_nonneg; lia. Qed.

Lemma rows_per_proc_nonneg : 0 ≤ rows_per_proc n size.
Proof. rewrite rows_per_proc_div. apply Z.div_pos; lia. Qed.

Lemma rows_per_proc_bound :
  size * rows_per_proc n size ≤ n < size * rows_per_proc n size + size.
Proof.
  rewrite rows_per_proc_div.
  pose proof (Z.div_mod n size ltac:(lia)).
  pose proof (Z.mod_pos_bound n size ltac:(lia)). lia.
Qed.

Lemma rem_eq_mod : n `rem` size = n `mod` size.
Proof. apply Z.rem_mod_nonneg; lia. Qed.

Lemma start_row_range rank :
  0 ≤ rank < size →
  0 ≤ start_row n size rank ≤ end_row n size rank ∧ end_row n size rank ≤ n.
Proof.
  intros Hr. unfold end_row, start_row.
  pose proof rows_per_proc_nonneg. pose proof rows_per_proc_bound.
  case_decide; nia.
Qed.

Lemma part_rows_inner rank :
  0 ≤ rank < size - 1 → part_rows n size rank = n ÷ size.
Proof.
  intros Hr. unfold part_rows, end_row, start_row, rows_per_proc.
  case_decide; lia.
Qed.

Lemma part_rows_last :
  part_rows n size (size - 1) = n ÷ size + n `rem` size.
Proof.
  unfold part_rows, end_row, start_row. rewrite decide_True by done.
  rewrite rem_eq_mod. fold (rows_per_proc n size). rewrite rows_per_proc_div.
  pose proof (Z.div_mod n size ltac:(lia)). lia.
Qed.

Lemma owner_range i : 0 ≤ i < n → 0 ≤ owner n size i < size.
Proof.
  intros Hi. unfold owner. case_decide as Hlt; [|lia].
  pose proof rows_per_proc_nonneg as Hq.
  assert (0 < rows_per_proc n size) by nia.
  rewrite Z.quot_div_nonneg by lia. split.
  - apply Z.div_pos; lia.
  - assert (i `div` rows_per_proc n size < size - 1); [|lia].
    apply Z.div_lt_upper_bound; lia.
Qed.

Lemma owner_holds i :
  0 ≤ i < n →
  start_row n size (owner n size i) ≤ i < end_row n size (owner n size i).
Proof.
  intros Hi. unfold owner. pose proof rows_per_proc_nonneg as Hq.
  case_decide as Hlt.
  - assert (Hpos : 0 < rows_per_proc n size) by nia.
    rewrite Z.quot_div_nonneg by lia.
    pose proof (Z.div_mod i (rows_per_proc n size) ltac:(lia)) as Hdm.
    pose proof (Z.mod_pos_bound i (rows_per_proc n size) Hpos) as Hm.
    assert (i `div` rows_per_proc n size < size - 1)
      by (apply Z.div_lt_upper_bound; lia).
    unfold end_row, start_row. rewrite decide_False by lia. nia.
  - unfold end_row, start_row. rewrite decide_True by done. lia.
Qed.

Lemma owner_unique i rank :
  0 ≤ rank < size →
  start_row n size rank ≤ i < end_row n size rank →
  rank = owner n size i.
Proof.
  intros Hr. unfold owner, end_row, start_row.
  pose proof rows_per_proc_nonneg as Hq.
  case_decide as Hlast; intros Hi.
  - subst rank. rewrite decide_False by lia. done.
  - rewrite decide_True by nia.
    assert (Hpos : 0 < rows_per_proc n size) by nia.
    rewrite Z.quot_div_nonneg by lia.
    apply Z.div_unique with (r := i - rank * rows_per_proc n size); lia.
Qed.
End partition.

(** C4: for every dimension [n ≥ 0] and every process count [size ≥ 1]
    (dividing [n] or not, larger than [n] or not) the ranges
    [[start_row, end_row)] of the ranks [0 .. size-1] lie inside [[0, n)],
    every row of [[0, n)] belongs to the range of some rank, no row belongs to
    the ranges of two ranks, every rank but the last has [n / size] rows and
    the last one has the [n % size] remainder rows on top of that. *)
Theorem row_partitions_cover_disjoint (n size : Z) :
  0 ≤ n → 1 ≤ size →
  (∀ rank, 0 ≤ rank < size →
     0 ≤ start_row n size rank ≤ end_row n size rank ∧ end_row n size rank ≤ n) ∧
  (∀ i, 0 ≤ i < n →
     ∃ rank, 0 ≤ rank < size ∧ start_row n size rank ≤ i < end_row n size rank) ∧
  (∀ i r1 r2, 0 ≤ r1 < size → 0 ≤ r2 < size →
     start_row n size r1 ≤ i < end_row n size r1 →
     start_row n size r2 ≤ i < end_row n size r2 → r1 = r2) ∧
  (∀ rank, 0 ≤ rank < size - 1 → part_rows n size rank = n ÷ size) ∧
  part_rows n size (size - 1) = n ÷ size + n `rem` size.
Proof.
  intros Hn Hsize. repeat split.
  - by apply start_row_range.
  - by apply start_row_range.
  - by apply start_row_range.
  - intros i Hi. exists (owner n size i). split.
    + by apply owner_range.
    + by apply owner_holds.
  - intros i r1 r2 Hr1 Hr2 H1 H2.
    rewrite (owner_unique n size Hn Hsize i r1 Hr1 H1).
    by rewrite (owner_unique n size Hn Hsize i r2 Hr2 H2).
  - intros rank Hr. by apply part_rows_inner.
  - by apply part_rows_last.
Qed.

Lemma row_partitions_cover_disjoint_witness :
  (∀ rank, 0 ≤ rank < 3 →
     0 ≤ start_row 7 3 rank ≤ end_row 7 3 rank ∧ end_row 7 3 rank ≤ 7) ∧
  (∀ i, 0 ≤ i < 7 →
     ∃ rank, 0 ≤ rank < 3 ∧ start_row 7 3 rank ≤ i < end_row 7 3 rank) ∧
  (∀ i r1 r2, 0 ≤ r1 < 3 → 0 ≤ r2 < 3 →
     start_row 7 3 r1 ≤ i < end_row 7 3 r1 →
     start_row 7 3 r2 ≤ i < end_row 7 3 r2 → r1 = r2) ∧
  (∀ rank, 0 ≤ rank < 3 - 1 → part_rows 7 3 rank = 7 ÷ 3) ∧
  part_rows 7 3 (3 - 1) = 7 ÷ 3 + 7 `rem` 3.
Proof. apply (row_partitions_cover_disjoint 7 3); lia. Defined.

(** C5, as stated, fails: with 7 rows on 4 processes the partitions have
    1, 1, 1 and 4 rows, so the last differs from the first by 3 rows. *)
Lemma part_rows_spread_counterexample :
  ¬ (Z.abs (part_rows 7 4 3 - part_rows 7 4 0) ≤ 1).
Proof. vm_compute. intros H. apply H. reflexivity. Qed.

(** C5, amended: two partitions other than the last have the same number of
    rows, [n / size]; the last has [n % size] rows more; so two partitions
    differ by at most [n % size] rows, which is less than [size], and by at
    most one row when [n % size ≤ 1]. *)
Theorem part_rows_spread (n size r1 r2 : Z) :
  0 ≤ n → 1 ≤ size → 0 ≤ r1 < size → 0 ≤ r2 < size →
  (r1 ≠ size - 1 → r2 ≠ size - 1 → part_rows n size r1 = part_rows n size r2) ∧
  (r1 ≠ size - 1 →
     part_rows n size (size - 1) - part_rows n size r1 = n `rem` size) ∧
  Z.abs (part_rows n size r1 - part_rows n size r2) ≤ n `rem` size ∧
  0 ≤ n `rem` size < size ∧
  (n `rem` size ≤ 1 → Z.abs (part_rows n size r1 - part_rows n size r2) ≤ 1).
Proof.
  intros Hn Hsize Hr1 Hr2.
  pose proof (part_rows_last n size Hn Hsize) as Hlast.
  assert (Hin : ∀ r, 0 ≤ r < size → r ≠ size - 1 → part_rows n size r = n ÷ size).
  { intros r Hr Hne. apply part_rows_inner. lia. }
  assert (Hrem : 0 ≤ n `rem` size < size).
  { rewrite rem_eq_mod by lia. apply Z.mod_pos_bound. lia. }
  assert (Hspread : Z.abs (part_rows n size r1 - part_rows n size r2) ≤ n `rem` size).
  { destruct (decide (r1 = size - 1)) as [->|N1];
      destruct (decide (r2 = size - 1)) as [->|N2];
      rewrite ?Hlast, ?(Hin r1), ?(Hin r2) by done; lia. }
  repeat split; try lia.
  - intros N1 N2. by rewrite (Hin r1), (Hin r2).
  - intros N1. rewrite Hlast, (Hin r1) by done. lia.
Qed.

Lemma part_rows_spread_witness :
  (0 ≠ 4 - 1 → 3 ≠ 4 - 1 → part_rows 7 4 0 = part_rows 7 4 3) ∧
  (0 ≠ 4 - 1 → part_rows 7 4 (4 - 1) - part_rows 7 4 0 = 7 `rem` 4) ∧
  Z.abs (part_rows 7 4 0 - part_rows 7 4 3) ≤ 7 `rem` 4 ∧
  0 ≤ 7 `rem` 4 < 4 ∧
  (7 `rem` 4 ≤ 1 → Z.abs (part_rows 7 4 0 - part_rows 7 4 3) ≤ 1).
Proof. apply (part_rows_spread 7 4 0 3); lia. Defined.

(** ** Loops: extensionality *)

Lemma for_range_ext {St : Type} lo hi (f g : Z → St → St) s :
  (∀ i acc, lo ≤ i < hi → f i acc = g i acc) →
  for_range lo hi f s = for_range lo hi g s.
Proof.
  intros Hfg. destruct (decide (lo ≤ hi)) as [Hle|Hgt].
  - apply (for_range_inv (λ i acc, acc = for_range lo i g s)); [done| |].
    + by rewrite for_range_empty.
    + intros i acc Hi ->. rewrite for_range_snoc by lia. by apply Hfg.
  - by rewrite !for_range_empty by lia.
Qed.

(** ** Memory: reads after writes *)

Section memory_facts.
Context `{Scalar D}.
Implicit Types (h : gmap loc (list D)) (l vs : list D) (p q : loc).

Lemma get_set_eq l i v :
  0 ≤ i < Z.of_nat (length l) → get_cell (set_cell l i v) i = v.
Proof.
  intros Hi. unfold get_cell, set_cell. rewrite !decide_True by lia.
  rewrite list_lookup_insert_eq by lia. done.
Qed.

Lemma get_set_ne l i j v :
  i ≠ j → get_cell (set_cell l i v) j = get_cell l j.
Proof.
  intros Hne. unfold get_cell, set_cell.
  destruct (decide (0 ≤ j)); [|done].
  destruct (decide (0 ≤ i)); [|done].
  rewrite list_lookup_insert_ne by lia. done.
Qed.

Lemma length_set_cell l i v : length (set_cell l i v) = length l.
Proof. unfold set_cell. case_decide; [apply length_insert | done]. Qed.

Lemma get_cell_lookup l i x :
  0 ≤ i → l !! Z.to_nat i = Some x → get_cell l i = x.
Proof. intros Hi Hl. unfold get_cell. rewrite decide_True by done. by rewrite Hl. Qed.

(** Two buffers of one length with the same cells are equal. *)
Lemma get_cell_ext l1 l2 :
  length l1 = length l2 →
  (∀ i, 0 ≤ i < Z.of_nat (length l1) → get_cell l1 i = get_cell l2 i) →
  l1 = l2.
Proof.
  intros Hlen Hget. apply list_eq_same_length with (n := length l1); [done..|].
  intros i x y Hi Hx Hy.
  specialize (Hget (Z.of_nat i) ltac:(lia)).
  unfold get_cell in Hget. rewrite !decide_True, Nat2Z.id, Hx, Hy in Hget by lia.
  done.
Qed.

Lemma store_insert h p l i v :
  h !! p = Some l → store h p i v = <[p := set_cell l i v]> h.
Proof.
  intros Hp. unfold store. apply map_eq. intros q.
  destruct (decide (p = q)) as [->|Hne].
  - by rewrite lookup_alter_eq, lookup_insert_eq, Hp.
  - by rewrite lookup_alter_ne, lookup_insert_ne.
Qed.

Lemma store_lookup_ne h p q i v : p ≠ q → store h p i v !! q = h !! q.
Proof. intros Hne. unfold store. by rewrite lookup_alter_ne. Qed.

Lemma store_unallocated h p i v : h !! p = None → store h p i v = h.
Proof.
  intros Hp. unfold store. apply map_eq. intros q.
  destruct (decide (p = q)) as [->|Hne].
  - by rewrite lookup_alter_eq, Hp.
  - by rewrite lookup_alter_ne.
Qed.

Lemma load_insert_eq h p l i : load (<[p := l]> h) p i = get_cell l i.
Proof. unfold load, buffer. by rewrite lookup_insert_eq. Qed.

Lemma load_insert_ne h p q l i :
  p ≠ q → load (<[p := l]> h) q i = load h q i.
Proof. intros Hne. unfold load, buffer. by rewrite lookup_insert_ne. Qed.

Lemma load_lookup h p l i : h !! p = Some l → load h p i = get_cell l i.
Proof. intros Hp. unfold load, buffer. by rewrite Hp. Qed.

Lemma length_read_range h p off count :
  length (read_range h p off count) = Z.to_nat count.
Proof. unfold read_range. by rewrite length_fmap, length_seqZ. Qed.

Lemma get_read_range h p off count k :
  0 ≤ k < count → get_cell (read_range h p off count) k = load h p (off + k).
Proof.
  intros Hk. apply get_cell_lookup; [lia|]. unfold read_range.
  rewrite list_lookup_fmap, lookup_seqZ_lt by lia. simpl.
  do 2 f_equal. lia.
Qed.

(** A receive of [vs] at offset [off] of an allocated buffer overwrites the
    cells [off .. off + |vs| - 1] and nothing else. *)
Lemma write_range_spec vs : ∀ h p l off,
  h !! p = Some l →
  0 ≤ off → off + Z.of_nat (length vs) ≤ Z.of_nat (length l) →
  ∃ l', write_range h p off vs = <[p := l']> h ∧
        length l' = length l ∧
        (∀ k, off ≤ k < off + Z.of_nat (length vs) →
              get_cell l' k = get_cell vs (k - off)) ∧
        (∀ k, ¬ (off ≤ k < off + Z.of_nat (length vs)) →
              get_cell l' k = get_cell l k).
Proof.
  induction vs as [|v vs IH]; intros h p l off Hp Hoff Hlen; simpl in *.
  - exists l. split_and!; [by rewrite insert_id | done | lia | done].
  - rewrite (store_insert _ _ l) by done.
    destruct (IH (<[p := set_cell l off v]> h) p (set_cell l off v) (off + 1))
      as (l' & Heq & Hl' & Hin & Hout).
    { by rewrite lookup_insert_eq. }
    { lia. }
    { rewrite length_set_cell. lia. }
    exists l'. split_and!.
    + by rewrite Heq, insert_insert_eq.
    + by rewrite Hl', length_set_cell.
    + intros k Hk. destruct (decide (k = off)) as [->|Hne].
      * rewrite Hout by lia. rewrite get_set_eq by lia.
        by rewrite Z.sub_diag.
      * rewrite Hin by lia. unfold get_cell.
        rewrite !decide_True by lia.
        replace (Z.to_nat (k - off)) with (S (Z.to_nat (k - (off + 1)))) by lia.
        done.
    + intros k Hk. rewrite Hout by lia. apply get_set_ne. lia.
Qed.
End memory_facts.

(** ** Matrix multiplication: the local computation *)

Section multiply_facts.
Context `{Scalar D}.
Implicit Types (h : gmap loc (list D)) (a b c : list D) (A B C : loc).

Lemma dot_loop_eq h A B a b n i j :
  h !! A = Some a → h !! B = Some b →
  dot_loop h A B n i j = dot a b n i j.
Proof.
  intros HA HB. unfold dot_loop, dot. apply for_range_ext.
  intros k acc _. by rewrite (load_lookup h A a), (load_lookup h B b).
Qed.

(** One row of the product: the loop over the columns [j]. *)
Lemma multiply_row_spec h A B C a b c n i :
  h !! A = Some a → h !! B = Some b → h !! C = Some c →
  A ≠ C → B ≠ C → 0 ≤ n → 0 ≤ i →
  (i + 1) * n ≤ Z.of_nat (length c) →
  ∃ c', for_range 0 n
          (λ j h2, store h2 C (i * n + j) (dot_loop h2 A B n i j)) h
        = <[C := c']> h ∧
        length c' = length c ∧
        (∀ j, 0 ≤ j < n → get_cell c' (i * n + j) = dot a b n i j) ∧
        (∀ k, ¬ (i * n ≤ k < (i + 1) * n) → get_cell c' k = get_cell c k).
Proof.
  intros HA HB HC HAC HBC Hn Hi Hlen.
  pose (P := λ (j : Z) (acc : gmap loc (list D)),
    ∃ c', acc = <[C := c']> h ∧ length c' = length c ∧
          (∀ j', 0 ≤ j' < j → get_cell c' (i * n + j') = dot a b n i j') ∧
          (∀ k, ¬ (i * n ≤ k < i * n + j) → get_cell c' k = get_cell c k)).
  assert (HP : P n (for_range 0 n
            (λ j h2, store h2 C (i * n + j) (dot_loop h2 A B n i j)) h)).
  { apply (for_range_inv P); [done| |].
    - exists c. split_and!; [by rewrite insert_id | done | lia | done].
    - intros j acc Hj (c1 & -> & Hl1 & Hdone & Hrest).
      exists (set_cell c1 (i * n + j) (dot a b n i j)). split_and!.
      + rewrite (store_insert _ _ c1) by apply lookup_insert_eq.
        rewrite insert_insert_eq.
        rewrite (dot_loop_eq _ A B a b); [done|by rewrite lookup_insert_ne..].
      + by rewrite length_set_cell.
      + intros j' Hj'. destruct (decide (j' = j)) as [->|Hne].
        * apply get_set_eq. nia.
        * rewrite get_set_ne by lia. apply Hdone. lia.
      + intros k Hk. rewrite get_set_ne by lia. apply Hrest. lia. }
  destruct HP as (c' & Heq & Hl & Hdone & Hrest).
  exists c'. split_and!; [done..|].
  intros k Hk. apply Hrest. lia.
Qed.

(** The rows [lo .. hi-1] of the product: the loop over the rows [i]. *)
Lemma multiply_rows_spec h A B C a b c n lo hi :
  h !! A = Some a → h !! B = Some b → h !! C = Some c →
  A ≠ C → B ≠ C → 0 ≤ n → 0 ≤ lo ≤ hi →
  hi * n ≤ Z.of_nat (length c) →
  ∃ c', multiply_rows A B C n lo hi h = <[C := c']> h ∧
        length c' = length c ∧
        (∀ i j, lo ≤ i < hi → 0 ≤ j < n →
                get_cell c' (i * n + j) = dot a b n i j) ∧
        (∀ k, ¬ (lo * n ≤ k < hi * n) → get_cell c' k = get_cell c k).
Proof.
  intros HA HB HC HAC HBC Hn Hlo Hlen.
  pose (P := λ (i : Z) (acc : gmap loc (list D)),
    ∃ c', acc = <[C := c']> h ∧ length c' = length c ∧
          (∀ i' j, lo ≤ i' < i → 0 ≤ j < n →
                   get_cell c' (i' * n + j) = dot a b n i' j) ∧
          (∀ k, ¬ (lo * n ≤ k < i * n) → get_cell c' k = get_cell c k)).
  assert (HP : P hi (multiply_rows A B C n lo hi h)).
  { apply (for_range_inv P); [lia| |].
    - exists c. split_and!; [by rewrite insert_id | done | lia | done].
    - intros i acc Hi (c1 & -> & Hl1 & Hdone & Hrest).
      destruct (multiply_row_spec (<[C := c1]> h) A B C a b c1 n i)
        as (c2 & Heq & Hl2 & Hrow & Hother);
        [by rewrite lookup_insert_ne | by rewrite lookup_insert_ne
        | by rewrite lookup_insert_eq | done | done | done | lia | nia |].
      exists c2. split_and!.
      + by rewrite Heq, insert_insert_eq.
      + by rewrite Hl2.
      + intros i' j Hi' Hj. destruct (decide (i' = i)) as [->|Hne].
        * by apply Hrow.
        * rewrite Hother by nia. apply Hdone; lia.
      + intros k Hk. rewrite Hother by nia. apply Hrest. nia. }
  destruct HP as (c' & Heq & Hl & Hdone & Hrest).
  by exists c'.
Qed.
End multiply_facts.

(** ** Matrix multiplication: the order of the iterations does not matter *)

Lemma cell_index_inj (n i j i' j' : Z) :
  0 ≤ j < n → 0 ≤ j' < n → i * n + j = i' * n + j' → i = i' ∧ j = j'.
Proof. intros Hj Hj' Heq. assert (i = i') by nia. split; [done|]. subst. lia. Qed.

Section multiply_schedule.
Context `{Scalar D}.
Implicit Types (h : gmap loc (list D)) (a b c : list D) (A B C : loc).

Lemma multiply_cells_spec A B C a b n (sched : list (Z * Z)) : ∀ h c,
  h !! A = Some a → h !! B = Some b → h !! C = Some c →
  A ≠ C → B ≠ C →
  (∀ i j, (i, j) ∈ sched →
          0 ≤ i ∧ 0 ≤ j < n ∧ (i + 1) * n ≤ Z.of_nat (length c)) →
  ∃ c', multiply_cells A B C n sched h = <[C := c']> h ∧
        length c' = length c ∧
        (∀ i j, (i, j) ∈ sched → get_cell c' (i * n + j) = dot a b n i j) ∧
        (∀ k, (∀ i j, (i, j) ∈ sched → k ≠ i * n + j) →
              get_cell c' k = get_cell c k).
Proof.
  induction sched as [|[i j] sched IH]; intros h c HA HB HC HAC HBC Hin.
  - exists c. split_and!; [by rewrite insert_id | done | | done].
    intros i j Hij. by apply elem_of_nil in Hij.
  - change (multiply_cells A B C n ((i, j) :: sched) h)
      with (multiply_cells A B C n sched
              (store h C (i * n + j) (dot_loop h A B n i j))).
    destruct (Hin i j ltac:(left)) as (Hi & Hj & Hlen).
    rewrite (store_insert _ _ c) by done.
    rewrite (dot_loop_eq _ A B a b) by done.
    destruct (IH (<[C := set_cell c (i * n + j) (dot a b n i j)]> h)
                 (set_cell c (i * n + j) (dot a b n i j)))
      as (c' & Heq & Hl & Hdone & Hrest);
      [by rewrite lookup_insert_ne | by rewrite lookup_insert_ne
      | by rewrite lookup_insert_eq | done | done | |].
    { intros i' j' Hij'. rewrite length_set_cell. apply Hin. by right. }
    exists c'. split_and!.
    + by rewrite Heq, insert_insert_eq.
    + by rewrite Hl, length_set_cell.
    + intros i' j' Hij'. apply elem_of_cons in Hij' as [Heq'|Hij'];
        [|by apply Hdone].
      injection Heq' as -> ->.
      destruct (decide ((i, j) ∈ sched)) as [Hmem|Hnot]; [by apply Hdone|].
      rewrite Hrest.
      * apply get_set_eq. nia.
      * intros i' j' Hij' Hk.
        destruct (Hin i' j' ltac:(by right)) as (_ & Hj' & _).
        destruct (cell_index_inj n i j i' j' Hj Hj' Hk) as [-> ->]. done.
    + intros k Hk. rewrite Hrest.
      * apply get_set_ne. intros Heq'. by apply (Hk i j); [left|].
      * intros i' j' Hij'. apply Hk. by right.
Qed.

(** Whatever the order in which the threads complete the iterations of the
    collapsed loop nest over the rows [lo .. hi-1], the memory afterwards is
    the one the loops leave when run in ascending order. *)
Lemma multiply_rows_any_schedule A B C a b c n lo hi (sched : list (Z * Z)) h :
  h !! A = Some a → h !! B = Some b → h !! C = Some c →
  A ≠ C → B ≠ C → 0 ≤ n → 0 ≤ lo ≤ hi →
  hi * n ≤ Z.of_nat (length c) →
  (∀ i j, (i, j) ∈ sched ↔ lo ≤ i < hi ∧ 0 ≤ j < n) →
  multiply_cells A B C n sched h = multiply_rows A B C n lo hi h.
Proof.
  intros HA HB HC HAC HBC Hn Hlo Hlen Hsched.
  destruct (multiply_cells_spec A B C a b n sched h c)
    as (c1 & -> & Hl1 & Hdone1 & Hrest1); [done..| |].
  { intros i j Hij. apply Hsched in Hij. nia. }
  destruct (multiply_rows_spec h A B C a b c n lo hi)
    as (c2 & -> & Hl2 & Hdone2 & Hrest2); [done..|].
  f_equal. apply get_cell_ext; [congruence|].
  intros k Hk.
  destruct (decide (lo * n ≤ k < hi * n)) as [Hin|Hout].
  - assert (Hpos : 0 < n) by nia.
    pose proof (Z.div_mod k n ltac:(lia)) as Hdm.
    pose proof (Z.mod_pos_bound k n Hpos) as Hm.
    assert (Hrow : lo ≤ k `div` n < hi) by nia.
    replace k with (k `div` n * n + k `mod` n) by lia.
    rewrite Hdone1 by (apply Hsched; lia).
    by rewrite Hdone2 by lia.
  - rewrite Hrest1, Hrest2; [done..|].
    intros i j Hij Heq. apply Hsched in Hij. nia.
Qed.
End multiply_schedule.

(** ** Matrix multiplication: the merge into rank 0 *)

Section multiply_run.
Context `{Scalar D}.
Implicit Types (h : gmap loc (list D)) (a b c : list D) (A B C : loc).

(** A rank other than 0 returns with its rows of [C] computed and has sent
    exactly these rows. *)
Lemma multiply_worker_spec h A B C a b c rank size n recv :
  h !! A = Some a → h !! B = Some b → h !! C = Some c →
  A ≠ C → B ≠ C → 0 ≤ n → 1 ≤ size → 0 < rank < size →
  Z.of_nat (length c) = n * n →
  ∃ c' msg,
    matrix_multiply_mpi A B C rank size n recv h = (<[C := c']> h, Some msg) ∧
    length c' = length c ∧
    length msg = Z.to_nat (part_rows n size rank * n) ∧
    (∀ i j, start_row n size rank ≤ i < end_row n size rank → 0 ≤ j < n →
            get_cell msg ((i - start_row n size rank) * n + j) = dot a b n i j).
Proof.
  intros HA HB HC HAC HBC Hn Hsize Hrank Hlen.
  destruct (start_row_range n size Hn Hsize rank ltac:(lia)) as [Hse Hen].
  destruct (multiply_rows_spec h A B C a b c n
              (start_row n size rank) (end_row n size rank))
    as (c' & Heq & Hl & Hrows & _); [done..|nia|].
  exists c', (read_range (<[C := c']> h) C (start_row n size rank * n)
               (part_rows n size rank * n)).
  split_and!.
  - unfold matrix_multiply_mpi. rewrite decide_False by lia.
    by rewrite Heq.
  - done.
  - apply length_read_range.
  - intros i j Hi Hj. rewrite get_read_range by (unfold part_rows; nia).
    rewrite load_insert_eq.
    replace (start_row n size rank * n + ((i - start_row n size rank) * n + j))
      with (i * n + j) by lia.
    by apply Hrows.
Qed.

(** Cells of the rows of one partition lie outside the cell range of
    another partition. *)
Lemma partition_cells_disjoint n size q p i j :
  0 ≤ n → 1 ≤ size → 0 ≤ q < size → 0 ≤ p < size → q ≠ p →
  start_row n size q ≤ i < end_row n size q → 0 ≤ j < n →
  ¬ (start_row n size p * n ≤ i * n + j < end_row n size p * n).
Proof.
  intros Hn Hsize Hq Hp Hne Hi Hj Hk.
  apply Hne.
  rewrite (owner_unique n size Hn Hsize i q Hq Hi).
  symmetry. apply (owner_unique n size Hn Hsize i p Hp). nia.
Qed.

(** C1: for every dimension [n], every process count [size ≥ 1] and every
    pair of [n × n] matrices [a], [b] that all ranks hold at [A] and [B]
    (with an [n × n] output buffer at a different address [C]), after
    [matrix_multiply_mpi] has run on all ranks rank 0 holds at [C] a matrix
    every entry [(i, j)] of which is the sum over [k] of
    [a[i][k] * b[k][j]]; the right-hand side does not depend on [size]. *)
Theorem multiply_correct A B C (size n : Z) a b (w : list (gmap loc (list D))) :
  0 ≤ n → 1 ≤ size → length w = Z.to_nat size →
  A ≠ C → B ≠ C →
  (∀ r h, w !! r = Some h →
     h !! A = Some a ∧ h !! B = Some b ∧
     ∃ c, h !! C = Some c ∧ Z.of_nat (length c) = n * n) →
  ∃ h0 c,
    run_multiply A B C size n w !! 0%nat = Some h0 ∧
    h0 !! C = Some c ∧
    Z.of_nat (length c) = n * n ∧
    ∀ i j, 0 ≤ i < n → 0 ≤ j < n → get_cell c (i * n + j) = dot a b n i j.
Proof.
  intros Hn Hsize Hw HAC HBC Hmem.
  unfold run_multiply.
  set (outs := imap (λ r h, matrix_multiply_mpi A B C (Z.of_nat r) size n (λ _, []) h) w).
  set (sent := λ p : Z, default [] (outs !! Z.to_nat p ≫= snd)).
  (* what the ranks 1 .. size-1 sent *)
  assert (Hsent : ∀ p, 0 < p < size →
            length (sent p) = Z.to_nat (part_rows n size p * n) ∧
            ∀ i j, start_row n size p ≤ i < end_row n size p → 0 ≤ j < n →
              get_cell (sent p) ((i - start_row n size p) * n + j) = dot a b n i j).
  { intros p Hp.
    destruct (lookup_lt_is_Some_2 w (Z.to_nat p) ltac:(lia)) as [hp Hhp].
    destruct (Hmem _ _ Hhp) as (HA & HB & cp & HC & Hcp).
    destruct (multiply_worker_spec hp A B C a b cp p size n (λ _, []))
      as (c' & msg & Heq & _ & Hlm & Hmsg); [done..|].
    assert (Hs : sent p = msg).
    { unfold sent, outs. rewrite list_lookup_imap, Hhp. simpl.
      rewrite Z2Nat.id by lia. by rewrite Heq. }
    rewrite Hs. done. }
  clearbody sent. clear outs.
  destruct (lookup_lt_is_Some_2 w 0%nat ltac:(lia)) as [h Hh].
  destruct (Hmem _ _ Hh) as (HA & HB & c0 & HC & Hc0).
  rewrite list_lookup_imap, Hh. simpl.
  destruct (start_row_range n size Hn Hsize 0 ltac:(lia)) as [Hse Hen].
  destruct (multiply_rows_spec h A B C a b c0 n
              (start_row n size 0) (end_row n size 0))
    as (c1 & -> & Hl1 & Hrows1 & _); [done..|nia|].
  (* the receive loop: after the messages of the ranks below [p], the rows
     of the partitions of the ranks below [p] are in place *)
  pose (P := λ (p : Z) (acc : gmap loc (list D)),
    ∃ c, acc = <[C := c]> h ∧ Z.of_nat (length c) = n * n ∧
         ∀ q i j, 0 ≤ q < p → start_row n size q ≤ i < end_row n size q →
                  0 ≤ j < n → get_cell c (i * n + j) = dot a b n i j).
  match goal with |- ∃ h0 c, Some (for_range 1 size ?body ?s) = _ ∧ _ =>
    assert (HP : P size (for_range 1 size body s)) end.
  { apply (for_range_inv P); [lia| |].
    - exists c1. split_and!; [done|lia|].
      intros q i j Hq Hi Hj. assert (q = 0) as -> by lia. by apply Hrows1.
    - intros p acc Hp (c & -> & Hlc & Hdone).
      destruct (Hsent p ltac:(lia)) as [Hlen Hmsg].
      destruct (start_row_range n size Hn Hsize p ltac:(lia)) as [Hsp Hep].
      fold (start_row n size p).
      change (if decide (p = size - 1) then n
              else start_row n size p + rows_per_proc n size)
        with (end_row n size p).
      fold (part_rows n size p).
      rewrite take_ge by lia.
      destruct (write_range_spec (sent p) (<[C := c]> h) C c
                  (start_row n size p * n))
        as (c' & Heq & Hl' & Hin & Hout).
      { apply lookup_insert_eq. }
      { nia. }
      { rewrite Hlen. unfold part_rows. nia. }
      exists c'. split_and!.
      + by rewrite Heq, insert_insert_eq.
      + lia.
      + intros q i j Hq Hi Hj. destruct (decide (q = p)) as [->|Hne].
        * rewrite Hin by (rewrite Hlen; unfold part_rows; nia).
          replace (i * n + j - start_row n size p * n)
            with ((i - start_row n size p) * n + j) by lia.
          by apply Hmsg.
        * rewrite Hout; [apply (Hdone q); [lia|done..]|].
          rewrite Hlen.
          replace (start_row n size p * n + Z.of_nat (Z.to_nat (part_rows n size p * n)))
            with (end_row n size p * n) by (unfold part_rows; nia).
          apply (partition_cells_disjoint n size q p); [done..|lia|lia|done|done|done]. }
  destruct HP as (c & Heq & Hlc & Hdone).
  exists (<[C := c]> h), c. split_and!.
  - by rewrite Heq.
  - apply lookup_insert_eq.
  - done.
  - intros i j Hi Hj.
    apply (Hdone (owner n size i)); [by apply owner_range | by apply owner_holds | done].
Qed.
End multiply_run.

(** ** Saving the partitions: facts *)

Local Abbreviation chars := Stdlib.Strings.String.list_ascii_of_string (only parsing).

Lemma chars_app (s t : string) : chars (s +:+ t) = chars s ++ chars t.
Proof. induction s as [|c s IH]; simpl; [done | by rewrite IH]. Qed.

Lemma string_app_inv_tail (s1 s2 t : string) : s1 +:+ t = s2 +:+ t → s1 = s2.
Proof.
  intros Heq. apply (f_equal chars) in Heq.
  rewrite !chars_app in Heq. apply app_inv_tail in Heq.
  rewrite <- (Stdlib.Strings.String.string_of_list_ascii_of_string s1), Heq.
  apply Stdlib.Strings.String.string_of_list_ascii_of_string.
Qed.

Lemma foldl_app_join {X Y : Type} (f : X → list Y) (l : list X) (acc : list Y) :
  foldl (λ written i, written ++ f i) acc l = acc ++ mjoin (f <$> l).
Proof.
  revert acc. induction l as [|x l IH]; intros acc; simpl.
  - by rewrite app_nil_r.
  - by rewrite IH, app_assoc.
Qed.

Section save_facts.
Context `{Scalar D}.
Implicit Types (h : gmap loc (list D)) (m : list D) (fs : filesys D).

Lemma part_file_name_inj filename r1 r2 :
  part_file_name filename r1 = part_file_name filename r2 → r1 = r2.
Proof.
  unfold part_file_name. intros Heq.
  apply (inj (String.app filename)) in Heq.
  apply (inj (String.app "_part")) in Heq.
  apply string_app_inv_tail in Heq.
  by apply (inj pretty) in Heq.
Qed.

Lemma length_rows_of m n lo hi :
  0 ≤ n → lo ≤ hi → Z.of_nat (length (rows_of m n lo hi)) = (hi - lo) * n.
Proof.
  intros Hn Hle. unfold rows_of.
  assert (Hgen : ∀ l : list Z,
    Z.of_nat (length (mjoin ((λ i, (λ j, get_cell m (i * n + j)) <$> seqZ 0 n) <$> l)))
    = Z.of_nat (length l) * n).
  { induction l as [|x l IH]; csimpl; [lia|].
    rewrite length_app, length_fmap, length_seqZ, Nat2Z.inj_add, IH. lia. }
  rewrite Hgen, length_seqZ. nia.
Qed.

(** The cell [(i, j)] of the matrix is at position [(i - lo) * n + j] of the
    rows [lo .. hi-1] laid out one after the other. *)
Lemma lookup_rows_of m n lo hi i j :
  0 ≤ n → lo ≤ i < hi → 0 ≤ j < n →
  rows_of m n lo hi !! Z.to_nat ((i - lo) * n + j) = Some (get_cell m (i * n + j)).
Proof.
  intros Hn Hi Hj. unfold rows_of.
  assert (Hgen : ∀ (k : nat) (lo' : Z), 0 ≤ i - lo' < Z.of_nat k →
    mjoin ((λ i', (λ j', get_cell m (i' * n + j')) <$> seqZ 0 n) <$> seqZ lo' (Z.of_nat k))
      !! Z.to_nat ((i - lo') * n + j) = Some (get_cell m (i * n + j))).
  { induction k as [|k IH]; intros lo' Hk; [lia|].
    rewrite (seqZ_cons lo') by lia. csimpl.
    destruct (decide (i = lo')) as [->|Hne].
    - rewrite lookup_app_l by (rewrite length_fmap, length_seqZ; lia).
      rewrite list_lookup_fmap, lookup_seqZ_lt by lia. simpl.
      do 2 f_equal. lia.
    - rewrite lookup_app_r by (rewrite length_fmap, length_seqZ; nia).
      rewrite length_fmap, length_seqZ.
      replace (Z.to_nat ((i - lo') * n + j) - Z.to_nat n)%nat
        with (Z.to_nat ((i - Z.succ lo') * n + j)) by nia.
      replace (Z.pred (Z.of_nat (S k))) with (Z.of_nat k) by lia.
      apply IH. lia. }
  replace (hi - lo) with (Z.of_nat (Z.to_nat (hi - lo))) by lia.
  apply Hgen. lia.
Qed.

(** What one rank writes into its file. *)
Lemma save_content h matrix n lo hi :
  for_range lo hi (λ i written, written ++ write_row h matrix n i) []
  = ORaw <$> rows_of (buffer h matrix) n lo hi.
Proof.
  unfold for_range, rows_of. rewrite foldl_app_join, app_nil_l.
  generalize (seqZ lo (hi - lo)). intros l.
  induction l as [|i l IH]; csimpl; [done|].
  by rewrite fmap_app, IH.
Qed.

Lemma save_matrix_distributed_spec matrix n filename rank size h fs :
  part_file_name filename rank ∉ denied fs →
  save_matrix_distributed matrix n filename rank size h fs
  = FileSys (<[part_file_name filename rank :=
                 ORaw <$> rows_of (buffer h matrix) n
                            (start_row n size rank) (end_row n size rank)]>
               (files fs))
            (denied fs).
Proof.
  intros Hok. unfold save_matrix_distributed.
  rewrite decide_False by done. by rewrite save_content.
Qed.

Lemma save_matrix_distributed_denied matrix n filename rank size h fs :
  denied (save_matrix_distributed matrix n filename rank size h fs) = denied fs.
Proof. unfold save_matrix_distributed. by case_decide. Qed.
End save_facts.

Section save_run.
Context `{Scalar D}.
Implicit Types (h : gmap loc (list D)) (m : list D) (fs : filesys D).

(** After all ranks have saved, the file of every rank holds what that rank
    wrote: the saves of the other ranks go to other files. *)
Lemma run_save_files matrix n filename size (w : list (gmap loc (list D))) fs :
  (∀ r : nat, (r < length w)%nat →
     part_file_name filename (Z.of_nat r) ∉ denied fs) →
  denied (run_save matrix n filename size w fs) = denied fs ∧
  ∀ (r : nat) h, w !! r = Some h →
    files (run_save matrix n filename size w fs)
      !! part_file_name filename (Z.of_nat r)
    = Some (ORaw <$> rows_of (buffer h matrix) n
                       (start_row n size (Z.of_nat r))
                       (end_row n size (Z.of_nat r))).
Proof.
  induction w as [|h0 w IH] using rev_ind; intros Hok.
  - split; [done|]. intros r h Hr. by rewrite lookup_nil in Hr.
  - destruct IH as [IHd IHf].
    { intros r Hr. apply Hok. rewrite length_app. lia. }
    unfold run_save in *. rewrite imap_app, foldl_app. simpl.
    rewrite Nat.add_0_r.
    set (fs1 := foldl _ fs (imap pair w)) in *.
    rewrite save_matrix_distributed_spec.
    2:{ rewrite IHd. apply Hok. rewrite length_app. simpl. lia. }
    simpl. split; [done|]. intros r h Hr.
    apply lookup_app_Some in Hr as [Hr|[Hge Hr]].
    + rewrite lookup_insert_ne; [by apply IHf|].
      intros Heq. apply part_file_name_inj in Heq.
      apply lookup_lt_Some in Hr. lia.
    + apply list_lookup_singleton_Some in Hr as [Hr0 <-].
      assert (r = length w) as -> by lia.
      by rewrite lookup_insert_eq.
Qed.

(** C9: when every rank can open its file, after [save_matrix_distributed]
    on all ranks the file named after rank [r] holds exactly the rows
    [start_row .. end_row - 1] of that rank's partition (the one the
    multiplication assigned), in ascending order, each row as the [n]
    doubles of the row, [sizeof(double) = 8] bytes each; the cell [(i, j)]
    sits at position [(i - start_row) * n + j]; the files of two ranks have
    different names. *)
Theorem save_partitions matrix n filename size
    (w : list (gmap loc (list D))) fs r h m :
  0 ≤ n → 1 ≤ size → length w = Z.to_nat size →
  (∀ r', 0 ≤ r' < size → part_file_name filename r' ∉ denied fs) →
  0 ≤ r < size → w !! Z.to_nat r = Some h → h !! matrix = Some m →
  ∃ content,
    files (run_save matrix n filename size w fs) !! part_file_name filename r
      = Some content ∧
    content = ORaw <$> rows_of m n (start_row n size r) (end_row n size r) ∧
    raw_bytes content = part_rows n size r * n * 8 ∧
    (∀ i j, start_row n size r ≤ i < end_row n size r → 0 ≤ j < n →
       content !! Z.to_nat ((i - start_row n size r) * n + j)
       = Some (ORaw (get_cell m (i * n + j)))) ∧
    (∀ r', r' ≠ r → part_file_name filename r' ≠ part_file_name filename r).
Proof.
  intros Hn Hsize Hw Hok Hr Hh Hm.
  destruct (run_save_files matrix n filename size w fs) as [_ Hfiles].
  { intros r' Hr'. apply Hok. lia. }
  specialize (Hfiles _ _ Hh). rewrite Z2Nat.id in Hfiles by lia.
  assert (Hbuf : buffer h matrix = m) by (unfold buffer; by rewrite Hm).
  rewrite Hbuf in Hfiles.
  destruct (start_row_range n size Hn Hsize r Hr) as [Hse Hen].
  eexists. split_and!; [exact Hfiles|done| | |].
  - unfold raw_bytes, sizeof_double, part_rows.
    rewrite length_fmap, length_rows_of by lia. lia.
  - intros i j Hi Hj. rewrite list_lookup_fmap, lookup_rows_of by lia. done.
  - intros r' Hne Heq. by apply part_file_name_inj in Heq.
Qed.
End save_run.

(** ** The bottleneck report: facts *)

Lemma for_range_cons {St : Type} lo hi (body : Z → St → St) s :
  lo < hi →
  for_range lo hi body s = for_range (lo + 1) hi body (body lo s).
Proof.
  intros Hlt. unfold for_range. rewrite seqZ_cons by lia. simpl.
  by replace (Z.pred (hi - lo)) with (hi - (lo + 1)) by lia.
Qed.

Section analyze_facts.
Context `{Scalar D}.
Implicit Types (fs : filesys D) (xs : list D).

(** Of the [size] calls only the one of rank 0 writes. *)
Lemma run_analyze_spec size comp_times comm_times filename fs :
  1 ≤ size →
  run_analyze size comp_times comm_times filename fs
  = append_file filename
      (bottleneck_record size
         (d_div (mpi_reduce_sum comp_times) (d_of_int size))
         (d_div (mpi_reduce_sum comm_times) (d_of_int size))
         (comm_ratio (d_div (mpi_reduce_sum comp_times) (d_of_int size))
                     (d_div (mpi_reduce_sum comm_times) (d_of_int size))))
      fs.
Proof.
  intros Hsize. unfold run_analyze. rewrite for_range_cons by lia.
  set (fs1 := analyze_communication 0 _ _ _ _ _).
  assert (Hrest : for_range (0 + 1) size
            (λ rank fs2, analyze_communication rank size comp_times comm_times
                           filename fs2) fs1 = fs1).
  { apply (for_range_inv (λ _ acc, acc = fs1)); [lia|done|].
    intros rank acc Hrank ->. unfold analyze_communication.
    by rewrite decide_False by lia. }
  rewrite Hrest. unfold fs1, analyze_communication.
  by rewrite decide_True by done.
Qed.

Lemma append_file_lookup path items fs :
  path ∉ denied fs →
  files (append_file path items fs) !! path
  = Some (default [] (files fs !! path) ++ items).
Proof.
  intros Hok. unfold append_file. rewrite decide_False by done.
  simpl. apply lookup_insert_eq.
Qed.

Lemma append_file_lookup_ne path path' items fs :
  path ≠ path' →
  files (append_file path items fs) !! path' = files fs !! path'.
Proof.
  intros Hne. unfold append_file. case_decide; [done|].
  simpl. by apply lookup_insert_ne.
Qed.
End analyze_facts.

(** ** Rounding in binary64 *)

Lemma bpow_pos e : (0 < bpow e)%Q.
Proof. unfold bpow. by apply Qpower_0_lt. Qed.

Lemma bpow_add a b : (bpow (a + b) == bpow a * bpow b)%Q.
Proof. unfold bpow. by apply Qpower_plus. Qed.

Lemma bpow_le a b : a ≤ b → (bpow a <= bpow b)%Q.
Proof. intros Hab. unfold bpow. apply Qpower_le_compat_l; [done|]. done. Qed.

Lemma bpow_lt a b : a < b → (bpow a < bpow b)%Q.
Proof. intros Hab. unfold bpow. apply Qpower_lt_compat_l; [done|]. done. Qed.

Lemma bpow_Z n : 0 ≤ n → (bpow n == inject_Z (2 ^ n))%Q.
Proof. intros Hn. unfold bpow. by rewrite Zpower_Qpower. Qed.

Lemma bpow_0 : (bpow 0 == 1)%Q.
Proof. done. Qed.

Lemma bpow_succ e : (bpow (e + 1) == bpow e * 2)%Q.
Proof. rewrite bpow_add. done. Qed.

Lemma F2Q_le_mono m n e : m ≤ n → (F2Q m e <= F2Q n e)%Q.
Proof.
  intros Hmn. unfold F2Q. pose proof (bpow_pos e).
  apply Qmult_le_compat_r; [|lra]. by rewrite <- Zle_Qle.
Qed.

Lemma F2Q_lt_mono m n e : m < n → (F2Q m e < F2Q n e)%Q.
Proof.
  intros Hmn. unfold F2Q. pose proof (bpow_pos e).
  apply Qmult_lt_compat_r; [done|]. by rewrite <- Zlt_Qlt.
Qed.

Lemma F2Q_le_inv m n e : (F2Q m e <= F2Q n e)%Q → m ≤ n.
Proof.
  intros Hle. destruct (decide (m ≤ n)) as [|Hgt]; [done|].
  pose proof (F2Q_lt_mono n m e ltac:(lia)). lra.
Qed.

Lemma F2Q_lt_inv m n e : (F2Q m e < F2Q n e)%Q → m < n.
Proof.
  intros Hlt. destruct (decide (m < n)) as [|Hge]; [done|].
  pose proof (F2Q_le_mono n m e ltac:(lia)). lra.
Qed.

(** [m * 2^k] at exponent [e] is [m] at exponent [e + k]. *)
Lemma F2Q_shift m k e : 0 ≤ k → (F2Q (m * 2 ^ k) e == F2Q m (e + k))%Q.
Proof.
  intros Hk. unfold F2Q. rewrite inject_Z_mult, bpow_add, <- bpow_Z by done. ring.
Qed.

Lemma F2Q_pow k e : 0 ≤ k → (F2Q (2 ^ k) e == bpow (k + e))%Q.
Proof.
  intros Hk. unfold F2Q. rewrite bpow_add, <- bpow_Z by done. ring.
Qed.

Lemma F2Q_add m n e : (F2Q (m + n) e == F2Q m e + F2Q n e)%Q.
Proof. unfold F2Q. rewrite inject_Z_plus. ring. Qed.

Lemma F2Q_0 e : (F2Q 0 e == 0)%Q.
Proof. unfold F2Q. ring. Qed.

Lemma F2Q_pos m e : 0 < m → (0 < F2Q m e)%Q.
Proof. intros Hm. rewrite <- (F2Q_0 e). by apply F2Q_lt_mono. Qed.

(** ** Binary digits *)

Lemma digits2_pos_spec p :
  2 ^ (Z.pos (digits2_pos p) - 1) ≤ Z.pos p < 2 ^ Z.pos (digits2_pos p).
Proof.
  induction p as [p IH|p IH|]; simpl digits2_pos; [| |done].
  - rewrite Pos2Z.inj_succ.
    replace (Z.succ (Z.pos (digits2_pos p)) - 1)
      with (Z.succ (Z.pos (digits2_pos p) - 1)) by lia.
    rewrite !Z.pow_succ_r by lia. lia.
  - rewrite Pos2Z.inj_succ.
    replace (Z.succ (Z.pos (digits2_pos p)) - 1)
      with (Z.succ (Z.pos (digits2_pos p) - 1)) by lia.
    rewrite !Z.pow_succ_r by lia. lia.
Qed.

Lemma Zdigits2_nonneg m : 0 ≤ Zdigits2 m.
Proof. by destruct m. Qed.

Lemma Zdigits2_upper m : 0 ≤ m → m < 2 ^ Zdigits2 m.
Proof.
  intros Hm. destruct m as [|p|p]; [done| |lia]. apply digits2_pos_spec.
Qed.

Lemma Zdigits2_lower m : 0 < m → 2 ^ (Zdigits2 m - 1) ≤ m.
Proof.
  intros Hm. destruct m as [|p|p]; [lia| |lia]. apply digits2_pos_spec.
Qed.

(** A number below [2^k] has at most [k] digits, one from [2^k] on has more
    than [k]. *)
Lemma Zdigits2_le m k : 0 ≤ m → 0 ≤ k → m < 2 ^ k → Zdigits2 m ≤ k.
Proof.
  intros Hm Hk Hlt. destruct (decide (m = 0)) as [->|Hne]; [done|].
  pose proof (Zdigits2_lower m ltac:(lia)) as Hlow.
  destruct (decide (Zdigits2 m ≤ k)) as [|Hgt]; [done|].
  pose proof (Z.pow_le_mono_r 2 k (Zdigits2 m - 1) ltac:(lia) ltac:(lia)). lia.
Qed.

Lemma Zdigits2_gt m k : 0 ≤ k → 2 ^ k ≤ m → k < Zdigits2 m.
Proof.
  intros Hk Hle.
  assert (0 < 2 ^ k) by (apply Z.pow_pos_nonneg; lia).
  pose proof (Zdigits2_upper m ltac:(lia)) as Hup.
  pose proof (Zdigits2_nonneg m).
  destruct (decide (k < Zdigits2 m)) as [|Hge]; [done|].
  pose proof (Z.pow_le_mono_r 2 (Zdigits2 m) k ltac:(lia) ltac:(lia)). lia.
Qed.

Lemma Zdigits2_shift m k : 0 < m → 0 ≤ k → Zdigits2 (m * 2 ^ k) = Zdigits2 m + k.
Proof.
  intros Hm Hk.
  pose proof (Zdigits2_upper m ltac:(lia)) as Hup.
  pose proof (Zdigits2_lower m Hm) as Hlow.
  pose proof (Zdigits2_nonneg m).
  assert (0 < Zdigits2 m).
  { destruct m; [lia| |lia]. simpl. lia. }
  assert (0 < 2 ^ k) by (apply Z.pow_pos_nonneg; lia).
  apply Z.le_antisymm.
  - apply Zdigits2_le; [lia|lia|]. rewrite Z.pow_add_r by lia. nia.
  - assert (Zdigits2 m + k - 1 < Zdigits2 (m * 2 ^ k)); [|lia].
    apply Zdigits2_gt; [lia|].
    replace (Zdigits2 m + k - 1) with (Zdigits2 m - 1 + k) by lia.
    rewrite Z.pow_add_r by lia. nia.
Qed.

Lemma fexp_eq k : fexp prec emax k = Z.max (k - 53) (-1074).
Proof. reflexivity. Qed.

(** ** Shifting the mantissa to the right *)

Lemma F2Q_double k e : (F2Q k (e + 1) == F2Q (2 * k) e)%Q.
Proof.
  unfold F2Q. rewrite inject_Z_mult, bpow_succ. change (inject_Z 2) with 2%Q. ring.
Qed.

Lemma shr_1_inv mrs e x : trunc_inv mrs e x → trunc_inv (shr_1 mrs) (e + 1) x.
Proof.
  destruct mrs as [m r s]. unfold trunc_inv. simpl.
  intros (Hm & Hle & Hlt & Hbits).
  destruct m as [|[p|p|]|p]; simpl; [| | | |lia].
  - pose proof (F2Q_double 0 e) as H1.
    pose proof (F2Q_double (0 + 1) e) as H2.
    pose proof (F2Q_le_mono (0 + 1) (2 * (0 + 1)) e ltac:(lia)) as H4.
    change (2 * 0) with 0 in H1.
    split_and!; [lia|lra|lra|]. intros Hrs. specialize (Hbits Hrs). lra.
  - pose proof (F2Q_double (Z.pos p) e) as H1.
    pose proof (F2Q_double (Z.pos p + 1) e) as H2.
    pose proof (F2Q_lt_mono (2 * Z.pos p) (Z.pos p~1) e ltac:(lia)) as H3.
    pose proof (F2Q_le_mono (Z.pos p~1 + 1) (2 * (Z.pos p + 1)) e ltac:(lia)) as H4.
    split_and!; [lia|lra|lra|]. intros _. lra.
  - pose proof (F2Q_double (Z.pos p) e) as H1.
    pose proof (F2Q_double (Z.pos p + 1) e) as H2.
    pose proof (F2Q_le_mono (2 * Z.pos p) (Z.pos p~0) e ltac:(lia)) as H3.
    pose proof (F2Q_le_mono (Z.pos p~0) (2 * Z.pos p) e ltac:(lia)) as H3'.
    pose proof (F2Q_le_mono (Z.pos p~0 + 1) (2 * (Z.pos p + 1)) e ltac:(lia)) as H4.
    split_and!; [lia|lra|lra|]. intros Hrs. specialize (Hbits Hrs). lra.
  - pose proof (F2Q_double 0 e) as H1.
    pose proof (F2Q_double (0 + 1) e) as H2.
    pose proof (F2Q_lt_mono (2 * 0) 1 e ltac:(lia)) as H3.
    pose proof (F2Q_le_mono (1 + 1) (2 * (0 + 1)) e ltac:(lia)) as H4.
    split_and!; [lia|lra|lra|]. intros _. lra.
Qed.

Lemma iter_pos_shr_1_inv p mrs e x :
  trunc_inv mrs e x → trunc_inv (SpecFloat.iter_pos shr_1 p mrs) (e + Z.pos p) x.
Proof.
  revert mrs e. induction p as [p IH|p IH|]; intros mrs e Hinv; simpl.
  - replace (e + Z.pos p~1) with (e + 1 + Z.pos p + Z.pos p) by lia.
    apply IH, IH. by apply shr_1_inv.
  - replace (e + Z.pos p~0) with (e + Z.pos p + Z.pos p) by lia.
    by apply IH, IH.
  - by apply shr_1_inv.
Qed.

Lemma shr_inv mrs e n x :
  trunc_inv mrs e x →
  trunc_inv (shr mrs e n).1 (shr mrs e n).2 x ∧ (shr mrs e n).2 = e + Z.max n 0 ∧
  (n ≤ 0 → (shr mrs e n).1 = mrs).
Proof.
  intros Hinv. destruct n as [|p|p]; simpl.
  - split_and!; [done|lia|done].
  - split_and!; [by apply iter_pos_shr_1_inv|lia|lia].
  - split_and!; [done|lia|done].
Qed.

Lemma shr_nonpos mrs e n : n ≤ 0 → shr mrs e n = (mrs, e).
Proof. intros Hn. destruct n; [done|lia|done]. Qed.

(** ** Rounding to nearest *)

Lemma shr_m_of_loc m l : shr_m (shr_record_of_loc m l) = m.
Proof. by destruct l as [|[]]. Qed.

Lemma round_nearest_even_spec mrs e x :
  trunc_inv mrs e x →
  shr_m mrs ≤ round_nearest_even (shr_m mrs) (loc_of_shr_record mrs) ≤ shr_m mrs + 1 ∧
  (round_nearest_even (shr_m mrs) (loc_of_shr_record mrs) = shr_m mrs + 1 →
   (F2Q (shr_m mrs) e < x)%Q).
Proof.
  destruct mrs as [m [] []]; unfold trunc_inv; simpl;
    intros (Hm & Hle & Hlt & Hbits).
  - split; [lia|]. intros _. by apply Hbits.
  - destruct (Z.even m); (split; [lia|]); intros _; by apply Hbits.
  - split; [lia|]. intros _. by apply Hbits.
  - split; [lia|]. lia.
Qed.

(** What [binary_round_aux] returns for a non-negative number [x] that is
    given by a truncated mantissa [m0] at exponent [e0] and a location: the
    truncation [m1] of [x] at the exponent [e1] of the format, the rounded
    mantissa [m2], and the mantissa [m3] and exponent [e3] after the carry. *)
Lemma binary_round_aux_spec m0 e0 l x :
  trunc_inv (shr_record_of_loc m0 l) e0 x →
  e0 ≤ fexp prec emax (Zdigits2 m0 + e0) →
  ∃ m1 e1 m2 m3 e3,
    binary_round_aux prec emax false m0 e0 l
    = match m3 with
      | Z0 => S754_zero false
      | Zpos p => if e3 <=? emax - prec then S754_finite false p e3
                  else S754_infinity false
      | Zneg _ => S754_nan
      end ∧
    -1074 ≤ e1 ∧ (F2Q m1 e1 <= x)%Q ∧ (x < F2Q (m1 + 1) e1)%Q ∧
    0 ≤ m1 < 2 ^ 53 ∧ (-1074 < e1 → 2 ^ 52 ≤ m1) ∧
    m1 ≤ m2 ≤ m1 + 1 ∧ (m2 = m1 + 1 → (F2Q m1 e1 < x)%Q) ∧
    (F2Q m3 e3 == F2Q m2 e1)%Q ∧ 0 ≤ m3 < 2 ^ 53 ∧ e1 ≤ e3 ∧
    (-1074 < e3 → 2 ^ 52 ≤ m3).
Proof.
  intros Hinv He0.
  pose proof Hinv as (Hm0 & Hle0 & Hlt0 & _). rewrite shr_m_of_loc in Hm0, Hle0, Hlt0.
  unfold binary_round_aux.
  destruct (shr_fexp prec emax m0 e0 l) as [mrs1 e1] eqn:H1.
  unfold shr_fexp in H1.
  destruct (shr_inv _ e0 (fexp prec emax (Zdigits2 m0 + e0) - e0) x Hinv)
    as (Hinv1 & He1 & _).
  rewrite H1 in Hinv1, He1. simpl in Hinv1, He1.
  assert (He1' : e1 = fexp prec emax (Zdigits2 m0 + e0)) by lia.
  clear He1 H1.
  rewrite fexp_eq in He0, He1'.
  pose proof (Zdigits2_nonneg m0) as Hd0.
  set (m1 := shr_m mrs1) in *.
  pose proof Hinv1 as (Hm1 & Hle1 & Hlt1 & _). fold m1 in Hm1, Hle1, Hlt1.
  (* the truncated mantissa has at most 53 digits *)
  assert (Hm1up : m1 < 2 ^ 53).
  { apply (F2Q_lt_inv _ _ e1).
    pose proof (Zdigits2_upper m0 Hm0) as Hup.
    pose proof (F2Q_le_mono (m0 + 1) (2 ^ Zdigits2 m0) e0 ltac:(lia)) as H2.
    pose proof (F2Q_pow (Zdigits2 m0) e0 Hd0) as H3.
    pose proof (F2Q_pow 53 e1 ltac:(lia)) as H4.
    pose proof (bpow_le (Zdigits2 m0 + e0) (53 + e1) ltac:(lia)) as H5.
    lra. }
  (* and exactly 53 above the smallest exponent *)
  assert (Hm1low : -1074 < e1 → 2 ^ 52 ≤ m1).
  { intros Hlow.
    assert (Hpos0 : 0 < m0).
    { destruct (decide (m0 = 0)) as [->|]; [simpl in *; lia|lia]. }
    assert (2 ^ 52 < m1 + 1); [|lia].
    apply (F2Q_lt_inv _ _ e1).
    pose proof (Zdigits2_lower m0 Hpos0) as Hlo.
    assert (Hd1 : 0 ≤ Zdigits2 m0 - 1).
    { destruct m0; [lia| |lia]. simpl. lia. }
    pose proof (F2Q_le_mono (2 ^ (Zdigits2 m0 - 1)) m0 e0 Hlo) as H2.
    pose proof (F2Q_pow (Zdigits2 m0 - 1) e0 Hd1) as H3.
    pose proof (F2Q_pow 52 e1 ltac:(lia)) as H4.
    pose proof (bpow_le (52 + e1) (Zdigits2 m0 - 1 + e0) ltac:(lia)) as H5.
    lra. }
  destruct (round_nearest_even_spec mrs1 e1 x Hinv1) as [Hm2 Hup2].
  fold m1 in Hm2, Hup2.
  set (m2 := round_nearest_even m1 (loc_of_shr_record mrs1)) in *.
  destruct (decide (m2 = 2 ^ 53)) as [Hcarry|Hnc].
  - (* the carry: one more shift *)
    exists m1, e1, m2, (2 ^ 52), (e1 + 1).
    split_and!; try (done || lia).
    + rewrite Hcarry. unfold shr_fexp.
      replace (fexp prec emax (Zdigits2 (2 ^ 53) + e1) - e1) with 1
        by (rewrite fexp_eq; change (Zdigits2 (2 ^ 53)) with 54; lia).
      reflexivity.
    + rewrite Hcarry. rewrite F2Q_double. done.
  - exists m1, e1, m2, m2, e1.
    assert (Hd2 : Zdigits2 m2 ≤ 53) by (apply Zdigits2_le; lia).
    split_and!; try (done || lia).
    unfold shr_fexp. rewrite shr_nonpos by (rewrite fexp_eq; lia).
    reflexivity.
Qed.

(** ** Order of the numbers of the format *)

(** A mantissa of at most 53 digits at a smaller exponent is below a
    mantissa of exactly 53 digits. *)
Lemma F2Q_lt_exp m e M E :
  m < 2 ^ 53 → e < E → 2 ^ 52 ≤ M → (F2Q m e < F2Q M E)%Q.
Proof.
  intros Hm He HM.
  pose proof (F2Q_lt_mono m (2 ^ 53) e Hm) as H1.
  pose proof (F2Q_pow 53 e ltac:(lia)) as H2.
  pose proof (F2Q_pow 52 E ltac:(lia)) as H3.
  pose proof (F2Q_le_mono (2 ^ 52) M E HM) as H4.
  pose proof (bpow_le (53 + e) (52 + E) ltac:(lia)) as H5.
  lra.
Qed.

Lemma F2Q_shift_exp M E e : e ≤ E → (F2Q M E == F2Q (M * 2 ^ (E - e)) e)%Q.
Proof.
  intros He. rewrite F2Q_shift by lia. by replace (e + (E - e)) with E by lia.
Qed.

Lemma SFleb_finite m e M E :
  SFleb (S754_finite false m e) (S754_finite false M E) = true
  ↔ e < E ∨ (e = E ∧ Z.pos m ≤ Z.pos M).
Proof.
  unfold SFleb, SFcompare.
  change (Pos.compare_cont Eq m M) with (m ?= M)%positive.
  destruct (Z.compare_spec e E) as [->|Hlt|Hgt].
  - destruct (Pos.compare_spec m M) as [->|Hlt|Hgt].
    + split; [intros _; right; split; [done|lia] | done].
    + split; [intros _; right; split; [done|lia] | done].
    + split; [done | intros [?|[_ ?]]; lia].
  - split; [intros _; by left|done].
  - split; [done|lia].
Qed.

Lemma bounded_canon m e :
  bounded prec emax m e = true → canon (Z.pos m) e ∧ e ≤ 971.
Proof.
  unfold bounded, canonical_mantissa. rewrite andb_true_iff.
  rewrite Z.eqb_eq, Z.leb_le, fexp_eq.
  change (emax - prec) with 971. intros [Hc He].
  pose proof (digits2_pos_spec m) as [Hlo Hup].
  assert (Hd : Z.pos (digits2_pos m) ≤ 53) by lia.
  pose proof (Z.pow_le_mono_r 2 (Z.pos (digits2_pos m)) 53 ltac:(lia) Hd).
  unfold canon. split_and!; try lia.
  intros Hlow. by replace (Z.pos (digits2_pos m) - 1) with 52 in Hlo by lia.
Qed.

(** ** Rounding against a number of the format *)

Section round_bounds.
Variables (m0 e0 : Z) (l : location) (x : Q).
Hypothesis Hinv : trunc_inv (shr_record_of_loc m0 l) e0 x.
Hypothesis He0 : e0 ≤ fexp prec emax (Zdigits2 m0 + e0).

(** A result of rounding is not above a number of the format that the
    exact value is not above: it is that number at most, and neither an
    infinity nor a NaN. *)
Lemma binary_round_aux_le M E :
  canon (Z.pos M) E → E ≤ 971 → (x <= F2Q (Z.pos M) E)%Q →
  SFleb (binary_round_aux prec emax false m0 e0 l) (S754_finite false M E) = true ∧
  (binary_round_aux prec emax false m0 e0 l = S754_zero false ∨
   ∃ m e, binary_round_aux prec emax false m0 e0 l = S754_finite false m e).
Proof.
  intros (HM & HE & HMlow) HEmax Hx.
  destruct (binary_round_aux_spec m0 e0 l x Hinv He0)
    as (m1 & e1 & m2 & m3 & e3 & -> & He1 & Hle1 & Hlt1 & Hm1 & Hm1low &
        Hm2 & Hup & Hval & Hm3 & He3 & Hm3low).
  assert (Hres : (F2Q m3 e3 <= F2Q (Z.pos M) E)%Q).
  { rewrite Hval. destruct (decide (m2 = m1)) as [->|Hne]; [lra|].
    assert (Hm2' : m2 = m1 + 1) by lia. specialize (Hup Hm2'). subst m2.
    destruct (decide (e1 ≤ E)) as [Hle|Hgt].
    - rewrite (F2Q_shift_exp _ E e1 Hle) in Hx |- *.
      apply F2Q_le_mono.
      assert (m1 < Z.pos M * 2 ^ (E - e1)); [|lia].
      apply (F2Q_lt_inv _ _ e1). lra.
    - pose proof (F2Q_lt_exp (Z.pos M) E m1 e1 ltac:(lia) ltac:(lia)
                    ltac:(apply Hm1low; lia)). lra. }
  destruct m3 as [|p|p]; [|..|lia].
  - split; [done|by left].
  - destruct (decide (e3 ≤ E)) as [Hle|Hgt].
    + rewrite (proj2 (Z.leb_le e3 (emax - prec))) by (change (emax - prec) with 971; lia).
      split; [|right; by eexists _, _].
      apply SFleb_finite.
      destruct (decide (e3 = E)) as [->|Hne]; [|lia].
      right. split; [done|]. by apply (F2Q_le_inv _ _ E).
    + pose proof (F2Q_lt_exp (Z.pos M) E (Z.pos p) e3 ltac:(lia) ltac:(lia)
                    ltac:(apply Hm3low; lia)). lra.
Qed.

(** A result of rounding is not below a number of the format that the
    exact value is not below. *)
Lemma binary_round_aux_ge M E :
  canon (Z.pos M) E → (F2Q (Z.pos M) E <= x)%Q →
  SFleb (S754_finite false M E) (binary_round_aux prec emax false m0 e0 l) = true.
Proof.
  intros (HM & HE & HMlow) Hx.
  destruct (binary_round_aux_spec m0 e0 l x Hinv He0)
    as (m1 & e1 & m2 & m3 & e3 & -> & He1 & Hle1 & Hlt1 & Hm1 & Hm1low &
        Hm2 & Hup & Hval & Hm3 & He3 & Hm3low).
  assert (Hres : (F2Q (Z.pos M) E <= F2Q m3 e3)%Q).
  { rewrite Hval.
    pose proof (F2Q_le_mono m1 m2 e1 ltac:(lia)) as H12.
    destruct (decide (e1 ≤ E)) as [Hle|Hgt].
    - rewrite (F2Q_shift_exp _ E e1 Hle) in Hx |- *.
      assert (Z.pos M * 2 ^ (E - e1) < m1 + 1).
      { apply (F2Q_lt_inv _ _ e1). lra. }
      pose proof (F2Q_le_mono (Z.pos M * 2 ^ (E - e1)) m1 e1 ltac:(lia)). lra.
    - pose proof (F2Q_lt_exp (Z.pos M) E m1 e1 ltac:(lia) ltac:(lia)
                    ltac:(apply Hm1low; lia)). lra. }
  pose proof (F2Q_pos (Z.pos M) E ltac:(lia)) as Hpos.
  destruct m3 as [|p|p]; [|..|lia].
  - rewrite F2Q_0 in Hres. lra.
  - destruct (e3 <=? emax - prec); [|done].
    apply SFleb_finite.
    destruct (decide (E < e3)) as [|Hge]; [by left|right].
    destruct (decide (E = e3)) as [->|Hne].
    + split; [done|]. by apply (F2Q_le_inv _ _ e3).
    + pose proof (F2Q_lt_exp (Z.pos p) e3 (Z.pos M) E ltac:(lia) ltac:(lia)
                    ltac:(apply HMlow; lia)). lra.
Qed.
End round_bounds.

(** ** The operations on positive numbers *)

Lemma trunc_inv_exact m e x :
  0 ≤ m → (F2Q m e == x)%Q → trunc_inv (shr_record_of_loc m loc_Exact) e x.
Proof.
  intros Hm Hx. unfold trunc_inv. simpl.
  pose proof (F2Q_lt_mono m (m + 1) e ltac:(lia)).
  split_and!; [done|lra|lra|done].
Qed.

(** The product of a number that is at most 1 and a normal number is at
    most that number. *)
Lemma SFmul_le mq eq mh eh :
  canon (Z.pos mh) eh → eh ≤ 971 → 2 ^ 52 ≤ Z.pos mh →
  (F2Q (Z.pos mq) eq <= 1)%Q →
  SFleb (SFmul prec emax (S754_finite false mq eq) (S754_finite false mh eh))
        (S754_finite false mh eh) = true ∧
  (SFmul prec emax (S754_finite false mq eq) (S754_finite false mh eh)
   = S754_zero false ∨
   ∃ m e, SFmul prec emax (S754_finite false mq eq) (S754_finite false mh eh)
          = S754_finite false m e).
Proof.
  intros Hh Heh Hnorm Hq. simpl.
  apply (binary_round_aux_le _ _ _ (F2Q (Z.pos mq) eq * F2Q (Z.pos mh) eh)).
  - apply trunc_inv_exact; [lia|].
    unfold F2Q. rewrite Pos2Z.inj_mul, inject_Z_mult, bpow_add. ring.
  - rewrite fexp_eq.
    pose proof (Zdigits2_lower (Z.pos mq) ltac:(lia)) as Hlo.
    assert (Hdq : 0 < Zdigits2 (Z.pos mq)) by (simpl; lia).
    assert (Zdigits2 (Z.pos mq) - 1 + 52 < Zdigits2 (Z.pos (mq * mh))); [|lia].
    apply Zdigits2_gt; [lia|].
    rewrite Z.pow_add_r by lia. rewrite Pos2Z.inj_mul. nia.
  - done.
  - done.
  - pose proof (F2Q_pos (Z.pos mh) eh ltac:(lia)).
    pose proof (F2Q_pos (Z.pos mq) eq ltac:(lia)). nra.
Qed.

(** The quotient that [SFdiv_core_binary] returns, with its location. *)
Lemma Qdiv_eucl (a1 p1 a2 p2 ps pe q r : Q) :
  ¬ (a2 == 0)%Q → ¬ (p2 == 0)%Q →
  (p1 == ps * pe * p2)%Q → (a1 * ps == a2 * q + r)%Q →
  ((a1 * p1) / (a2 * p2) == (q + r / a2) * pe)%Q.
Proof.
  intros Ha2 Hp2 Hp1 Hdiv. rewrite Hp1.
  transitivity ((a1 * ps) * pe / a2)%Q; [by field|].
  rewrite Hdiv. by field.
Qed.

Lemma new_location_exact nb k : new_location nb k ≠ loc_Exact → k ≠ 0.
Proof.
  intros Hl ->. apply Hl. unfold new_location, new_location_even, new_location_odd.
  by destruct (Z.even nb).
Qed.

Lemma SFdiv_core_binary_spec m1 e1 m2 e2 :
  let '(q, e', l) := SFdiv_core_binary prec emax (Z.pos m1) e1 (Z.pos m2) e2 in
  trunc_inv (shr_record_of_loc q l) e' (F2Q (Z.pos m1) e1 / F2Q (Z.pos m2) e2) ∧
  e' ≤ fexp prec emax (Zdigits2 q + e').
Proof.
  unfold SFdiv_core_binary.
  set (d1 := Zdigits2 (Z.pos m1)). set (d2 := Zdigits2 (Z.pos m2)).
  set (e' := Z.min (fexp prec emax (d1 + e1 - (d2 + e2))) (e1 - e2)).
  set (s := e1 - e2 - e').
  assert (Hs : 0 ≤ s) by (unfold s, e'; lia).
  set (m' := match s with
             | 0 => Z.pos m1 | Z.pos _ => Z.shiftl (Z.pos m1) s | Z.neg _ => 0
             end).
  assert (Hm' : m' = Z.pos m1 * 2 ^ s).
  { unfold m'. destruct s as [|p|p] eqn:Hseq; [lia| |lia].
    by rewrite Z.shiftl_mul_pow2. }
  clearbody m'.
  pose proof (Z_div_mod m' (Z.pos m2) ltac:(lia)) as Hdm.
  destruct (Z.div_eucl m' (Z.pos m2)) as [q r]. destruct Hdm as [Hdm Hr].
  assert (Hpow : 0 < 2 ^ s) by (apply Z.pow_pos_nonneg; lia).
  assert (Hq : 0 ≤ q) by nia.
  set (x := (F2Q (Z.pos m1) e1 / F2Q (Z.pos m2) e2)%Q).
  assert (Hx : (x == (inject_Z q + inject_Z r / inject_Z (Z.pos m2)) * bpow e')%Q).
  { unfold x, F2Q. apply (Qdiv_eucl _ _ _ _ (bpow s)).
    - change 0%Q with (inject_Z 0). rewrite inject_Z_injective. lia.
    - pose proof (bpow_pos e2). lra.
    - rewrite <- !bpow_add. by replace (s + e' + e2) with e1 by (unfold s; lia).
    - rewrite bpow_Z by done. rewrite <- !inject_Z_mult, <- inject_Z_plus.
      by rewrite <- Hm', Hdm. }
  clearbody x.
  pose proof (bpow_pos e') as HB.
  assert (Hm2 : (0 < inject_Z (Z.pos m2))%Q).
  { change 0%Q with (inject_Z 0). rewrite <- Zlt_Qlt. lia. }
  assert (Hr0 : (0 <= inject_Z r / inject_Z (Z.pos m2))%Q).
  { apply Qle_shift_div_l; [done|]. rewrite Qmult_0_l.
    change 0%Q with (inject_Z 0). rewrite <- Zle_Qle. lia. }
  assert (Hr1 : (inject_Z r / inject_Z (Z.pos m2) < 1)%Q).
  { apply Qlt_shift_div_r; [done|]. rewrite Qmult_1_l. rewrite <- Zlt_Qlt. lia. }
  assert (Hrpos : r ≠ 0 → (0 < inject_Z r / inject_Z (Z.pos m2))%Q).
  { intros Hne. apply Qlt_shift_div_l; [done|]. rewrite Qmult_0_l.
    change 0%Q with (inject_Z 0). rewrite <- Zlt_Qlt. lia. }
  split.
  - unfold trunc_inv. rewrite shr_m_of_loc. unfold F2Q. rewrite inject_Z_plus.
    change (inject_Z 1) with 1%Q.
    split_and!; [done|nra|nra|].
    intros Hbits.
    assert (Hl : new_location (Z.pos m2) r ≠ loc_Exact).
    { intros Heq. rewrite Heq in Hbits. done. }
    specialize (Hrpos (new_location_exact _ _ Hl)). nra.
  - rewrite !fexp_eq. unfold e'. rewrite fexp_eq.
    assert (d1 + s - d2 ≤ Zdigits2 q); [|unfold s, e' in *; rewrite ?fexp_eq in *; lia].
    destruct (decide (d1 + s - d2 ≤ 0)) as [|Hk].
    { pose proof (Zdigits2_nonneg q). lia. }
    assert (d1 + s - d2 - 1 < Zdigits2 q); [|lia].
    apply Zdigits2_gt; [lia|].
    pose proof (Zdigits2_lower (Z.pos m1) ltac:(lia)) as Hlo1. fold d1 in Hlo1.
    pose proof (Zdigits2_upper (Z.pos m2) ltac:(lia)) as Hup2. fold d2 in Hup2.
    assert (Hd1 : 0 < d1) by (unfold d1; simpl; lia).
    assert (Hd2 : 0 < d2) by (unfold d2; simpl; lia).
    assert (Hsplit : 2 ^ (d1 - 1) * 2 ^ s = 2 ^ (d1 + s - d2 - 1) * 2 ^ d2).
    { rewrite <- !Z.pow_add_r by lia. f_equal. lia. }
    assert (0 < 2 ^ (d1 + s - d2 - 1)) by (apply Z.pow_pos_nonneg; lia).
    nia.
Qed.

(** The quotient of a number by one that is not smaller is at most 1. *)
Lemma SFdiv_le_one mb eb ms es :
  (F2Q (Z.pos mb) eb <= F2Q (Z.pos ms) es)%Q →
  SFleb (SFdiv prec emax (S754_finite false mb eb) (S754_finite false ms es))
        (S754_finite false (2 ^ 52) (-52)) = true ∧
  (SFdiv prec emax (S754_finite false mb eb) (S754_finite false ms es)
   = S754_zero false ∨
   ∃ m e, SFdiv prec emax (S754_finite false mb eb) (S754_finite false ms es)
          = S754_finite false m e).
Proof.
  intros Hle. unfold SFdiv.
  pose proof (SFdiv_core_binary_spec mb eb ms es) as Hcore.
  destruct (SFdiv_core_binary prec emax (Z.pos mb) eb (Z.pos ms) es)
    as [[mz ez] lz].
  destruct Hcore as [Hinv He]. simpl xorb.
  apply (binary_round_aux_le _ _ _ _ Hinv He).
  - unfold canon. lia.
  - lia.
  - pose proof (F2Q_pos (Z.pos ms) es ltac:(lia)) as Hs.
    pose proof (F2Q_pos (Z.pos mb) eb ltac:(lia)) as Hb.
    change (Z.pos (2 ^ 52)) with (2 ^ 52).
    rewrite (F2Q_pow 52 (-52)) by lia. change (bpow (52 + -52)) with 1%Q.
    apply Qle_shift_div_r; [done|]. lra.
Qed.

Lemma Pos_iter_xO m p : Z.pos (Pos.iter xO m p) = Z.pos m * 2 ^ Z.pos p.
Proof.
  rewrite (Pos.iter_swap_gen _ _ Z.pos xO (Z.mul 2)) by done.
  rewrite <- Z.shiftl_mul_pow2 by lia. done.
Qed.

Lemma shl_align_spec mx ex ex' :
  Z.pos (shl_align mx ex ex').1 = Z.pos mx * 2 ^ (ex - Z.min ex ex') ∧
  (shl_align mx ex ex').2 = Z.min ex ex'.
Proof.
  unfold shl_align. destruct (ex' - ex) as [|p|p] eqn:Hd; simpl.
  - replace (ex - Z.min ex ex') with 0 by lia. lia.
  - replace (ex - Z.min ex ex') with 0 by lia. lia.
  - rewrite Pos_iter_xO. replace (ex - Z.min ex ex') with (Z.pos p) by lia. lia.
Qed.

(** The sum of two positive numbers is not below the second. *)
Lemma SFadd_ge ma ea mb eb :
  canon (Z.pos mb) eb →
  SFleb (S754_finite false mb eb)
        (SFadd prec emax (S754_finite false ma ea) (S754_finite false mb eb)) = true.
Proof.
  intros Hb. unfold SFadd. simpl cond_Zopp.
  set (ez := Z.min ea eb).
  destruct (shl_align_spec ma ea ez) as [Ha' _].
  destruct (shl_align_spec mb eb ez) as [Hb' _].
  replace (Z.min ea ez) with ez in Ha' by lia.
  replace (Z.min eb ez) with ez in Hb' by lia.
  set (pa := (shl_align ma ea ez).1) in *. set (pb := (shl_align mb eb ez).1) in *.
  change (Z.pos pa + Z.pos pb) with (Z.pos (pa + pb)).
  unfold binary_normalize, binary_round.
  destruct (shl_align_spec (pa + pb) ez
              (fexp prec emax (Z.pos (digits2_pos (pa + pb)) + ez))) as [Hmz Hez].
  destruct (shl_align (pa + pb) ez
              (fexp prec emax (Z.pos (digits2_pos (pa + pb)) + ez))) as [mz ez'].
  simpl in Hmz, Hez.
  set (f := fexp prec emax (Z.pos (digits2_pos (pa + pb)) + ez)) in *.
  assert (Hval : (F2Q (Z.pos mz) ez' == F2Q (Z.pos ma) ea + F2Q (Z.pos mb) eb)%Q).
  { rewrite Hmz, Hez. rewrite F2Q_shift by lia.
    replace (Z.min ez f + (ez - Z.min ez f)) with ez by lia.
    rewrite Pos2Z.inj_add, F2Q_add, Ha', Hb'. rewrite !F2Q_shift by lia.
    replace (ez + (ea - ez)) with ea by lia.
    by replace (ez + (eb - ez)) with eb by lia. }
  apply (binary_round_aux_ge _ _ _ (F2Q (Z.pos ma) ea + F2Q (Z.pos mb) eb)).
  - apply trunc_inv_exact; [lia|done].
  - rewrite Hmz, Zdigits2_shift by lia. rewrite Hez.
    change (Zdigits2 (Z.pos (pa + pb))) with (Z.pos (digits2_pos (pa + pb))).
    replace (Z.pos (digits2_pos (pa + pb)) + (ez - Z.min ez f) + Z.min ez f)
      with (Z.pos (digits2_pos (pa + pb)) + ez) by lia.
    fold f. lia.
  - done.
  - pose proof (F2Q_pos (Z.pos ma) ea ltac:(lia)). lra.
Qed.

(** ** The overhead ratio in binary64 *)

(** On numbers of the format the comparison of the representations is the
    comparison of the values. *)
Lemma SFleb_value m e M E :
  canon (Z.pos m) e → canon (Z.pos M) E →
  SFleb (S754_finite false m e) (S754_finite false M E) = true →
  (F2Q (Z.pos m) e <= F2Q (Z.pos M) E)%Q.
Proof.
  intros (Hm & He & _) (HM & HE & HMlow) [Hlt|[-> Hle]]%SFleb_finite.
  - pose proof (F2Q_lt_exp (Z.pos m) e (Z.pos M) E ltac:(lia) Hlt
                  ltac:(apply HMlow; lia)). lra.
  - by apply F2Q_le_mono.
Qed.

Lemma Prim2SF_canon (f : float) m e :
  Prim2SF f = S754_finite false m e → canon (Z.pos m) e ∧ e ≤ 971.
Proof.
  intros Hf. pose proof (Prim2SF_valid f) as Hv. rewrite Hf in Hv.
  by apply bounded_canon.
Qed.

(** The sum of two non-negative numbers, the second finite and one of them
    positive: it is positive, and not below the second. *)
Lemma float_add_ge (a b : float) :
  PrimFloat.leb 0 a = true → PrimFloat.leb 0 b = true →
  PrimFloat.ltb b infinity = true →
  PrimFloat.ltb 0 a = true ∨ PrimFloat.ltb 0 b = true →
  (∃ sb, Prim2SF b = S754_zero sb ∧
         (Prim2SF (a + b) = S754_infinity false ∨
          ∃ m e, Prim2SF (a + b) = S754_finite false m e)) ∨
  (∃ mb eb, Prim2SF b = S754_finite false mb eb ∧
            (Prim2SF (a + b) = S754_infinity false ∨
             ∃ ms es, Prim2SF (a + b) = S754_finite false ms es ∧
                      SFleb (S754_finite false mb eb) (S754_finite false ms es)
                      = true)).
Proof.
  rewrite !leb_spec, !ltb_spec, add_spec.
  change (Prim2SF 0) with (S754_zero false).
  change (Prim2SF infinity) with (S754_infinity false).
  intros Ha Hb Hfin Hpos.
  destruct (Prim2SF b) as [sb|sb| |sb mb eb] eqn:HB.
  - left. exists sb. split; [done|].
    destruct (Prim2SF a) as [sa|sa| |sa ma ea]; destruct Hpos as [Hp|Hp]; try done.
    + destruct sa; [done|]. by left.
    + destruct sa; [done|]. right. by eexists _, _.
  - by destruct sb.
  - done.
  - destruct sb; [done|]. right. exists mb, eb. split; [done|].
    destruct (Prim2SF_canon b mb eb HB) as [Hcb _].
    destruct (Prim2SF a) as [sa|sa| |sa ma ea].
    + right. exists mb, eb. split; [done|]. apply SFleb_finite. lia.
    + destruct sa; [done|]. by left.
    + done.
    + destruct sa; [done|].
      pose proof (SFadd_ge ma ea mb eb Hcb) as Hge.
      unfold SF64add.
      destruct (SFadd prec emax (S754_finite false ma ea) (S754_finite false mb eb))
        as [s|s| |s ms es]; try done.
      * destruct s; [done|]. by left.
      * destruct s; [done|]. right. by exists ms, es.
Qed.

(** The quotient of [b] by the sum is zero or a positive number that is at
    most 1. *)
Lemma float_div_le_one (a b : float) :
  PrimFloat.leb 0 a = true → PrimFloat.leb 0 b = true →
  PrimFloat.ltb b infinity = true →
  PrimFloat.ltb 0 a = true ∨ PrimFloat.ltb 0 b = true →
  (∃ s, Prim2SF (b / (a + b)) = S754_zero s) ∨
  (∃ mq eq, Prim2SF (b / (a + b)) = S754_finite false mq eq ∧
            (F2Q (Z.pos mq) eq <= 1)%Q).
Proof.
  intros Ha Hb Hfin Hpos.
  assert (Hone : ∀ mq eq, Prim2SF (b / (a + b)) = S754_finite false mq eq →
            SFleb (Prim2SF (b / (a + b))) (S754_finite false (2 ^ 52) (-52)) = true →
            (F2Q (Z.pos mq) eq <= 1)%Q).
  { intros mq eq Hq Hle. rewrite Hq in Hle.
    destruct (Prim2SF_canon _ mq eq Hq) as [Hcq _].
    apply SFleb_value in Hle; [|done|unfold canon; lia].
    change (Z.pos (2 ^ 52)) with (2 ^ 52) in Hle.
    rewrite (F2Q_pow 52 (-52)) in Hle by lia. done. }
  rewrite div_spec in *.
  destruct (float_add_ge a b Ha Hb Hfin Hpos)
    as [(sb & -> & [-> | (m & e & ->)]) |
        (mb & eb & HB & [HS | (ms & es & HS & Hle)])].
  - left. by eexists.
  - left. by eexists.
  - rewrite HB, HS. left. by eexists.
  - rewrite HB, HS in *.
    destruct (Prim2SF_canon b mb eb HB) as [Hcb _].
    destruct (Prim2SF_canon (a + b) ms es HS) as [Hcs _].
    pose proof (SFleb_value _ _ _ _ Hcb Hcs Hle) as Hval.
    destruct (SFdiv_le_one mb eb ms es Hval) as [Hq [Hz | (m & e & Hf)]].
    + left. unfold SF64div. rewrite Hz. by eexists.
    + right. unfold SF64div in *. exists m, e. split; [done|].
      apply Hone; [done|]. by rewrite Hf in Hq |- *.
Qed.

(** In binary64 the ratio of two non-negative averages, the communication
    time finite and not both zero, lies between 0 and 100. *)
Lemma float_ratio_range (a b : float) :
  PrimFloat.leb 0 a = true → PrimFloat.leb 0 b = true →
  PrimFloat.ltb b infinity = true →
  PrimFloat.ltb 0 a = true ∨ PrimFloat.ltb 0 b = true →
  PrimFloat.leb 0 (b / (a + b) * 100) = true ∧
  PrimFloat.leb (b / (a + b) * 100) 100 = true.
Proof.
  intros Ha Hb Hfin Hpos.
  rewrite !leb_spec, mul_spec.
  change (Prim2SF 0) with (S754_zero false).
  change (Prim2SF 100) with (S754_finite false 7036874417766400 (-46)).
  destruct (float_div_le_one a b Ha Hb Hfin Hpos)
    as [(s & ->) | (mq & eq & -> & Hq)].
  - done.
  - destruct (SFmul_le mq eq 7036874417766400 (-46)) as [Hle [Hz | (m & e & Hf)]];
      [unfold canon; lia|lia|lia|done| |].
    + unfold SF64mul. by rewrite Hz.
    + unfold SF64mul. rewrite Hf in Hle |- *. done.
Qed.

(** In exact arithmetic the ratio of two non-negative averages that are not
    both zero lies between 0 and 100. *)
Lemma comm_ratio_Q_range (avg_comp avg_comm : Q) :
  (0 <= avg_comp)%Q → (0 <= avg_comm)%Q → (0 < avg_comp + avg_comm)%Q →
  (0 <= comm_ratio avg_comp avg_comm)%Q ∧ (comm_ratio avg_comp avg_comm <= 100)%Q.
Proof.
  intros Hc Hm Hs. unfold comm_ratio. simpl.
  assert (Hq0 : (0 <= avg_comm / (avg_comp + avg_comm))%Q).
  { apply Qle_shift_div_l; [done|]. by rewrite Qmult_0_l. }
  assert (Hq1 : (avg_comm / (avg_comp + avg_comm) <= 1)%Q).
  { apply Qle_shift_div_r; [done|]. rewrite Qmult_1_l.
    rewrite <- (Qplus_0_l avg_comm) at 1. by apply Qplus_le_l. }
  split.
  - apply Qmult_le_0_compat; [done|]. done.
  - apply Qle_trans with (1 * inject_Z 100)%Q.
    + apply Qmult_le_compat_r; [done|]. done.
    + unfold Qle. simpl. lia.
Qed.

(** C7, as stated, fails on its range.  [main] reads the clock four times:
    in the constructor of the monitor, for [mult_start], in [stop()] and for
    [mult_comm].  With the readings 0, 2^-19 (about two microseconds later),
    8 and 8 + 2^-20 (about one microsecond later) the communication time that
    [main] passes is -2^-20, and the overhead that a single-rank run writes
    is negative. *)
Lemma comm_overhead_range_counterexample :
  main_mult_times 0%float 0x1p-19%float 8%float (8 + 0x1p-20)%float
  = (8%float, (-0x1p-20)%float) ∧
  files (run_analyze 1 [8%float] [(-0x1p-20)%float] report_path fs_empty)
    !! report_path
  = Some (bottleneck_record 1 8%float (-0x1p-20)%float
            (comm_ratio 8%float (-0x1p-20)%float)) ∧
  PrimFloat.ltb (comm_ratio 8%float (-0x1p-20)%float) 0%float = true.
Proof. split_and!; vm_compute; reflexivity. Qed.

(** The conditions of the range are needed: with both averages zero, or
    with an infinite communication time, the overhead is a NaN, and with a
    negative computation time it can exceed 100. *)
Example comm_ratio_out_of_range :
  PrimFloat.leb 0 (comm_ratio 0%float 0%float) = false ∧
  PrimFloat.leb (comm_ratio 1%float infinity) 100 = false ∧
  PrimFloat.leb (comm_ratio (-1)%float 2%float) 100 = false.
Proof. split_and!; vm_compute; reflexivity. Qed.

(** C7, amended: the overhead that rank 0 appends to the report equals
    [avg_comm / (avg_comp + avg_comm) * 100], where [avg_comp] and [avg_comm]
    are the sums, reduced to rank 0, of the computation and communication
    times of the ranks, divided by the process count.  The double that is
    written lies between 0 and 100 when the two averages are non-negative,
    the average communication time is finite and the two are not both
    zero. *)
Theorem comm_overhead_metric (size : Z) (comp_times comm_times : list float)
    (filename : string) (fs : filesys float) :
  1 ≤ size → filename ∉ denied fs →
  files (run_analyze size comp_times comm_times filename fs) !! filename
  = Some (default [] (files fs !! filename) ++
          bottleneck_record size (average size comp_times) (average size comm_times)
            (d_mul (d_div (average size comm_times)
                          (d_add (average size comp_times) (average size comm_times)))
                   (d_of_int 100))) ∧
  (PrimFloat.leb 0 (average size comp_times) = true →
   PrimFloat.leb 0 (average size comm_times) = true →
   PrimFloat.ltb (average size comm_times) infinity = true →
   PrimFloat.ltb 0 (average size comp_times) = true ∨
   PrimFloat.ltb 0 (average size comm_times) = true →
   PrimFloat.leb 0 (d_mul (d_div (average size comm_times)
                                  (d_add (average size comp_times)
                                         (average size comm_times)))
                          (d_of_int 100)) = true ∧
   PrimFloat.leb (d_mul (d_div (average size comm_times)
                                (d_add (average size comp_times)
                                       (average size comm_times)))
                        (d_of_int 100)) 100 = true).
Proof.
  intros Hsize Hok. split.
  - rewrite run_analyze_spec by done. by rewrite append_file_lookup.
  - apply float_ratio_range.
Qed.

Lemma comm_overhead_metric_witness :
  files (run_analyze 2 [1%float; 3%float] [1%float; 1%float] report_path fs_empty)
    !! report_path
  = Some (default [] (files (fs_empty (D:=float)) !! report_path) ++
          bottleneck_record 2 (average 2 [1%float; 3%float])
            (average 2 [1%float; 1%float])
            (d_mul (d_div (average 2 [1%float; 1%float])
                          (d_add (average 2 [1%float; 3%float])
                                 (average 2 [1%float; 1%float])))
                   (d_of_int 100))) ∧
  PrimFloat.leb 0 (d_mul (d_div (average 2 [1%float; 1%float])
                                 (d_add (average 2 [1%float; 3%float])
                                        (average 2 [1%float; 1%float])))
                         (d_of_int 100)) = true ∧
  PrimFloat.leb (d_mul (d_div (average 2 [1%float; 1%float])
                               (d_add (average 2 [1%float; 3%float])
                                      (average 2 [1%float; 1%float])))
                       (d_of_int 100)) 100 = true.
Proof.
  destruct (comm_overhead_metric 2 [1%float; 3%float] [1%float; 1%float]
              report_path fs_empty) as [Hfile Hrange].
  - lia.
  - apply not_elem_of_empty.
  - split; [exact Hfile|]. apply Hrange.
    + vm_compute. reflexivity.
    + vm_compute. reflexivity.
    + vm_compute. reflexivity.
    + left. vm_compute. reflexivity.
Defined.

(** C8, as stated, fails: the block written for two ranks carries four
    numbers (process count, two averages, overhead), not five, and none of
    its texts names a load imbalance. *)
Lemma bottleneck_record_fields_counterexample :
  ∃ block : list (out_item float),
    files (run_analyze 2 [1%float; 3%float] [1%float; 1%float] report_path fs_empty)
      !! report_path = Some block ∧
    numeric_fields block
    = [OInt 2; ODbl 2%float; ODbl 1%float; ODbl (comm_ratio 2%float 1%float)] ∧
    labels block
    = ["Processors: "; "Avg Computation Time: "; " seconds";
       "Avg Communication Time: "; " seconds"; "Communication Overhead: ";
       "%"; "---"] ∧
    ¬ (5 ≤ length (numeric_fields block))%nat.
Proof.
  eexists. split; [vm_compute; reflexivity|].
  split_and!; [vm_compute; reflexivity..|].
  vm_compute. lia.
Qed.

(** C8, amended: when the report can be opened, a run of [size ≥ 1] ranks
    appends exactly one block to it, written by rank 0; the block carries the
    process count, the average computation time, the average communication
    time and the communication overhead, then a separator line, and nothing
    else; no other file changes. *)
Theorem bottleneck_record_written {D : Type} `{Scalar D} (size : Z)
    (comp_times comm_times : list D) (filename : string) (fs : filesys D) :
  1 ≤ size → filename ∉ denied fs →
  ∃ block,
    files (run_analyze size comp_times comm_times filename fs) !! filename
    = Some (default [] (files fs !! filename) ++ block) ∧
    block = bottleneck_record size (average size comp_times)
              (average size comm_times)
              (comm_ratio (average size comp_times) (average size comm_times)) ∧
    numeric_fields block
    = [OInt size; ODbl (average size comp_times); ODbl (average size comm_times);
       ODbl (comm_ratio (average size comp_times) (average size comm_times))] ∧
    labels block
    = ["Processors: "; "Avg Computation Time: "; " seconds";
       "Avg Communication Time: "; " seconds"; "Communication Overhead: ";
       "%"; "---"] ∧
    (∀ path, path ≠ filename →
       files (run_analyze size comp_times comm_times filename fs) !! path
       = files fs !! path) ∧
    (∀ rank, rank ≠ 0 →
       analyze_communication rank size comp_times comm_times filename fs = fs).
Proof.
  intros Hsize Hok. eexists. split_and!.
  - rewrite run_analyze_spec by done. by rewrite append_file_lookup.
  - done.
  - done.
  - done.
  - intros path Hne. rewrite run_analyze_spec by done.
    by apply append_file_lookup_ne.
  - intros rank Hrank. unfold analyze_communication.
    by rewrite decide_False.
Qed.

Lemma bottleneck_record_written_witness :
  ∃ block,
    files (run_analyze 2 [1%float; 3%float] [1%float; 1%float] report_path fs_empty)
      !! report_path
    = Some (default [] (files (fs_empty (D:=float)) !! report_path) ++ block) ∧
    block = bottleneck_record 2 (average 2 [1%float; 3%float])
              (average 2 [1%float; 1%float])
              (comm_ratio (average 2 [1%float; 3%float]) (average 2 [1%float; 1%float])) ∧
    numeric_fields block
    = [OInt 2; ODbl (average 2 [1%float; 3%float]); ODbl (average 2 [1%float; 1%float]);
       ODbl (comm_ratio (average 2 [1%float; 3%float]) (average 2 [1%float; 1%float]))] ∧
    labels block
    = ["Processors: "; "Avg Computation Time: "; " seconds";
       "Avg Communication Time: "; " seconds"; "Communication Overhead: ";
       "%"; "---"] ∧
    (∀ path, path ≠ report_path →
       files (run_analyze 2 [1%float; 3%float] [1%float; 1%float] report_path fs_empty)
         !! path
       = files (fs_empty (D:=float)) !! path) ∧
    (∀ rank, rank ≠ 0 →
       analyze_communication rank 2 [1%float; 3%float] [1%float; 1%float]
         report_path fs_empty = fs_empty).
Proof.
  apply (bottleneck_record_written 2 [1%float; 3%float] [1%float; 1%float]
           report_path fs_empty); [lia | apply not_elem_of_empty].
Defined.

(** ** Matrix inversion: pivot selection *)

Lemma Q_lt_spec (a b : Q) : Q_lt a b = true ↔ (a < b)%Q.
Proof.
  unfold Q_lt. rewrite negb_true_iff. split.
  - intros Hle. apply Qnot_le_lt. intros Hba.
    apply Qle_bool_iff in Hba. congruence.
  - intros Hlt. destruct (Qle_bool b a) eqn:Hba; [|done].
    apply Qle_bool_iff in Hba. by apply Qlt_not_le in Hlt.
Qed.

Lemma Q_gt_trans (x y z : Q) :
  d_gt x y = true → d_gt y z = true → d_gt x z = true.
Proof.
  unfold d_gt. simpl. rewrite !Q_lt_spec. intros Hyx Hzy.
  by apply Qlt_trans with y.
Qed.

Lemma Q_gt_irrefl (x : Q) : d_gt x x = false.
Proof.
  unfold d_gt. simpl. destruct (Q_lt x x) eqn:Hlt; [|done].
  apply Q_lt_spec in Hlt. by apply Qlt_irrefl in Hlt.
Qed.

(** The comparison of IEEE 754 binary64 values is transitive and
    irreflexive, NaN included. *)
Lemma SFltb_trans (x y z : spec_float) :
  SFltb x y = true → SFltb y z = true → SFltb x z = true.
Proof.
  unfold SFltb, SFcompare.
  destruct x as [sx|sx| |sx mx ex], y as [sy|sy| |sy my ey],
           z as [sz|sz| |sz mz ez];
    try destruct sx; try destruct sy; try destruct sz;
    try discriminate; try reflexivity; intros Hxy Hyz.
  all: destruct (Z.compare_spec ex ey), (Z.compare_spec ey ez),
         (Z.compare_spec ex ez);
    try discriminate; try reflexivity; try lia.
  all: fold (Pos.compare mx my) in *; fold (Pos.compare my mz) in *;
    fold (Pos.compare mx mz) in *.
  all: destruct (Pos.compare_spec mx my), (Pos.compare_spec my mz),
         (Pos.compare_spec mx mz);
    simpl in *; try discriminate; try reflexivity; try lia.
Qed.

Lemma SFltb_irrefl (x : spec_float) : SFltb x x = false.
Proof.
  unfold SFltb, SFcompare.
  destruct x as [s|s| |s m e]; try destruct s; try reflexivity.
  all: rewrite Z.compare_refl; fold (Pos.compare m m);
    rewrite Pos.compare_refl; reflexivity.
Qed.

Lemma float_gt_trans (x y z : float) :
  d_gt x y = true → d_gt y z = true → d_gt x z = true.
Proof.
  unfold d_gt. simpl. rewrite !ltb_spec. intros Hyx Hzy.
  by apply SFltb_trans with (FloatOps.Prim2SF y).
Qed.

Lemma float_gt_irrefl (x : float) : d_gt x x = false.
Proof. unfold d_gt. simpl. rewrite ltb_spec. apply SFltb_irrefl. Qed.

Section pivot.
Context `{Scalar D}.
Implicit Types (h : gmap loc (list D)).

(** For any scalar type whose [>] is transitive and irreflexive, the pivot
    search of column [col] returns a row [p] of [[col, n)] together with
    [|work[p][col]|]; no row of [[col, n)] has a larger absolute value in
    column [col]; and every row of [[col, n)] with the same absolute value
    has an index at least [p]. *)
Lemma find_pivot_first_max h (work : loc) (n col : Z) :
  (∀ x y z : D, d_gt x y = true → d_gt y z = true → d_gt x z = true) →
  (∀ x : D, d_gt x x = false) →
  0 ≤ col < n →
  ∃ p, find_pivot h work n col = (p, d_fabs (load h work (p * n + col))) ∧
       col ≤ p < n ∧
       (∀ i, col ≤ i < n →
             d_gt (d_fabs (load h work (i * n + col)))
                  (d_fabs (load h work (p * n + col))) = false) ∧
       (∀ i, col ≤ i < n →
             d_fabs (load h work (i * n + col)) = d_fabs (load h work (p * n + col)) →
             p ≤ i).
Proof.
  intros Htrans Hirr Hcol.
  set (a := λ i, d_fabs (load h work (i * n + col))).
  pose (P := λ (k : Z) (acc : Z * D),
    col ≤ acc.1 < k ∧ acc.2 = a acc.1 ∧
    (∀ i, col ≤ i < k → d_gt (a i) (a acc.1) = false) ∧
    (∀ i, col ≤ i < acc.1 → a i ≠ a acc.1)).
  assert (HP : P n (find_pivot h work n col)).
  { apply (for_range_inv P); [lia| |].
    - split_and!; simpl; try lia; try done.
      intros i Hi. assert (i = col) as -> by lia. apply Hirr.
    - intros k [p m] Hk (Hp & Hm & Hmax & Hfirst). simpl in *. subst m.
      fold (a k). destruct (d_gt (a k) (a p)) eqn:Hgt;
        split_and!; simpl; try lia; try done.
      + intros i Hi. destruct (decide (i = k)) as [->|Hne]; [apply Hirr|].
        destruct (d_gt (a i) (a k)) eqn:Hik; [|done].
        rewrite <- (Hmax i ltac:(lia)). symmetry. by apply Htrans with (a k).
      + intros i Hi Heq. rewrite <- Heq in Hgt.
        by rewrite (Hmax i ltac:(lia)) in Hgt.
      + intros i Hi. destruct (decide (i = k)) as [->|Hne]; [done|].
        apply Hmax. lia. }
  destruct (find_pivot h work n col) as [p m].
  destruct HP as (Hp & Hm & Hmax & Hfirst). simpl in *. subst m.
  exists p. split_and!; [done|lia|lia|done|].
  intros i Hi Heq. destruct (decide (p ≤ i)) as [|Hlt]; [done|].
  exfalso. apply (Hfirst i); [lia|done].
Qed.
End pivot.

(** C6: on IEEE 754 doubles, for every pivot column [col] the pivot search
    returns a row [p] of [[col, n)] such that no row of [[col, n)] has a
    larger [|work[i][col]|], and every row of [[col, n)] whose absolute value
    in column [col] equals that of row [p] has an index at least [p]: among
    equal maxima the first one met in the scan from row [col] downwards is
    chosen. *)
Theorem find_pivot_spec (h : gmap loc (list float)) (work : loc) (n col : Z) :
  0 ≤ col < n →
  ∃ p, find_pivot h work n col = (p, PrimFloat.abs (load h work (p * n + col))) ∧
       col ≤ p < n ∧
       (∀ i, col ≤ i < n →
             PrimFloat.ltb (PrimFloat.abs (load h work (p * n + col)))
                           (PrimFloat.abs (load h work (i * n + col))) = false) ∧
       (∀ i, col ≤ i < n →
             PrimFloat.abs (load h work (i * n + col))
             = PrimFloat.abs (load h work (p * n + col)) →
             p ≤ i).
Proof.
  intros Hcol.
  apply (find_pivot_first_max h work n col float_gt_trans float_gt_irrefl Hcol).
Qed.

Lemma find_pivot_spec_witness :
  ∃ p, find_pivot pivot_mem 3%positive 3 0
       = (p, PrimFloat.abs (load pivot_mem 3%positive (p * 3 + 0))) ∧
       0 ≤ p < 3 ∧
       (∀ i, 0 ≤ i < 3 →
             PrimFloat.ltb (PrimFloat.abs (load pivot_mem 3%positive (p * 3 + 0)))
                           (PrimFloat.abs (load pivot_mem 3%positive (i * 3 + 0)))
             = false) ∧
       (∀ i, 0 ≤ i < 3 →
             PrimFloat.abs (load pivot_mem 3%positive (i * 3 + 0))
             = PrimFloat.abs (load pivot_mem 3%positive (p * 3 + 0)) →
             p ≤ i).
Proof. apply (find_pivot_spec pivot_mem 3%positive 3 0). lia. Defined.

(** Rows 1 and 2 tie for the maximum; the scan keeps row 1. *)
Example find_pivot_tie : find_pivot pivot_mem 3%positive 3 0 = (1, 2%float).
Proof. vm_compute. reflexivity. Qed.

(** ** Frames: which buffers an operation can change *)

Lemma for_range_frame {D : Type} (q : loc) lo hi
    (body : Z → gmap loc (list D) → gmap loc (list D)) h :
  (∀ i acc, body i acc !! q = acc !! q) →
  for_range lo hi body h !! q = h !! q.
Proof.
  intros Hbody. destruct (decide (lo ≤ hi)) as [Hle|Hgt].
  - apply (for_range_inv (λ _ acc, acc !! q = h !! q)); [done..|].
    intros i acc _ <-. apply Hbody.
  - by rewrite for_range_empty by lia.
Qed.

Section frames.
Context `{Scalar D}.
Implicit Types (h : gmap loc (list D)) (p q : loc) (s : rank_state D).

Lemma write_range_frame vs : ∀ h p q off,
  p ≠ q → write_range h p off vs !! q = h !! q.
Proof.
  induction vs as [|v vs IH]; intros h p q off Hne; simpl; [done|].
  rewrite IH by done. by apply store_lookup_ne.
Qed.

Lemma multiply_rows_frame A B C n lo hi h q :
  q ≠ C → multiply_rows A B C n lo hi h !! q = h !! q.
Proof.
  intros Hne. unfold multiply_rows.
  apply for_range_frame. intros i acc.
  apply for_range_frame. intros j acc'. by apply store_lookup_ne.
Qed.

Lemma matrix_multiply_mpi_frame A B C rank size n recv h q :
  q ≠ C → (matrix_multiply_mpi A B C rank size n recv h).1 !! q = h !! q.
Proof.
  intros Hne. unfold matrix_multiply_mpi. case_decide; simpl.
  - rewrite for_range_frame; [by apply multiply_rows_frame|].
    intros p acc. by apply write_range_frame.
  - by apply multiply_rows_frame.
Qed.

Lemma initialize_identity_frame matrix size h q :
  q ≠ matrix → initialize_identity matrix size h !! q = h !! q.
Proof.
  intros Hne. unfold initialize_identity.
  apply for_range_frame. intros i acc.
  apply for_range_frame. intros j acc'. by apply store_lookup_ne.
Qed.

Lemma swap_cells_frame h p i j q : q ≠ p → swap_cells h p i j !! q = h !! q.
Proof. intros Hne. unfold swap_cells. by rewrite !store_lookup_ne. Qed.

Lemma swap_rows_frame work A_inv n col pivot_row h q :
  q ≠ work → q ≠ A_inv → swap_rows work A_inv n col pivot_row h !! q = h !! q.
Proof.
  intros Hw Ha. unfold swap_rows. apply for_range_frame. intros j acc.
  by rewrite !swap_cells_frame.
Qed.

Lemma pivot_swap_frame A_inv work n col h q :
  q ≠ work → q ≠ A_inv → pivot_swap A_inv work n col h !! q = h !! q.
Proof.
  intros Hw Ha. unfold pivot_swap. case_decide; [|done].
  by apply swap_rows_frame.
Qed.

Lemma scale_row_frame work A_inv n col pivot h q :
  q ≠ work → q ≠ A_inv → scale_row work A_inv n col pivot h !! q = h !! q.
Proof.
  intros Hw Ha. unfold scale_row. apply for_range_frame. intros j acc.
  by rewrite !store_lookup_ne.
Qed.

Lemma eliminate_rows_frame work A_inv n col lo hi h q :
  q ≠ work → q ≠ A_inv → eliminate_rows work A_inv n col lo hi h !! q = h !! q.
Proof.
  intros Hw Ha. unfold eliminate_rows. apply for_range_frame. intros i acc.
  unfold eliminate_row. case_decide; [|done].
  apply for_range_frame. intros j acc'. by rewrite !store_lookup_ne.
Qed.

(** The body of the column loop keeps [work] and changes no buffer other
    than [work] and [A_inv]. *)
Lemma matrix_inverse_mpi_column_frame A_inv rank size n col s :
  work (matrix_inverse_mpi_column A_inv rank size n col s) = work s ∧
  ∀ q, q ≠ work s → q ≠ A_inv →
    mem (matrix_inverse_mpi_column A_inv rank size n col s) !! q = mem s !! q.
Proof.
  unfold matrix_inverse_mpi_column.
  destruct (d_lt _ d_eps); simpl; (split; [done|]); intros q Hw Ha.
  - rewrite lookup_delete_ne by done. by apply pivot_swap_frame.
  - rewrite eliminate_rows_frame, scale_row_frame by done.
    by apply pivot_swap_frame.
Qed.

Lemma allgather_in_place_lookup buf recvcount (w : list (rank_state D)) r s :
  w !! r = Some s →
  ∃ s', allgather_in_place buf recvcount w !! r = Some s' ∧
        work s' = work s ∧ st s' = st s ∧ cout s' = cout s ∧
        ∀ q, q ≠ buf s → mem s' !! q = mem s !! q.
Proof.
  intros Hr. unfold allgather_in_place.
  rewrite list_lookup_fmap, Hr. simpl. eexists. split; [done|].
  simpl. split_and!; [done..|]. intros q Hq.
  generalize (seq 0 (length w)). intros l. generalize (mem s).
  induction l as [|x l IH]; intros h; simpl; [done|].
  rewrite IH. by apply write_range_frame.
Qed.

(** One round keeps the number of ranks, the [work] pointer of every rank
    and every buffer other than [work] and [A_inv]. *)
Lemma matrix_inverse_mpi_round_frame A_inv size n col
    (w : list (rank_state D)) r s :
  w !! r = Some s →
  ∃ s', matrix_inverse_mpi_round A_inv size n col w !! r = Some s' ∧
        work s' = work s ∧
        ∀ q, q ≠ work s → q ≠ A_inv → mem s' !! q = mem s !! q.
Proof.
  intros Hr. unfold matrix_inverse_mpi_round.
  set (w1 := imap _ w).
  assert (H1 : ∃ s1, w1 !! r = Some s1 ∧ work s1 = work s ∧
            ∀ q, q ≠ work s → q ≠ A_inv → mem s1 !! q = mem s !! q).
  { unfold w1. rewrite list_lookup_imap, Hr. simpl.
    destruct (is_running s); [|by eexists].
    eexists. split; [done|]. apply matrix_inverse_mpi_column_frame. }
  destruct H1 as (s1 & Hs1 & Hw1 & Hm1).
  destruct (forallb is_running w1).
  - destruct (allgather_in_place_lookup work (n * rows_per_proc n size) w1 r s1 Hs1)
      as (s2 & Hs2 & Hw2 & _ & _ & Hm2).
    destruct (allgather_in_place_lookup (λ _, A_inv) (n * rows_per_proc n size)
                _ r s2 Hs2) as (s3 & Hs3 & Hw3 & _ & _ & Hm3).
    exists s3. split; [done|]. split; [congruence|].
    intros q Hq Ha. rewrite Hm3 by done. rewrite Hm2 by congruence.
    by apply Hm1.
  - rewrite list_lookup_fmap, Hs1. simpl.
    destruct (is_running s1); eexists; (split; [done|]); simpl; done.
Qed.
End frames.

(** ** Matrix inversion: ranks that have left the loop *)

Lemma for_range_split {St : Type} lo mid hi (body : Z → St → St) s :
  lo ≤ mid ≤ hi →
  for_range lo hi body s = for_range mid hi body (for_range lo mid body s).
Proof.
  intros Hm. unfold for_range.
  replace (hi - lo) with ((mid - lo) + (hi - mid)) by lia.
  rewrite seqZ_app, foldl_app by lia.
  by replace (lo + (mid - lo)) with mid by lia.
Qed.

Lemma forallb_lookup {X : Type} (f : X → bool) (l : list X) i x :
  forallb f l = true → l !! i = Some x → f x = true.
Proof.
  revert i. induction l as [|y l IH]; intros i Hall Hi; [by rewrite lookup_nil in Hi|].
  simpl in Hall. apply andb_true_iff in Hall as [Hy Hl].
  destruct i as [|i]; simpl in Hi; [congruence | by apply (IH i)].
Qed.

Section inverse_stopped.
Context `{Scalar D}.
Implicit Types (s : rank_state D) (w : list (rank_state D)).

(** A rank that is no longer running is left as it is by a round. *)
Lemma matrix_inverse_mpi_round_stopped A_inv size n col w r s :
  w !! r = Some s → is_running s = false →
  matrix_inverse_mpi_round A_inv size n col w !! r = Some s.
Proof.
  intros Hr Hstop. unfold matrix_inverse_mpi_round.
  set (w1 := imap _ w).
  assert (H1 : w1 !! r = Some s).
  { unfold w1. by rewrite list_lookup_imap, Hr; simpl; rewrite Hstop. }
  destruct (forallb is_running w1) eqn:Hall.
  - rewrite (forallb_lookup _ _ _ _ Hall H1) in Hstop. done.
  - by rewrite list_lookup_fmap, H1; simpl; rewrite Hstop.
Qed.

Lemma matrix_inverse_mpi_rounds_stopped A_inv size n lo hi w r s :
  w !! r = Some s → is_running s = false →
  for_range lo hi (λ c w1, matrix_inverse_mpi_round A_inv size n c w1) w !! r
  = Some s.
Proof.
  intros Hr Hstop. destruct (decide (lo ≤ hi)) as [Hle|Hgt].
  - apply (for_range_inv (λ _ acc, acc !! r = Some s)); [done..|].
    intros c acc _ Hacc. by apply matrix_inverse_mpi_round_stopped.
  - by rewrite for_range_empty by lia.
Qed.

(** A rank that finds a singular pivot in a round has returned after it. *)
Lemma matrix_inverse_mpi_round_singular A_inv size n col w r s :
  w !! r = Some s → st s = Running →
  d_lt (d_fabs (load (pivot_swap A_inv (work s) n col (mem s)) (work s)
                     (col * n + col))) d_eps = true →
  matrix_inverse_mpi_round A_inv size n col w !! r
  = Some (RankState (delete (work s) (pivot_swap A_inv (work s) n col (mem s)))
                    (cout s ++ [OStr "Matrix is singular!"; OEndl])
                    (work s) Returned).
Proof.
  intros Hr Hrun Hsing. unfold matrix_inverse_mpi_round.
  set (w1 := imap _ w).
  set (s' := RankState _ _ _ Returned).
  assert (H1 : w1 !! r = Some s').
  { unfold w1. rewrite list_lookup_imap, Hr. simpl.
    unfold is_running. rewrite bool_decide_eq_true_2 by done.
    unfold matrix_inverse_mpi_column. by rewrite Hsing. }
  destruct (forallb is_running w1) eqn:Hall.
  - by pose proof (forallb_lookup _ _ _ _ Hall H1).
  - by rewrite list_lookup_fmap, H1.
Qed.
End inverse_stopped.

(** ** Matrix inversion: the singular path *)

Section singular.
Context `{Scalar D}.
Implicit Types (s : rank_state D).

Lemma matrix_inverse_mpi_from A A_inv size n col
    (w : list (gmap loc (list D) * list (out_item D))) :
  0 ≤ col ≤ n →
  matrix_inverse_mpi A A_inv size n w
  = matrix_inverse_mpi_end <$>
      for_range col n (λ c w1, matrix_inverse_mpi_round A_inv size n c w1)
        (inverse_states_at A A_inv size n col w).
Proof.
  intros Hcol. unfold matrix_inverse_mpi, inverse_states_at.
  by rewrite (for_range_split 0 col n).
Qed.

(** C3, amended: a rank that enters the iteration of column [col] and
    finds [|pivot| < 1e-10] after the row swap prints "Matrix is
    singular!", frees its working copy and returns from
    [matrix_inverse_mpi]; nothing else is written, so the caller's [A_inv]
    buffer holds the accumulator as the previous columns and the swap of
    this column left it. *)
Theorem singular_pivot_returns A A_inv size n col
    (w : list (gmap loc (list D) * list (out_item D))) (r : nat) s :
  0 ≤ col < n →
  inverse_states_at A A_inv size n col w !! r = Some s →
  st s = Running →
  d_lt (d_fabs (load (pivot_swap A_inv (work s) n col (mem s)) (work s)
                     (col * n + col))) d_eps = true →
  ∃ s', matrix_inverse_mpi A A_inv size n w !! r = Some s' ∧
        st s' = Returned ∧
        cout s' = cout s ++ [OStr "Matrix is singular!"; OEndl] ∧
        mem s' = delete (work s) (pivot_swap A_inv (work s) n col (mem s)) ∧
        (A_inv ≠ work s →
           mem s' !! A_inv = pivot_swap A_inv (work s) n col (mem s) !! A_inv).
Proof.
  intros Hcol Hs Hrun Hsing.
  rewrite (matrix_inverse_mpi_from A A_inv size n col) by lia.
  rewrite for_range_cons by lia.
  pose proof (matrix_inverse_mpi_round_singular A_inv size n col _ r s Hs Hrun Hsing)
    as Hround.
  set (s' := RankState _ _ _ Returned) in Hround.
  rewrite list_lookup_fmap.
  rewrite (matrix_inverse_mpi_rounds_stopped A_inv size n _ _ _ r s' Hround)
    by done.
  exists s'. split_and!; [done..|].
  intros Hne. simpl. by rewrite lookup_delete_ne.
Qed.
End singular.

Lemma singular_pivot_returns_witness :
  ∃ s', matrix_inverse_mpi 1%positive 2%positive 1 2 [(sing_mem, [])] !! 0%nat
        = Some s' ∧
        st s' = Returned ∧
        cout s' = cout sing_state ++ [OStr "Matrix is singular!"; OEndl] ∧
        mem s' = delete (work sing_state)
                   (pivot_swap 2%positive (work sing_state) 2 1 (mem sing_state)) ∧
        (2%positive ≠ work sing_state →
           mem s' !! 2%positive
           = pivot_swap 2%positive (work sing_state) 2 1 (mem sing_state) !! 2%positive).
Proof.
  apply (singular_pivot_returns 1%positive 2%positive 1 2 1 [(sing_mem, [])]
           0%nat sing_state).
  - lia.
  - vm_compute. reflexivity.
  - reflexivity.
  - vm_compute. reflexivity.
Defined.

(** C3, as stated, fails on its last part: inverting the singular matrix
    [[1 2] [2 4]] on one rank reports the singularity and returns, and the
    caller's buffer, which held 9 everywhere, now holds the accumulator as the
    elimination of column 0 left it. *)
Lemma singular_inverse_not_discarded_counterexample :
  ∃ s, matrix_inverse_mpi 1%positive 2%positive 1 2 [(sing_mem, [])] = [s] ∧
       st s = Returned ∧
       cout s = [OStr "Matrix is singular!"; OEndl] ∧
       mem s !! 2%positive = Some [0; 0.5; 1; -0.5]%float ∧
       mem s !! 2%positive ≠ sing_mem !! 2%positive.
Proof.
  eexists. split; [vm_compute; reflexivity|].
  split_and!; [vm_compute; reflexivity..|].
  intros Heq.
  apply (f_equal (λ o, match o with
                       | Some (x :: _) => PrimFloat.ltb x 1%float
                       | _ => false
                       end)) in Heq.
  vm_compute in Heq. discriminate.
Qed.

(** ** Matrix inversion: the all-gather and the remainder rows *)

(** C2 fails on the code for 3 rows on 2 ranks.  Rank 1 owns the rows 1 and
    2, but the all-gathers exchange [n * rows_per_proc = 3] cells per rank,
    that is row 0 from rank 0 and row 1 from rank 1.  After the iteration of
    column 0 row 2 of the working matrix and of the accumulator on rank 0 is
    still the row before elimination, while rank 1 holds the eliminated row.
    In the end rank 0 reports a singular matrix and rank 1 waits in a
    collective that rank 0 never enters, although the matrix is invertible,
    as the run on a single rank shows. *)
Theorem allgather_misses_remainder_rows :
  (start_row 3 2 1 = 1 ∧ end_row 3 2 1 = 3 ∧ owner 3 2 2 = 1) ∧
  (λ s, read_range (mem s) (work s) (2 * 3) 3)
    <$> inverse_states_at 1%positive 2%positive 2 3 1 [(inv_mem, []); (inv_mem, [])]
  = [[1; 0; 0]%float; [0; -0.5; -0.5]%float] ∧
  (λ s, read_range (mem s) 2%positive (2 * 3) 3)
    <$> inverse_states_at 1%positive 2%positive 2 3 1 [(inv_mem, []); (inv_mem, [])]
  = [[0; 0; 1]%float; [-0.5; 0; 1]%float] ∧
  (λ s, (st s, cout s))
    <$> matrix_inverse_mpi 1%positive 2%positive 2 3 [(inv_mem, []); (inv_mem, [])]
  = [(Returned, [OStr "Matrix is singular!"; OEndl]); (Stuck, [])] ∧
  (λ s, (st s, cout s))
    <$> matrix_inverse_mpi 1%positive 2%positive 1 3 [(inv_mem, [])]
  = [(Returned, [])].
Proof. split_and!; vm_compute; reflexivity. Qed.

(** ** The input matrices are left as they are *)

Section inputs.
Context `{Scalar D}.
Implicit Types (h : gmap loc (list D)) (s : rank_state D).

(** The working copy is a new allocation: it differs from every allocated
    buffer, and the entry code writes only to it and to [A_inv]. *)
Lemma matrix_inverse_mpi_begin_frame A A_inv n h out q :
  is_Some (h !! q) → q ≠ A_inv →
  work (matrix_inverse_mpi_begin A A_inv n h out) ≠ q ∧
  mem (matrix_inverse_mpi_begin A A_inv n h out) !! q = h !! q.
Proof.
  intros Hq Hne. unfold matrix_inverse_mpi_begin. simpl.
  assert (Hfresh : fresh (dom h) ≠ q).
  { intros Heq. apply (is_fresh (dom h)). rewrite Heq. by apply elem_of_dom. }
  split; [done|].
  rewrite initialize_identity_frame by done.
  rewrite for_range_frame.
  - by apply lookup_insert_ne.
  - intros i acc. by apply store_lookup_ne.
Qed.

(** The working copy is outside the memory the caller passed and holds the
    [n * n] cells of [A]. *)
Lemma matrix_inverse_mpi_begin_copy A A_inv n h out :
  is_Some (h !! A) → is_Some (h !! A_inv) → 0 ≤ n →
  (work (matrix_inverse_mpi_begin A A_inv n h out) ∉ dom h) ∧
  ∀ i, 0 ≤ i < n * n →
    load (mem (matrix_inverse_mpi_begin A A_inv n h out))
         (work (matrix_inverse_mpi_begin A A_inv n h out)) i
    = load h A i.
Proof.
  intros HA HAinv Hn. unfold matrix_inverse_mpi_begin. simpl.
  set (wk := fresh (dom h)).
  assert (Hfresh : wk ∉ dom h) by apply is_fresh.
  assert (HwA : wk ≠ A) by (intros ->; by apply Hfresh, elem_of_dom).
  assert (HwI : wk ≠ A_inv) by (intros ->; by apply Hfresh, elem_of_dom).
  split; [done|]. intros i Hi.
  unfold load at 1, buffer. rewrite initialize_identity_frame by done.
  pose (P := λ (k : Z) (acc : gmap loc (list D)),
    acc !! A = h !! A ∧
    ∃ l, acc !! wk = Some l ∧ Z.of_nat (length l) = n * n ∧
         ∀ k', 0 ≤ k' < k → get_cell l k' = load h A k').
  assert (HP : P (n * n)
    (for_range 0 (n * n) (λ i0 h', store h' wk i0 (load h' A i0))
       (<[wk := replicate (Z.to_nat (n * n)) d_zero]> h))).
  { apply (for_range_inv P); [nia| |].
    - split; [by apply lookup_insert_ne|].
      eexists. split; [apply lookup_insert_eq|].
      split; [rewrite length_replicate; nia | lia].
    - intros k acc Hk (HaccA & l & Hl & Hlen & Hcells).
      assert (Hload : load acc A k = load h A k)
        by (unfold load, buffer; by rewrite HaccA).
      rewrite (store_insert _ _ l) by done. rewrite Hload. split.
      + by rewrite lookup_insert_ne.
      + eexists. split; [apply lookup_insert_eq|].
        split; [by rewrite length_set_cell|].
        intros k' Hk'. destruct (decide (k' = k)) as [->|Hne].
        * apply get_set_eq. lia.
        * rewrite get_set_ne by lia. apply Hcells. lia. }
  destruct HP as (_ & l & Hl & _ & Hcells).
  rewrite Hl. simpl. by apply Hcells.
Qed.

Lemma matrix_inverse_mpi_frame A A_inv size n
    (w : list (gmap loc (list D) * list (out_item D))) (r : nat) h out q :
  w !! r = Some (h, out) → is_Some (h !! q) → q ≠ A_inv →
  ∃ s, matrix_inverse_mpi A A_inv size n w !! r = Some s ∧
       mem s !! q = h !! q.
Proof.
  intros Hr Hq Hne. unfold matrix_inverse_mpi.
  destruct (matrix_inverse_mpi_begin_frame A A_inv n h out q Hq Hne)
    as [Hwork Hmem].
  set (s0 := matrix_inverse_mpi_begin A A_inv n h out) in *.
  set (w0 := _ <$> w).
  assert (H0 : w0 !! r = Some s0).
  { unfold w0. by rewrite list_lookup_fmap, Hr. }
  assert (Hloop : ∃ s1,
    for_range 0 n (λ col w1, matrix_inverse_mpi_round A_inv size n col w1) w0 !! r
    = Some s1 ∧ work s1 = work s0 ∧ mem s1 !! q = h !! q).
  { destruct (decide (0 ≤ n)) as [Hn|Hn].
    - apply (for_range_inv (λ _ acc, ∃ s1,
          acc !! r = Some s1 ∧ work s1 = work s0 ∧ mem s1 !! q = h !! q));
        [done|by exists s0|].
      intros col acc _ (s1 & Hs1 & Hw1 & Hm1).
      destruct (matrix_inverse_mpi_round_frame A_inv size n col acc r s1 Hs1)
        as (s2 & Hs2 & Hw2 & Hm2).
      exists s2. split_and!; [done|congruence|].
      rewrite Hm2; [done|congruence|done].
    - rewrite for_range_empty by lia. by exists s0. }
  destruct Hloop as (s1 & Hs1 & Hw1 & Hm1).
  rewrite list_lookup_fmap, Hs1. simpl. eexists. split; [done|].
  unfold matrix_inverse_mpi_end. destruct (is_running s1); [|done].
  simpl. rewrite lookup_delete_ne by congruence. done.
Qed.

(** C10: [matrix_multiply_mpi] leaves the buffers [A] and [B] as they
    were when the output [C] is another buffer, whatever the rank receives;
    [matrix_inverse_mpi] copies the [n * n] cells of [A] into a working
    buffer outside the memory it was given and leaves the buffer [A] as it
    was on every rank when [A_inv] is another buffer, whether the rank
    returns after the last column, returns on a singular pivot or never
    returns. *)
Theorem inputs_unchanged A B C rank size n recv h
    A' A_inv size' n' (w : list (gmap loc (list D) * list (out_item D)))
    (r : nat) h' out :
  A ≠ C → B ≠ C →
  A' ≠ A_inv → 0 ≤ n' → w !! r = Some (h', out) →
  is_Some (h' !! A') → is_Some (h' !! A_inv) →
  ((matrix_multiply_mpi A B C rank size n recv h).1 !! A = h !! A ∧
   (matrix_multiply_mpi A B C rank size n recv h).1 !! B = h !! B) ∧
  ((work (matrix_inverse_mpi_begin A' A_inv n' h' out) ∉ dom h') ∧
   ∀ i, 0 ≤ i < n' * n' →
     load (mem (matrix_inverse_mpi_begin A' A_inv n' h' out))
          (work (matrix_inverse_mpi_begin A' A_inv n' h' out)) i
     = load h' A' i) ∧
  ∃ s, matrix_inverse_mpi A' A_inv size' n' w !! r = Some s ∧
       mem s !! A' = h' !! A'.
Proof.
  intros HAC HBC HA Hn' Hr Hsome HsomeI. split_and!.
  - by apply matrix_multiply_mpi_frame.
  - by apply matrix_multiply_mpi_frame.
  - by apply matrix_inverse_mpi_begin_copy.
  - by apply matrix_inverse_mpi_begin_copy.
  - by apply (matrix_inverse_mpi_frame A' A_inv size' n' w r h' out).
Qed.
End inputs.

Lemma inputs_unchanged_witness :
  ((matrix_multiply_mpi 1%positive 2%positive 3%positive 0 2 3 (λ _, []) mul_mem).1
     !! 1%positive = mul_mem !! 1%positive ∧
   (matrix_multiply_mpi 1%positive 2%positive 3%positive 0 2 3 (λ _, []) mul_mem).1
     !! 2%positive = mul_mem !! 2%positive) ∧
  ((work (matrix_inverse_mpi_begin 1%positive 2%positive 2 sing_mem [])
      ∉ dom sing_mem) ∧
   ∀ i, 0 ≤ i < 2 * 2 →
     load (mem (matrix_inverse_mpi_begin 1%positive 2%positive 2 sing_mem []))
          (work (matrix_inverse_mpi_begin 1%positive 2%positive 2 sing_mem [])) i
     = load sing_mem 1%positive i) ∧
  ∃ s, matrix_inverse_mpi 1%positive 2%positive 1 2 [(sing_mem, [])] !! 0%nat
       = Some s ∧
       mem s !! 1%positive = sing_mem !! 1%positive.
Proof.
  apply (inputs_unchanged 1%positive 2%positive 3%positive 0 2 3 (λ _, []) mul_mem
           1%positive 2%positive 1 2 [(sing_mem, [])] 0%nat sing_mem []).
  - done.
  - done.
  - done.
  - lia.
  - reflexivity.
  - vm_compute. eexists. reflexivity.
  - vm_compute. eexists. reflexivity.
Defined.

(** ** Concrete runs *)

Lemma multiply_correct_witness :
  ∃ h0 c,
    run_multiply 1%positive 2%positive 3%positive 2 3 [mul_mem; mul_mem] !! 0%nat
    = Some h0 ∧
    h0 !! 3%positive = Some c ∧
    Z.of_nat (length c) = 3 * 3 ∧
    ∀ i j, 0 ≤ i < 3 → 0 ≤ j < 3 → get_cell c (i * 3 + j) = dot mul_a mul_b 3 i j.
Proof.
  apply (multiply_correct 1%positive 2%positive 3%positive 2 3 mul_a mul_b
           [mul_mem; mul_mem]).
  - lia.
  - lia.
  - reflexivity.
  - done.
  - done.
  - intros r h Hr.
    assert (h = mul_mem) as ->.
    { destruct r as [|[|r]]; simpl in Hr; [congruence..|by destruct r]. }
    split_and!; [reflexivity..|].
    exists (replicate 9 0%float). split; reflexivity.
Defined.

(** The product on rank 0 is the same for 1, 2 and 5 ranks. *)
Example run_multiply_sizes :
  (λ size, (λ h, buffer h 3%positive)
             <$> (run_multiply 1%positive 2%positive 3%positive size 3
                    (replicate (Z.to_nat size) mul_mem) !! 0%nat))
    <$> [1; 2; 5]
  = replicate 3 (Some [4.5; 11; 4; 12; 23; 10; 19.5; 35; 16]%float).
Proof. vm_compute. reflexivity. Qed.

Lemma save_partitions_witness :
  ∃ content,
    files (run_save 1%positive 3 "data/matrix_C" 2 [mul_mem; mul_mem] fs_empty)
      !! part_file_name "data/matrix_C" 1
    = Some content ∧
    content = ORaw <$> rows_of mul_a 3 (start_row 3 2 1) (end_row 3 2 1) ∧
    raw_bytes content = part_rows 3 2 1 * 3 * 8 ∧
    (∀ i j, start_row 3 2 1 ≤ i < end_row 3 2 1 → 0 ≤ j < 3 →
       content !! Z.to_nat ((i - start_row 3 2 1) * 3 + j)
       = Some (ORaw (get_cell mul_a (i * 3 + j)))) ∧
    (∀ r', r' ≠ 1 →
       part_file_name "data/matrix_C" r' ≠ part_file_name "data/matrix_C" 1).
Proof.
  apply (save_partitions 1%positive 3 "data/matrix_C" 2 [mul_mem; mul_mem]
           fs_empty 1 mul_mem mul_a).
  - lia.
  - lia.
  - reflexivity.
  - intros r' Hr'. apply not_elem_of_empty.
  - lia.
  - reflexivity.
  - reflexivity.
Defined.

(** Two ranks save a 3 × 3 matrix: row 0 goes to the file of rank 0, rows 1
    and 2 go to the file of rank 1. *)
Example run_save_files_example :
  map_to_list
    (files (run_save 1%positive 3 "data/matrix_C" 2 [mul_mem; mul_mem] fs_empty))
  = [("data/matrix_C_part1.dat", ORaw <$> [4; 5; 6; 7; 8; 9]%float);
     ("data/matrix_C_part0.dat", ORaw <$> [1; 2; 3]%float)].
Proof. vm_compute. reflexivity. Qed.

(** ** The all-gather when the process count divides the dimension *)

Section allgather.
Context `{Scalar D}.
Implicit Types (s t : rank_state D) (w : list (rank_state D)).

(** After an in-place all-gather of [recvcount] cells per rank, the buffer
    of a rank holds, in block [q], the cells of block [q] of the buffer of
    rank [q]; the cells behind the last block are not touched. *)
Lemma allgather_in_place_cells (buf : rank_state D → loc) recvcount w r s l :
  0 ≤ recvcount →
  w !! r = Some s →
  mem s !! buf s = Some l →
  Z.of_nat (length w) * recvcount ≤ Z.of_nat (length l) →
  ∃ s' l',
    allgather_in_place buf recvcount w !! r = Some s' ∧
    work s' = work s ∧ st s' = st s ∧ cout s' = cout s ∧
    mem s' = <[buf s := l']> (mem s) ∧
    length l' = length l ∧
    (∀ (q : nat) t k, w !! q = Some t → 0 ≤ k < recvcount →
       get_cell l' (Z.of_nat q * recvcount + k)
       = load (mem t) (buf t) (Z.of_nat q * recvcount + k)) ∧
    (∀ k, Z.of_nat (length w) * recvcount ≤ k → get_cell l' k = get_cell l k).
Proof.
  intros Hcnt Hr Hl Hlen. unfold allgather_in_place.
  rewrite list_lookup_fmap, Hr. simpl.
  set (block := λ q : nat, match w !! q with
                           | Some s0 => read_range (mem s0) (buf s0)
                                          (Z.of_nat q * recvcount) recvcount
                           | None => []
                           end).
  set (step := λ (h : gmap loc (list D)) (q : nat),
                 write_range h (buf s) (Z.of_nat q * recvcount) (block q)).
  assert (Hgen : ∀ m : nat, (m ≤ length w)%nat →
    ∃ l', foldl step (mem s) (seq 0 m) = <[buf s := l']> (mem s) ∧
          length l' = length l ∧
          (∀ (q : nat) t k, (q < m)%nat → w !! q = Some t → 0 ≤ k < recvcount →
             get_cell l' (Z.of_nat q * recvcount + k)
             = load (mem t) (buf t) (Z.of_nat q * recvcount + k)) ∧
          (∀ k, ¬ (0 ≤ k < Z.of_nat m * recvcount) → get_cell l' k = get_cell l k)).
  { induction m as [|m IH]; intros Hm.
    - exists l. split_and!; [by rewrite insert_id | done | lia | done].
    - destruct IH as (l1 & Heq & Hl1 & Hdone & Hrest); [lia|].
      rewrite seq_S, foldl_app, Heq. simpl. unfold step at 1.
      destruct (lookup_lt_is_Some_2 w m ltac:(lia)) as [tm Htm].
      assert (Hblock : block m = read_range (mem tm) (buf tm)
                                   (Z.of_nat m * recvcount) recvcount).
      { unfold block. by rewrite Htm. }
      rewrite Hblock.
      destruct (write_range_spec
                  (read_range (mem tm) (buf tm) (Z.of_nat m * recvcount) recvcount)
                  (<[buf s := l1]> (mem s)) (buf s) l1 (Z.of_nat m * recvcount))
        as (l2 & Heq2 & Hl2 & Hin & Hout).
      { apply lookup_insert_eq. }
      { lia. }
      { rewrite length_read_range. nia. }
      rewrite length_read_range in Hin, Hout.
      exists l2. split_and!.
      + by rewrite Heq2, insert_insert_eq.
      + congruence.
      + intros q t k Hq Ht Hk. destruct (decide (q = m)) as [->|Hne].
        * assert (t = tm) as -> by congruence.
          rewrite Hin by lia. rewrite get_read_range by lia.
          f_equal. lia.
        * rewrite Hout by nia. apply Hdone; [lia|done..].
      + intros k Hk. rewrite Hout by nia. apply Hrest. nia. }
  destruct (Hgen (length w) ltac:(lia)) as (l' & Heq & Hl' & Hdone & Hrest).
  eexists. exists l'. split; [done|]. simpl. split_and!; [done..| |].
  - intros q t k Ht Hk. apply Hdone; [|done..]. by apply lookup_lt_Some in Ht.
  - intros k Hk. apply Hrest. nia.
Qed.
End allgather.

Section allgather_divisible.
Context `{Scalar D}.
Implicit Types (s t : rank_state D) (w : list (rank_state D)).

Lemma length_allgather_in_place (buf : rank_state D → loc) recvcount w :
  length (allgather_in_place buf recvcount w) = length w.
Proof. unfold allgather_in_place. apply length_fmap. Qed.

(** When [size] divides [n], the partition of every rank, the last one
    included, has [rows_per_proc] rows. *)
Lemma end_row_divisible n size rank :
  0 ≤ n → 1 ≤ size → n `rem` size = 0 → 0 ≤ rank < size →
  end_row n size rank = start_row n size rank + rows_per_proc n size.
Proof.
  intros Hn Hsize Hrem Hrank. unfold end_row, start_row, rows_per_proc.
  pose proof (Z.quot_rem' n size) as Hqr.
  case_decide; [subst rank; lia | done].
Qed.

(** When the process count divides the dimension, the two all-gathers that
    end an iteration leave on every rank, in every row [i] of the working
    matrix and of the accumulator, the row that the owner of row [i] held
    when it entered them. *)
Lemma allgathers_merge_when_divisible A_inv size n w (r : nat) s' i j :
  0 ≤ n → 1 ≤ size → n `rem` size = 0 → length w = Z.to_nat size →
  (∀ (q : nat) t, w !! q = Some t →
     work t ≠ A_inv ∧
     ∃ lw la, mem t !! work t = Some lw ∧ mem t !! A_inv = Some la ∧
              Z.of_nat (length lw) = n * n ∧ Z.of_nat (length la) = n * n) →
  allgather_in_place (λ _, A_inv) (n * rows_per_proc n size)
    (allgather_in_place work (n * rows_per_proc n size) w) !! r = Some s' →
  0 ≤ i < n → 0 ≤ j < n →
  ∃ t, w !! Z.to_nat (owner n size i) = Some t ∧
       load (mem s') (work s') (i * n + j) = load (mem t) (work t) (i * n + j) ∧
       load (mem s') A_inv (i * n + j) = load (mem t) A_inv (i * n + j).
Proof.
  intros Hn Hsize Hrem Hlen Hbufs Hs' Hi Hj.
  set (cnt := n * rows_per_proc n size) in *.
  pose proof (rows_per_proc_nonneg n size Hn Hsize) as Hrpp.
  assert (Hall : size * rows_per_proc n size = n).
  { unfold rows_per_proc. pose proof (Z.quot_rem' n size). lia. }
  assert (Hcnt : 0 ≤ cnt) by (unfold cnt; nia).
  (* the owner of row [i] and the position of the cell in its block *)
  pose proof (owner_range n size Hn Hsize i Hi) as Ho.
  pose proof (owner_holds n size Hn Hsize i Hi) as Hown.
  rewrite (end_row_divisible n size) in Hown by done.
  unfold start_row in Hown.
  set (o := owner n size i) in *.
  destruct (lookup_lt_is_Some_2 w (Z.to_nat o) ltac:(lia)) as [t Ht].
  set (k := (i - o * rows_per_proc n size) * n + j).
  assert (Hk : 0 ≤ k < cnt) by (unfold k, cnt; nia).
  assert (Hidx : i * n + j = Z.of_nat (Z.to_nat o) * cnt + k)
    by (unfold k, cnt; rewrite Z2Nat.id by lia; lia).
  (* the rank [r] before the all-gathers *)
  assert (Hr : (r < length w)%nat).
  { apply lookup_lt_Some in Hs'. by rewrite !length_allgather_in_place in Hs'. }
  destruct (lookup_lt_is_Some_2 w r Hr) as [s Hs].
  destruct (Hbufs r s Hs) as (Hws & lw & la & Hlw & Hla & Hlenw & Hlena).
  (* first all-gather: the working matrix *)
  destruct (allgather_in_place_cells work cnt w r s lw Hcnt Hs Hlw)
    as (s1 & l1 & Hs1 & Hw1 & _ & _ & Hm1 & Hl1 & Hcells1 & _); [nia|].
  destruct (allgather_in_place_lookup work cnt w (Z.to_nat o) t Ht)
    as (t1 & Ht1 & _ & _ & _ & Hframe1).
  (* second all-gather: the accumulator *)
  assert (Hla1 : mem s1 !! A_inv = Some la).
  { rewrite Hm1, lookup_insert_ne by done. done. }
  destruct (allgather_in_place_cells (λ _, A_inv) cnt _ r s1 la Hcnt Hs1 Hla1)
    as (s2 & l2 & Hs2 & Hw2 & _ & _ & Hm2 & Hl2 & Hcells2 & _).
  { rewrite length_allgather_in_place. nia. }
  assert (s' = s2) as -> by congruence.
  exists t. split; [done|]. split.
  - rewrite Hw2, Hw1. unfold load at 1, buffer.
    rewrite Hm2, lookup_insert_ne by done.
    rewrite Hm1, lookup_insert_eq. simpl.
    rewrite Hidx. by apply Hcells1.
  - unfold load at 1, buffer. rewrite Hm2, lookup_insert_eq. simpl.
    rewrite Hidx, (Hcells2 _ t1 k Ht1 Hk).
    unfold load, buffer. rewrite Hframe1; [done|].
    destruct (Hbufs _ t Ht) as [Hne _]. done.
Qed.
End allgather_divisible.

(** * Further properties of the kernels *)

(** ** Filling a matrix cell by cell *)

Section fill.
Context `{Scalar D}.
Implicit Types (h : gmap loc (list D)) (l : list D).

(** A loop nest that stores [f i j] in the cell [(i, j)] of a [rows × cols]
    matrix sets exactly these cells. *)
Lemma fill_cells (matrix : loc) (rows cols : Z) (f : Z → Z → D) h l :
  h !! matrix = Some l → 0 ≤ rows → 0 ≤ cols →
  rows * cols ≤ Z.of_nat (length l) →
  ∃ l', for_range 0 rows
          (λ i h1, for_range 0 cols
                     (λ j h2, store h2 matrix (i * cols + j) (f i j)) h1) h
        = <[matrix := l']> h ∧
        length l' = length l ∧
        (∀ i j, 0 ≤ i < rows → 0 ≤ j < cols → get_cell l' (i * cols + j) = f i j) ∧
        (∀ k, rows * cols ≤ k → get_cell l' k = get_cell l k).
Proof.
  intros Hl Hrows Hcols Hlen.
  pose (P := λ (i : Z) (acc : gmap loc (list D)),
    ∃ l', acc = <[matrix := l']> h ∧ length l' = length l ∧
          (∀ i' j, 0 ≤ i' < i → 0 ≤ j < cols →
                   get_cell l' (i' * cols + j) = f i' j) ∧
          (∀ k, i * cols ≤ k → get_cell l' k = get_cell l k)).
  apply (for_range_inv P); [done| |].
  - exists l. split_and!; [by rewrite insert_id | done | lia | done].
  - intros i acc Hi (l1 & -> & Hl1 & Hdone & Hrest).
    pose (Q := λ (j : Z) (acc : gmap loc (list D)),
      ∃ l', acc = <[matrix := l']> h ∧ length l' = length l ∧
            (∀ i' j', 0 ≤ i' < i → 0 ≤ j' < cols →
                      get_cell l' (i' * cols + j') = f i' j') ∧
            (∀ j', 0 ≤ j' < j → get_cell l' (i * cols + j') = f i j') ∧
            (∀ k, i * cols + j ≤ k → get_cell l' k = get_cell l k)).
    assert (HQ : Q cols (for_range 0 cols
              (λ j h2, store h2 matrix (i * cols + j) (f i j))
              (<[matrix := l1]> h))).
    { apply (for_range_inv Q); [done| |].
      - exists l1. split_and!; [done..|lia|].
        intros k Hk. apply Hrest. lia.
      - intros j acc Hj (l2 & -> & Hl2 & Hrows2 & Hrow2 & Hrest2).
        exists (set_cell l2 (i * cols + j) (f i j)). split_and!.
        + rewrite (store_insert _ _ l2) by apply lookup_insert_eq.
          by rewrite insert_insert_eq.
        + by rewrite length_set_cell.
        + intros i' j' Hi' Hj'. rewrite get_set_ne by nia. by apply Hrows2.
        + intros j' Hj'. destruct (decide (j' = j)) as [->|Hne].
          * apply get_set_eq. nia.
          * rewrite get_set_ne by lia. apply Hrow2. lia.
        + intros k Hk. rewrite get_set_ne by lia. apply Hrest2. lia. }
    destruct HQ as (l2 & Heq & Hl2 & Hrows2 & Hrow2 & Hrest2).
    exists l2. split_and!; [done..| |].
    + intros i' j Hi' Hj. destruct (decide (i' = i)) as [->|Hne].
      * by apply Hrow2.
      * apply Hrows2; lia.
    + intros k Hk. apply Hrest2. lia.
Qed.

(** X1.  [initialize_identity] on an allocated buffer of at least
    [size * size] cells writes 1.0 on the diagonal and 0.0 elsewhere in the
    first [size * size] cells, keeps the length of the buffer and the cells
    behind, and changes no other buffer. *)
Theorem initialize_identity_spec (matrix : loc) (size : Z) h l :
  h !! matrix = Some l → 0 ≤ size →
  size * size ≤ Z.of_nat (length l) →
  ∃ l', initialize_identity matrix size h = <[matrix := l']> h ∧
        length l' = length l ∧
        (∀ i j, 0 ≤ i < size → 0 ≤ j < size →
           get_cell l' (i * size + j) = if decide (i = j) then d_one else d_zero) ∧
        (∀ k, size * size ≤ k → get_cell l' k = get_cell l k).
Proof.
  intros Hl Hsize Hlen. unfold initialize_identity.
  by apply (fill_cells matrix size size
              (λ i j, if decide (i = j) then d_one else d_zero)).
Qed.
End fill.

Lemma initialize_identity_spec_witness :
  ∃ l', initialize_identity 2%positive 2 sing_mem = <[2%positive := l']> sing_mem ∧
        length l' = length [9; 9; 9; 9]%float ∧
        (∀ i j, 0 ≤ i < 2 → 0 ≤ j < 2 →
           get_cell l' (i * 2 + j) = if decide (i = j) then d_one else d_zero) ∧
        (∀ k, 2 * 2 ≤ k → get_cell l' k = get_cell [9; 9; 9; 9]%float k).
Proof.
  apply (initialize_identity_spec 2%positive 2 sing_mem [9; 9; 9; 9]%float).
  - reflexivity.
  - lia.
  - simpl. lia.
Defined.

(** ** Random initialisation *)

(** The hundred values [(double)k / 10.0], [k = 0 .. 99], lie between 0 and
    9.9. *)
Lemma tenths_in_range (k : Z) :
  0 ≤ k < 100 →
  PrimFloat.leb 0%float (PrimFloat.div (float_of_int k) (float_of_int 10)) = true ∧
  PrimFloat.leb (PrimFloat.div (float_of_int k) (float_of_int 10)) max_tenth = true.
Proof.
  intros Hk.
  assert (Hall : forallb
            (λ k', PrimFloat.leb 0%float
                     (PrimFloat.div (float_of_int k') (float_of_int 10)) &&
                   PrimFloat.leb (PrimFloat.div (float_of_int k') (float_of_int 10))
                     max_tenth)
            (seqZ 0 100) = true) by (vm_compute; reflexivity).
  rewrite forallb_forall in Hall.
  specialize (Hall k). apply andb_true_iff. apply Hall.
  apply list_elem_of_In, elem_of_seqZ. lia.
Qed.

(** X2.  Whatever non-negative values [rand()] returns, [initialize_matrix]
    on an allocated buffer of at least [rows * cols] cells leaves in every
    cell of the matrix a double between 0 and 9.9 (so neither NaN nor
    infinite), keeps the cells behind the matrix and touches no other
    buffer. *)
Theorem initialize_matrix_range (rnd : Z → Z → Z) (matrix : loc) (rows cols : Z)
    (h : gmap loc (list float)) (l : list float) :
  (∀ i j, 0 ≤ i < rows → 0 ≤ j < cols → 0 ≤ rnd i j) →
  h !! matrix = Some l → 0 ≤ rows → 0 ≤ cols →
  rows * cols ≤ Z.of_nat (length l) →
  ∃ l', initialize_matrix rnd matrix rows cols h = <[matrix := l']> h ∧
        length l' = length l ∧
        (∀ i j, 0 ≤ i < rows → 0 ≤ j < cols →
           PrimFloat.leb 0%float (get_cell l' (i * cols + j)) = true ∧
           PrimFloat.leb (get_cell l' (i * cols + j)) max_tenth = true) ∧
        (∀ k, rows * cols ≤ k → get_cell l' k = get_cell l k).
Proof.
  intros Hrnd Hl Hrows Hcols Hlen. unfold initialize_matrix.
  destruct (fill_cells matrix rows cols
              (λ i j, d_div (d_of_int (rnd i j `rem` 100)) (d_of_int 10)) h l)
    as (l' & Heq & Hl' & Hcells & Hrest); [done..|].
  exists l'. split_and!; [done..| |done].
  intros i j Hi Hj. rewrite Hcells by done. simpl.
  apply tenths_in_range.
  pose proof (Z.rem_bound_pos (rnd i j) 100 (Hrnd i j Hi Hj) ltac:(lia)). lia.
Qed.

Lemma initialize_matrix_range_witness :
  ∃ l', initialize_matrix (λ i j, 1234 + 57 * i + 13 * j) 3%positive 3 3 mul_mem
        = <[3%positive := l']> mul_mem ∧
        length l' = length (replicate 9 0%float) ∧
        (∀ i j, 0 ≤ i < 3 → 0 ≤ j < 3 →
           PrimFloat.leb 0%float (get_cell l' (i * 3 + j)) = true ∧
           PrimFloat.leb (get_cell l' (i * 3 + j)) max_tenth = true) ∧
        (∀ k, 3 * 3 ≤ k → get_cell l' k = get_cell (replicate 9 0%float) k).
Proof.
  apply (initialize_matrix_range (λ i j, 1234 + 57 * i + 13 * j) 3%positive 3 3
           mul_mem (replicate 9 0%float)).
  - intros i j Hi Hj. lia.
  - reflexivity.
  - lia.
  - lia.
  - simpl. lia.
Defined.

(** ** Reads after writes, whatever is allocated *)

Section load_store.
Context `{Scalar D}.
Implicit Types (h : gmap loc (list D)) (p q : loc).

Lemma length_buffer_store h p q i v :
  length (buffer (store h p i v) q) = length (buffer h q).
Proof.
  unfold buffer, store. destruct (decide (p = q)) as [->|Hne].
  - rewrite lookup_alter_eq. destruct (h !! q); simpl; [|done].
    apply length_set_cell.
  - by rewrite lookup_alter_ne.
Qed.

Lemma load_store_eq h p i v :
  0 ≤ i < Z.of_nat (length (buffer h p)) → load (store h p i v) p i = v.
Proof.
  unfold load, buffer, store. rewrite lookup_alter_eq.
  destruct (h !! p) as [l|]; simpl; [|lia].
  apply get_set_eq.
Qed.

Lemma load_store_ne h p q i j v :
  p ≠ q ∨ i ≠ j → load (store h p i v) q j = load h q j.
Proof.
  intros Hne. unfold load, buffer, store.
  destruct (decide (p = q)) as [->|Hpq].
  - rewrite lookup_alter_eq. destruct (h !! q) as [l|]; simpl; [|done].
    apply get_set_ne. by destruct Hne.
  - by rewrite lookup_alter_ne.
Qed.

Lemma length_buffer_write_range vs : ∀ h p q off,
  length (buffer (write_range h p off vs) q) = length (buffer h q).
Proof.
  induction vs as [|v vs IH]; intros h p q off; simpl; [done|].
  by rewrite IH, length_buffer_store.
Qed.

(** A receive changes no cell outside the range it fills. *)
Lemma load_write_range_outside vs : ∀ h p q off k,
  p ≠ q ∨ k < off ∨ off + Z.of_nat (length vs) ≤ k →
  load (write_range h p off vs) q k = load h q k.
Proof.
  induction vs as [|v vs IH]; intros h p q off k Hk; simpl in *; [done|].
  rewrite IH by lia. apply load_store_ne. lia.
Qed.

(** A receive into a range that lies inside the buffer stores the values in
    order. *)
Lemma load_write_range_inside vs : ∀ h p off k,
  0 ≤ off → off + Z.of_nat (length vs) ≤ Z.of_nat (length (buffer h p)) →
  off ≤ k < off + Z.of_nat (length vs) →
  load (write_range h p off vs) p k = get_cell vs (k - off).
Proof.
  induction vs as [|v vs IH]; intros h p off k Hoff Hlen Hk; simpl in *; [lia|].
  destruct (decide (k = off)) as [->|Hne].
  - rewrite load_write_range_outside by lia.
    rewrite load_store_eq by lia. by rewrite Z.sub_diag.
  - rewrite IH; [|lia|rewrite length_buffer_store; lia|lia].
    unfold get_cell. rewrite !decide_True by lia.
    by replace (Z.to_nat (k - off)) with (S (Z.to_nat (k - (off + 1)))) by lia.
Qed.
End load_store.

(** ** Loading what was saved *)

Section load_facts.
Context `{Scalar D}.
Implicit Types (h : gmap loc (list D)) (fs : filesys D).
Implicit Types (strm : gmap loc (list D) * list D * bool).

Lemma raw_prefix_raw (vs : list D) : raw_prefix (ORaw <$> vs) = vs.
Proof. induction vs as [|v vs IH]; csimpl; [done | by rewrite IH]. Qed.

Lemma read_row_frame matrix n i strm q :
  q ≠ matrix → (read_row matrix n i strm).1.1 !! q = strm.1.1 !! q.
Proof.
  intros Hne. destruct strm as [[h rest] ok]. unfold read_row.
  destruct ok; simpl; [|done]. by apply write_range_frame.
Qed.

(** The read loop over the rows [lo .. hi-1] changes no cell outside these
    rows, whatever the stream holds. *)
Lemma read_rows_outside matrix n lo hi strm q k :
  0 ≤ n → lo ≤ hi →
  q ≠ matrix ∨ k < lo * n ∨ hi * n ≤ k →
  load (for_range lo hi (λ i strm', read_row matrix n i strm') strm).1.1 q k
  = load strm.1.1 q k.
Proof.
  intros Hn Hle Hk.
  apply (for_range_inv (λ i (acc : gmap loc (list D) * list D * bool),
           load acc.1.1 q k = load strm.1.1 q k)); [done..|].
  intros i [[h rest] ok] Hi Hacc. unfold read_row.
  destruct ok; simpl in *; [|done].
  rewrite load_write_range_outside; [done|].
  rewrite length_take. destruct Hk as [Hk|Hk]; [by left|right]. nia.
Qed.

(** With enough doubles in the stream, the read loop stores them row after
    row. *)
Lemma read_rows_inside matrix n lo hi h (vs : list D) i j :
  0 ≤ n → 0 ≤ lo ≤ hi →
  hi * n ≤ Z.of_nat (length (buffer h matrix)) →
  (hi - lo) * n ≤ Z.of_nat (length vs) →
  lo ≤ i < hi → 0 ≤ j < n →
  load (for_range lo hi (λ i' strm, read_row matrix n i' strm) (h, vs, true)).1.1
       matrix (i * n + j)
  = get_cell vs ((i - lo) * n + j).
Proof.
  intros Hn Hlo Hlen Hvs Hi Hj.
  pose (P := λ (k : Z) (acc : gmap loc (list D) * list D * bool),
    acc.2 = true ∧
    acc.1.2 = drop (Z.to_nat ((k - lo) * n)) vs ∧
    length (buffer acc.1.1 matrix) = length (buffer h matrix) ∧
    (i < k → load acc.1.1 matrix (i * n + j) = get_cell vs ((i - lo) * n + j))).
  assert (HP : P hi (for_range lo hi (λ i' strm, read_row matrix n i' strm)
                       (h, vs, true))).
  { apply (for_range_inv P); [lia| |].
    - split_and!; simpl; [done| |done|lia].
      by replace ((lo - lo) * n) with 0 by lia.
    - intros k [[h1 rest] ok] Hk (Hok & Hrest & Hl1 & Hdone).
      simpl in *. subst ok rest. split_and!; simpl.
      + apply bool_decide_eq_true_2. rewrite length_drop. nia.
      + rewrite drop_drop. f_equal. nia.
      + by rewrite length_buffer_write_range.
      + intros Hik. destruct (decide (i = k)) as [->|Hne].
        * rewrite load_write_range_inside.
          -- unfold get_cell. rewrite !decide_True by nia.
             rewrite lookup_take_lt by nia. rewrite lookup_drop.
             do 2 f_equal. nia.
          -- nia.
          -- rewrite length_take, length_drop, Hl1. nia.
          -- rewrite length_take, length_drop. nia.
        * rewrite load_write_range_outside; [apply Hdone; lia|].
          rewrite length_take. right. left. nia. }
  destruct HP as (_ & _ & _ & Hdone). apply Hdone. lia.
Qed.

(** X3.  A rank that loads, into a buffer of [n * n] cells, the partition
    file it saved gets back the rows of its partition exactly as they were
    saved; the cells of the other rows keep their values. *)
Theorem load_after_save (src dst : loc) (n : Z) (filename : string)
    (rank size : Z) (h_src h_dst : gmap loc (list D)) fs i j :
  0 ≤ n → 1 ≤ size → 0 ≤ rank < size →
  part_file_name filename rank ∉ denied fs →
  Z.of_nat (length (buffer h_dst dst)) = n * n →
  0 ≤ i < n → 0 ≤ j < n →
  load (load_matrix_distributed dst n filename rank size
          (save_matrix_distributed src n filename rank size h_src fs) h_dst)
       dst (i * n + j)
  = if decide (start_row n size rank ≤ i < end_row n size rank)
    then load h_src src (i * n + j)
    else load h_dst dst (i * n + j).
Proof.
  intros Hn Hsize Hrank Hok Hlen Hi Hj.
  destruct (start_row_range n size Hn Hsize rank Hrank) as [Hse Hen].
  rewrite save_matrix_distributed_spec by done.
  unfold load_matrix_distributed. simpl. rewrite lookup_insert_eq.
  rewrite raw_prefix_raw. case_decide as Hin.
  - rewrite read_rows_inside; [|done|lia|nia| |done|done].
    + unfold get_cell. rewrite decide_True by nia.
      rewrite lookup_rows_of by lia. simpl.
      unfold load, get_cell. by rewrite decide_True by nia.
    + rewrite length_rows_of by lia. lia.
  - rewrite (read_rows_outside dst n _ _ (h_dst, _, true)); [done|done|lia|].
    right. simpl. nia.
Qed.

(** X4.  [load_matrix_distributed] reads nothing when the partition file
    does not exist, and whatever the file holds it changes no buffer other
    than [matrix], no cell of [matrix] outside the rows of the partition of
    the rank, and the length of no buffer. *)
Theorem load_matrix_distributed_frame (matrix : loc) (n : Z) (filename : string)
    (rank size : Z) fs h :
  0 ≤ n → 1 ≤ size → 0 ≤ rank < size →
  (files fs !! part_file_name filename rank = None →
     load_matrix_distributed matrix n filename rank size fs h = h) ∧
  (∀ q, q ≠ matrix →
     load_matrix_distributed matrix n filename rank size fs h !! q = h !! q) ∧
  (∀ k, k < start_row n size rank * n ∨ end_row n size rank * n ≤ k →
     load (load_matrix_distributed matrix n filename rank size fs h) matrix k
     = load h matrix k) ∧
  length (buffer (load_matrix_distributed matrix n filename rank size fs h) matrix)
  = length (buffer h matrix).
Proof.
  intros Hn Hsize Hrank.
  destruct (start_row_range n size Hn Hsize rank Hrank) as [Hse Hen].
  unfold load_matrix_distributed. split_and!.
  - by intros ->.
  - intros q Hq. destruct (files fs !! _) as [items|]; [|done].
    apply (for_range_inv (λ _ (acc : gmap loc (list D) * list D * bool),
             acc.1.1 !! q = h !! q)); [lia|done|].
    intros i acc _ <-. by apply read_row_frame.
  - intros k Hk. destruct (files fs !! _) as [items|]; [|done].
    rewrite (read_rows_outside matrix n _ _ (h, _, true)); [done|done|lia|].
    by right.
  - destruct (files fs !! _) as [items|]; [|done].
    apply (for_range_inv (λ _ (acc : gmap loc (list D) * list D * bool),
             length (buffer acc.1.1 matrix) = length (buffer h matrix)));
      [lia|done|].
    intros i [[h1 rest] ok] _ Hacc. unfold read_row.
    destruct ok; simpl in *; [|done].
    by rewrite length_buffer_write_range.
Qed.
End load_facts.

Lemma load_after_save_witness :
  load (load_matrix_distributed 3%positive 3 "data/matrix_A" 1 2
          (save_matrix_distributed 1%positive 3 "data/matrix_A" 1 2 mul_mem fs_empty)
          mul_mem)
       3%positive (2 * 3 + 1)
  = if decide (start_row 3 2 1 ≤ 2 < end_row 3 2 1)
    then load mul_mem 1%positive (2 * 3 + 1)
    else load mul_mem 3%positive (2 * 3 + 1).
Proof.
  apply (load_after_save 1%positive 3%positive 3 "data/matrix_A" 1 2
           mul_mem mul_mem fs_empty 2 1).
  - lia.
  - lia.
  - lia.
  - apply not_elem_of_empty.
  - reflexivity.
  - lia.
  - lia.
Defined.

Lemma load_matrix_distributed_frame_witness :
  (files (save_matrix_distributed 1%positive 3 "data/matrix_A" 0 2 mul_mem fs_empty)
     !! part_file_name "data/matrix_A" 1 = None →
   load_matrix_distributed 3%positive 3 "data/matrix_A" 1 2
     (save_matrix_distributed 1%positive 3 "data/matrix_A" 0 2 mul_mem fs_empty)
     mul_mem = mul_mem) ∧
  (∀ q, q ≠ 3%positive →
     load_matrix_distributed 3%positive 3 "data/matrix_A" 1 2
       (save_matrix_distributed 1%positive 3 "data/matrix_A" 0 2 mul_mem fs_empty)
       mul_mem !! q = mul_mem !! q) ∧
  (∀ k, k < start_row 3 2 1 * 3 ∨ end_row 3 2 1 * 3 ≤ k →
     load (load_matrix_distributed 3%positive 3 "data/matrix_A" 1 2
             (save_matrix_distributed 1%positive 3 "data/matrix_A" 0 2 mul_mem
                fs_empty) mul_mem) 3%positive k
     = load mul_mem 3%positive k) ∧
  length (buffer (load_matrix_distributed 3%positive 3 "data/matrix_A" 1 2
                    (save_matrix_distributed 1%positive 3 "data/matrix_A" 0 2
                       mul_mem fs_empty) mul_mem) 3%positive)
  = length (buffer mul_mem 3%positive).
Proof.
  apply (load_matrix_distributed_frame 3%positive 3 "data/matrix_A" 1 2
           (save_matrix_distributed 1%positive 3 "data/matrix_A" 0 2 mul_mem
              fs_empty) mul_mem).
  - lia.
  - lia.
  - lia.
Defined.

(** ** The performance log *)

Section monitor_facts.
Context `{Scalar D}.
Implicit Types (fs : filesys D) (m : ResourceMonitor D).

Lemma append_file_denied path (items : list (out_item D)) fs :
  denied (append_file path items fs) = denied fs.
Proof. unfold append_file. by case_decide. Qed.

Lemma append_file_content path (items : list (out_item D)) fs :
  path ∉ denied fs →
  default [] (files (append_file path items fs) !! path)
  = default [] (files fs !! path) ++ items.
Proof. intros Hok. by rewrite append_file_lookup. Qed.

(** X5.  The performance log is append-only: after any sequence of calls of
    [log_metrics] on a file that can be opened, the file holds what it held
    before followed by one line [name,size,elapsed,4096] for each call made
    with rank 0, in the order of the calls; calls with another rank add
    nothing, and no other file changes.  On a file that cannot be opened
    the calls change nothing. *)
Theorem log_metrics_appends (calls : list (ResourceMonitor D * Z * Z * D))
    (filename : string) fs :
  (filename ∉ denied fs →
   default [] (files (log_all calls filename fs) !! filename)
   = default [] (files fs !! filename) ++
     mjoin ((λ '(m, rank, size, elapsed),
               if decide (rank = 0)
               then [OStr (operation_name m); OStr ","; OInt size; OStr ",";
                     ODbl elapsed; OStr ","; OInt 4096; OEndl]
               else []) <$> calls)) ∧
  (∀ path, path ≠ filename →
     files (log_all calls filename fs) !! path = files fs !! path) ∧
  (filename ∈ denied fs → log_all calls filename fs = fs).
Proof.
  revert fs. induction calls as [|[[[m rank] size] elapsed] calls IH]; intros fs.
  - split_and!; [intros _; csimpl; by rewrite app_nil_r | done | done].
  - change (log_all ((m, rank, size, elapsed) :: calls) filename fs)
      with (log_all calls filename (log_metrics m rank size elapsed filename fs)).
    destruct (IH (log_metrics m rank size elapsed filename fs))
      as (IHc & IHo & IHd).
    unfold log_metrics in *. split_and!.
    + intros Hok. csimpl. case_decide.
      * rewrite IHc by (by rewrite append_file_denied).
        rewrite append_file_content by done. by rewrite <- app_assoc.
      * by rewrite IHc.
    + intros path Hne. rewrite IHo by done. case_decide; [|done].
      by apply append_file_lookup_ne.
    + intros Hden. case_decide.
      * assert (Hfs : append_file filename
                  [OStr (operation_name m); OStr ","; OInt size; OStr ",";
                   ODbl elapsed; OStr ","; OInt MATRIX_SIZE; OEndl] fs = fs)
          by (unfold append_file; by rewrite decide_True).
        rewrite Hfs in *. by apply IHd.
      * by apply IHd.
Qed.
End monitor_facts.

Lemma log_metrics_appends_witness :
  default [] (files (log_all log_calls "results/metrics.csv" fs_empty)
                !! "results/metrics.csv")
  = default [] (files (fs_empty (D := float)) !! "results/metrics.csv") ++
    mjoin ((λ '(m, rank, size, elapsed),
              if decide (rank = 0)
              then [OStr (operation_name m); OStr ","; OInt size; OStr ",";
                    ODbl elapsed; OStr ","; OInt 4096; OEndl]
              else [])
           <$> log_calls).
Proof.
  apply (log_metrics_appends log_calls "results/metrics.csv" fs_empty).
  apply not_elem_of_empty.
Defined.

(** ** Every rank holds and saves its own rows of the product *)

Section multiply_own.
Context `{Scalar D}.
Implicit Types (h : gmap loc (list D)) (a b c : list D) (A B C : loc).

(** On return from [matrix_multiply_mpi] the rows of the partition of the
    rank hold the product, on rank 0 as on the others and whatever rank 0
    receives. *)
Lemma multiply_own_rows h A B C a b c rank size n recv i j :
  h !! A = Some a → h !! B = Some b → h !! C = Some c →
  A ≠ C → B ≠ C → 0 ≤ n → 1 ≤ size → 0 ≤ rank < size →
  Z.of_nat (length c) = n * n →
  start_row n size rank ≤ i < end_row n size rank → 0 ≤ j < n →
  load (matrix_multiply_mpi A B C rank size n recv h).1 C (i * n + j)
  = dot a b n i j.
Proof.
  intros HA HB HC HAC HBC Hn Hsize Hrank Hlen Hi Hj.
  destruct (start_row_range n size Hn Hsize rank Hrank) as [Hse Hen].
  destruct (multiply_rows_spec h A B C a b c n
              (start_row n size rank) (end_row n size rank))
    as (c' & Heq & Hl & Hrows & _); [done..|nia|].
  unfold matrix_multiply_mpi. rewrite Heq. case_decide as H0; simpl.
  - subst rank.
    pose proof (rows_per_proc_nonneg n size Hn Hsize) as Hrpp.
    apply (for_range_inv (λ _ (acc : gmap loc (list D)),
             load acc C (i * n + j) = dot a b n i j)); [lia| |].
    + rewrite load_insert_eq. by apply Hrows.
    + intros p acc Hp Hacc.
      rewrite load_write_range_outside; [done|].
      right. left. unfold end_row, start_row in Hi.
      rewrite decide_False in Hi by lia.
      assert (i + 1 ≤ p * rows_per_proc n size) by nia.
      assert ((i + 1) * n ≤ p * rows_per_proc n size * n) by nia. lia.
  - rewrite load_insert_eq. by apply Hrows.
Qed.

(** X6.  Multiplying and then saving, as [main] does, leaves in the
    partition file of every rank exactly the rows of the product that the
    partition of the rank covers: the files of the ranks [0 .. size-1], one
    after the other, hold every row of [a × b] once. *)
Theorem multiply_then_save A B C (size n : Z) a b (w : list (gmap loc (list D)))
    (filename : string) (fs : filesys D) (r i j : Z) :
  0 ≤ n → 1 ≤ size → length w = Z.to_nat size →
  A ≠ C → B ≠ C →
  (∀ r' h, w !! r' = Some h →
     h !! A = Some a ∧ h !! B = Some b ∧
     ∃ c, h !! C = Some c ∧ Z.of_nat (length c) = n * n) →
  (∀ r', 0 ≤ r' < size → part_file_name filename r' ∉ denied fs) →
  0 ≤ r < size →
  start_row n size r ≤ i < end_row n size r → 0 ≤ j < n →
  ∃ content,
    files (run_save C n filename size (run_multiply A B C size n w) fs)
      !! part_file_name filename r = Some content ∧
    Z.of_nat (length content) = part_rows n size r * n ∧
    content !! Z.to_nat ((i - start_row n size r) * n + j)
    = Some (ORaw (dot a b n i j)).
Proof.
  intros Hn Hsize Hw HAC HBC Hmem Hok Hr Hi Hj.
  destruct (start_row_range n size Hn Hsize r Hr) as [Hse Hen].
  destruct (lookup_lt_is_Some_2 w (Z.to_nat r) ltac:(lia)) as [h Hh].
  destruct (Hmem _ _ Hh) as (HA & HB & c & HC & Hc).
  set (w' := run_multiply A B C size n w).
  assert (Hw' : ∃ recv, w' !! Z.to_nat r
                 = Some (matrix_multiply_mpi A B C r size n recv h).1).
  { unfold w', run_multiply. rewrite list_lookup_imap, Hh. simpl.
    case_decide as H0.
    - assert (r = 0) as -> by lia. by eexists.
    - eexists. rewrite Z2Nat.id by lia. done. }
  destruct Hw' as [recv Hw'].
  destruct (run_save_files C n filename size w' fs) as [_ Hfiles].
  { intros r' Hr'. apply Hok. unfold w', run_multiply in Hr'.
    rewrite length_imap in Hr'. lia. }
  specialize (Hfiles _ _ Hw'). rewrite Z2Nat.id in Hfiles by lia.
  eexists. split; [exact Hfiles|]. split.
  - rewrite length_fmap, length_rows_of by lia. unfold part_rows. lia.
  - rewrite list_lookup_fmap, lookup_rows_of by lia. simpl. do 2 f_equal.
    by apply (multiply_own_rows h A B C a b c).
Qed.
End multiply_own.

Lemma multiply_then_save_witness :
  ∃ content,
    files (run_save 3%positive 3 "data/matrix_C" 2
             (run_multiply 1%positive 2%positive 3%positive 2 3 [mul_mem; mul_mem])
             fs_empty)
      !! part_file_name "data/matrix_C" 1 = Some content ∧
    Z.of_nat (length content) = part_rows 3 2 1 * 3 ∧
    content !! Z.to_nat ((2 - start_row 3 2 1) * 3 + 0)
    = Some (ORaw (dot mul_a mul_b 3 2 0)).
Proof.
  apply (multiply_then_save 1%positive 2%positive 3%positive 2 3 mul_a mul_b
           [mul_mem; mul_mem] "data/matrix_C" fs_empty 1 2 0).
  - lia.
  - lia.
  - reflexivity.
  - done.
  - done.
  - intros r h Hr.
    assert (h = mul_mem) as ->.
    { destruct r as [|[|r]]; simpl in Hr; [congruence..|by destruct r]. }
    split_and!; [reflexivity..|].
    exists (replicate 9 0%float). split; reflexivity.
  - intros r' Hr'. apply not_elem_of_empty.
  - lia.
  - vm_compute. intuition congruence.
  - lia.
Defined.

(** ** Matrix inversion: the row operations, entry by entry *)

Lemma for_range_preserves {St X : Type} (Obs : St → X) lo hi
    (body : Z → St → St) (s : St) :
  (∀ i acc, Obs (body i acc) = Obs acc) →
  Obs (for_range lo hi body s) = Obs s.
Proof.
  intros Hbody. destruct (decide (lo ≤ hi)) as [Hle|Hgt].
  - apply (for_range_inv (λ _ acc, Obs acc = Obs s)); [done..|].
    intros i acc _ <-. apply Hbody.
  - by rewrite for_range_empty by lia.
Qed.

Section row_operations.
Context `{Scalar D}.
Implicit Types (h : gmap loc (list D)) (p q : loc).

Lemma cells_store h p q i v : cells (store h p i v) q = cells h q.
Proof.
  unfold cells, store. destruct (decide (p = q)) as [->|Hne].
  - rewrite lookup_alter_eq. destruct (h !! q); simpl; [|done].
    by rewrite length_set_cell.
  - by rewrite lookup_alter_ne.
Qed.

Lemma cells_length h p m : cells h p = Some m → length (buffer h p) = m.
Proof.
  unfold cells, buffer. destruct (h !! p); simpl; [|done]. congruence.
Qed.

Lemma cells_write_range vs : ∀ h p q off,
  cells (write_range h p off vs) q = cells h q.
Proof.
  induction vs as [|v vs IH]; intros h p q off; simpl; [done|].
  by rewrite IH, cells_store.
Qed.

(** The entry read after a store into the cell [(i, j)] of an [n × n]
    buffer. *)
Lemma entry_store h p q n i j i' j' v :
  cells h p = Some (Z.to_nat (n * n)) →
  0 ≤ i < n → 0 ≤ j < n → 0 ≤ j' < n →
  entry (store h p (i * n + j) v) q n i' j'
  = if decide (p = q ∧ i = i' ∧ j = j') then v else entry h q n i' j'.
Proof.
  intros Hc Hi Hj Hj'. unfold entry. case_decide as Heq.
  - destruct Heq as (-> & -> & ->). apply load_store_eq.
    rewrite (cells_length _ _ _ Hc). nia.
  - apply load_store_ne. destruct (decide (p = q)) as [->|Hne]; [right|by left].
    intros Hidx. apply Heq.
    destruct (cell_index_inj n i j i' j' Hj Hj' Hidx) as [-> ->]. done.
Qed.

Lemma cells_swap_rows work A_inv n col pr h q :
  cells (swap_rows work A_inv n col pr h) q = cells h q.
Proof.
  unfold swap_rows. apply (for_range_preserves (λ h', cells h' q)).
  intros j acc. unfold swap_cells. by rewrite !cells_store.
Qed.

Lemma cells_scale_row work A_inv n col pivot h q :
  cells (scale_row work A_inv n col pivot h) q = cells h q.
Proof.
  unfold scale_row. apply (for_range_preserves (λ h', cells h' q)).
  intros j acc. by rewrite !cells_store.
Qed.

Lemma cells_eliminate_rows work A_inv n col lo hi h q :
  cells (eliminate_rows work A_inv n col lo hi h) q = cells h q.
Proof.
  unfold eliminate_rows. apply (for_range_preserves (λ h', cells h' q)).
  intros i acc. unfold eliminate_row. case_decide; [|done].
  apply (for_range_preserves (λ h', cells h' q)).
  intros j acc'. by rewrite !cells_store.
Qed.

Lemma cells_pivot_swap A_inv work n col h q :
  cells (pivot_swap A_inv work n col h) q = cells h q.
Proof.
  unfold pivot_swap. case_decide; [|done]. apply cells_swap_rows.
Qed.

(** The swap loop exchanges the rows [col] and [pr] of both matrices. *)
Lemma swap_rows_entries work A_inv n col pr h q i j :
  work ≠ A_inv →
  cells h work = Some (Z.to_nat (n * n)) →
  cells h A_inv = Some (Z.to_nat (n * n)) →
  0 ≤ col < n → 0 ≤ pr < n → 0 ≤ j < n →
  q = work ∨ q = A_inv →
  entry (swap_rows work A_inv n col pr h) q n i j
  = gj_swap_rows (entry h q n) col pr i j.
Proof.
  intros Hne Hcw Hca Hcol Hpr Hj Hq.
  pose (P := λ (k : Z) (acc : gmap loc (list D)),
    cells acc work = Some (Z.to_nat (n * n)) ∧
    cells acc A_inv = Some (Z.to_nat (n * n)) ∧
    ∀ q' i' j', q' = work ∨ q' = A_inv → 0 ≤ j' < n →
      entry acc q' n i' j'
      = if decide (j' < k) then gj_swap_rows (entry h q' n) col pr i' j'
        else entry h q' n i' j').
  assert (HP : P n (swap_rows work A_inv n col pr h)).
  { apply (for_range_inv P); [lia| |].
    - split_and!; [done..|]. intros q' i' j' _ Hj'. by rewrite decide_False by lia.
    - intros k acc Hk (Hcw' & Hca' & Hent). split_and!.
      + unfold swap_cells. by rewrite !cells_store.
      + unfold swap_cells. by rewrite !cells_store.
      + intros q' i' j' Hq' Hj'. unfold swap_cells.
        rewrite !entry_store by (rewrite ?cells_store; (done || lia)).
        fold (entry acc work n col k) (entry acc work n pr k).
        fold (entry (store (store acc work (col * n + k) (entry acc work n pr k))
                       work (pr * n + k) (entry acc work n col k)) A_inv n col k).
        fold (entry (store (store acc work (col * n + k) (entry acc work n pr k))
                       work (pr * n + k) (entry acc work n col k)) A_inv n pr k).
        rewrite !entry_store by (rewrite ?cells_store; (done || lia)).
        rewrite !Hent by (auto || lia).
        unfold gj_swap_rows.
        repeat case_decide; try done; try lia;
          intuition (try lia; try congruence). }
  destruct HP as (_ & _ & Hent). rewrite Hent by done.
  by rewrite decide_True by lia.
Qed.
End row_operations.

Ltac fold_entries :=
  repeat match goal with
    | |- context [load ?h ?p (?i * ?n + ?j)] =>
        change (load h p (i * n + j)) with (entry h p n i j)
    end.

Ltac entry_stores :=
  repeat (progress (fold_entries;
                    rewrite ?entry_store by (rewrite ?cells_store; (done || lia)))).

Section row_operations_2.
Context `{Scalar D}.
Implicit Types (h : gmap loc (list D)) (p q : loc).

(** The scaling loop divides row [col] of both matrices by the pivot. *)
Lemma scale_row_entries work A_inv n col pivot h q i j :
  work ≠ A_inv →
  cells h work = Some (Z.to_nat (n * n)) →
  cells h A_inv = Some (Z.to_nat (n * n)) →
  0 ≤ col < n → 0 ≤ j < n →
  q = work ∨ q = A_inv →
  entry (scale_row work A_inv n col pivot h) q n i j
  = gj_scale (entry h q n) col pivot i j.
Proof.
  intros Hne Hcw Hca Hcol Hj Hq.
  pose (P := λ (k : Z) (acc : gmap loc (list D)),
    cells acc work = Some (Z.to_nat (n * n)) ∧
    cells acc A_inv = Some (Z.to_nat (n * n)) ∧
    ∀ q' i' j', q' = work ∨ q' = A_inv → 0 ≤ j' < n →
      entry acc q' n i' j'
      = if decide (j' < k) then gj_scale (entry h q' n) col pivot i' j'
        else entry h q' n i' j').
  assert (HP : P n (scale_row work A_inv n col pivot h)).
  { apply (for_range_inv P); [lia| |].
    - split_and!; [done..|]. intros q' i' j' _ Hj'. by rewrite decide_False by lia.
    - intros k acc Hk (Hcw' & Hca' & Hent). split_and!.
      + by rewrite !cells_store.
      + by rewrite !cells_store.
      + intros q' i' j' Hq' Hj'. entry_stores.
        rewrite !Hent by (auto || lia).
        unfold gj_scale.
        repeat case_decide; try done; try lia;
          intuition (try lia; try congruence). }
  destruct HP as (_ & _ & Hent). rewrite Hent by done.
  by rewrite decide_True by lia.
Qed.

(** The elimination of one row [i ≠ col]. *)
Lemma eliminate_row_entries work A_inv n col i h q i' j' :
  work ≠ A_inv →
  cells h work = Some (Z.to_nat (n * n)) →
  cells h A_inv = Some (Z.to_nat (n * n)) →
  0 ≤ col < n → 0 ≤ i < n → 0 ≤ j' < n →
  q = work ∨ q = A_inv →
  entry (eliminate_row work A_inv n col i h) q n i' j'
  = if decide (i' = i) then gj_eliminate (entry h work n) (entry h q n) col i' j'
    else entry h q n i' j'.
Proof.
  intros Hne Hcw Hca Hcol Hi Hj' Hq. unfold eliminate_row.
  case_decide as Hic.
  2:{ assert (i = col) as -> by (destruct (decide (i = col)); [done|contradiction]).
      unfold gj_eliminate. repeat case_decide; done. }
  pose (P := λ (k : Z) (acc : gmap loc (list D)),
    cells acc work = Some (Z.to_nat (n * n)) ∧
    cells acc A_inv = Some (Z.to_nat (n * n)) ∧
    ∀ q' r c, q' = work ∨ q' = A_inv → 0 ≤ c < n →
      entry acc q' n r c
      = if decide (r = i ∧ c < k)
        then gj_eliminate (entry h work n) (entry h q' n) col r c
        else entry h q' n r c).
  match goal with |- entry (for_range 0 n ?body h) _ _ _ _ = _ =>
    assert (HP : P n (for_range 0 n body h)) end.
  { apply (for_range_inv P); [lia| |].
    - split_and!; [done..|]. intros q' r c _ Hc. by rewrite decide_False by lia.
    - intros k acc Hk (Hcw' & Hca' & Hent). split_and!.
      + by rewrite !cells_store.
      + by rewrite !cells_store.
      + intros q' r c Hq' Hc. entry_stores.
        rewrite !Hent by (auto || lia).
        unfold gj_eliminate.
        repeat case_decide; try done; try lia;
          intuition (try lia; try congruence). }
  destruct HP as (_ & _ & Hent). rewrite Hent by done.
  repeat case_decide; try done; lia.
Qed.

(** The elimination loop over the rows [lo .. hi-1]. *)
Lemma eliminate_rows_entries work A_inv n col lo hi h q i j :
  work ≠ A_inv →
  cells h work = Some (Z.to_nat (n * n)) →
  cells h A_inv = Some (Z.to_nat (n * n)) →
  0 ≤ col < n → 0 ≤ lo ≤ hi → hi ≤ n → 0 ≤ j < n →
  q = work ∨ q = A_inv →
  entry (eliminate_rows work A_inv n col lo hi h) q n i j
  = if decide (lo ≤ i < hi)
    then gj_eliminate (entry h work n) (entry h q n) col i j
    else entry h q n i j.
Proof.
  intros Hne Hcw Hca Hcol Hlo Hhi Hj Hq.
  pose (P := λ (k : Z) (acc : gmap loc (list D)),
    cells acc work = Some (Z.to_nat (n * n)) ∧
    cells acc A_inv = Some (Z.to_nat (n * n)) ∧
    ∀ q' r c, q' = work ∨ q' = A_inv → 0 ≤ c < n →
      entry acc q' n r c
      = if decide (lo ≤ r < k)
        then gj_eliminate (entry h work n) (entry h q' n) col r c
        else entry h q' n r c).
  assert (HP : P hi (eliminate_rows work A_inv n col lo hi h)).
  { apply (for_range_inv P); [lia| |].
    - split_and!; [done..|]. intros q' r c _ Hc. by rewrite decide_False by lia.
    - intros k acc Hk (Hcw' & Hca' & Hent). split_and!.
      + unfold eliminate_row. case_decide; [|done].
        rewrite (for_range_preserves (λ h', cells h' work)); [done|].
        intros j0 acc0. by rewrite !cells_store.
      + unfold eliminate_row. case_decide; [|done].
        rewrite (for_range_preserves (λ h', cells h' A_inv)); [done|].
        intros j0 acc0. by rewrite !cells_store.
      + intros q' r c Hq' Hc.
        rewrite eliminate_row_entries by (done || lia).
        unfold gj_eliminate. rewrite !Hent by (auto || lia).
        unfold gj_eliminate.
        repeat case_decide; try done; try lia;
          intuition (try lia; try congruence). }
  destruct HP as (_ & _ & Hent). by rewrite Hent.
Qed.
End row_operations_2.

(** ** Matrix inversion: one column on one rank against the reference *)

Section column_reference.
Context `{Scalar D}.
Implicit Types (h : gmap loc (list D)) (s : rank_state D) (W V : Z → Z → D).

Lemma gj_find_pivot_range W n col :
  0 ≤ col < n → col ≤ gj_find_pivot W n col < n.
Proof.
  intros Hcol. unfold gj_find_pivot.
  apply (for_range_inv (λ k (acc : Z * D), col ≤ acc.1 < k)); [lia|simpl; lia|].
  intros k [p m] Hk Hp. simpl in *. destruct (d_gt _ m); simpl; lia.
Qed.

Lemma gj_find_pivot_ext W W' n col :
  0 ≤ col < n →
  (∀ i, col ≤ i < n → W i col = W' i col) →
  gj_find_pivot W n col = gj_find_pivot W' n col.
Proof.
  intros Hcol Heq. unfold gj_find_pivot. f_equal.
  rewrite (Heq col) by lia. apply for_range_ext.
  intros i [p m] Hi. by rewrite (Heq i) by lia.
Qed.

Lemma find_pivot_reference h work n col :
  (find_pivot h work n col).1 = gj_find_pivot (entry h work n) n col.
Proof. done. Qed.

Lemma cells_allocated h p m :
  cells h p = Some m → ∃ l, h !! p = Some l ∧ length l = m.
Proof.
  unfold cells. destruct (h !! p) as [l|]; simpl; [|done].
  intros [= <-]. by exists l.
Qed.

(** The pivot search and the swap on a rank that holds [W] and [V]. *)
Lemma pivot_swap_reference A_inv n col W V s :
  rank_holds A_inv n W V s → 0 ≤ col < n →
  rank_holds A_inv n
    (gj_swap_rows W col (gj_find_pivot W n col))
    (gj_swap_rows V col (gj_find_pivot W n col))
    (RankState (pivot_swap A_inv (work s) n col (mem s)) (cout s) (work s) (st s)).
Proof.
  intros (Hne & Hcw & Hca & Hent) Hcol. unfold rank_holds. simpl.
  rewrite !cells_pivot_swap. split_and!; [done..|].
  assert (Hpr : (find_pivot (mem s) (work s) n col).1 = gj_find_pivot W n col).
  { rewrite find_pivot_reference. apply gj_find_pivot_ext; [done|].
    intros i Hi. apply Hent; lia. }
  pose proof (gj_find_pivot_range W n col Hcol) as Hrange.
  intros i j Hi Hj. unfold pivot_swap. rewrite Hpr.
  case_decide as Hsw.
  - rewrite !swap_rows_entries by (auto || lia).
    unfold gj_swap_rows. repeat case_decide; split; apply Hent; lia.
  - assert (gj_find_pivot W n col = col) as ->
      by (destruct (decide (gj_find_pivot W n col = col)); [done|contradiction]).
    unfold gj_swap_rows. repeat case_decide; subst; split; apply Hent; lia.
Qed.

(** The body of the column loop on a rank that holds [W] and [V] and owns
    the rows [start_row .. end_row - 1]: on a pivot below the threshold the
    rank returns with the swapped accumulator; otherwise it holds the
    reference step in its own rows and the scaled matrices elsewhere. *)
Lemma matrix_inverse_mpi_column_reference A_inv rank size n col W V s :
  rank_holds A_inv n W V s → 0 ≤ n → 1 ≤ size → 0 ≤ rank < size →
  0 ≤ col < n →
  let pr := gj_find_pivot W n col in
  let W1 := gj_swap_rows W col pr in
  let V1 := gj_swap_rows V col pr in
  let s' := matrix_inverse_mpi_column A_inv rank size n col s in
  work s' = work s ∧
  match gj_step n col W V with
  | None =>
      st s' = Returned ∧ cout s' = cout s ++ singular_message ∧
      cells (mem s') A_inv = Some (Z.to_nat (n * n)) ∧
      ∀ i j, 0 ≤ i < n → 0 ≤ j < n → entry (mem s') A_inv n i j = V1 i j
  | Some (W', V') =>
      st s' = Running ∧ cout s' = cout s ∧
      rank_holds A_inv n
        (λ i j, if decide (start_row n size rank ≤ i < end_row n size rank)
                then W' i j else gj_scale W1 col (W1 col col) i j)
        (λ i j, if decide (start_row n size rank ≤ i < end_row n size rank)
                then V' i j else gj_scale V1 col (W1 col col) i j)
        s'
  end.
Proof.
  intros Hholds Hn Hsize Hrank Hcol pr W1 V1 s'.
  pose proof (pivot_swap_reference A_inv n col W V s Hholds Hcol)
    as (Hne & Hcw & Hca & Hent). simpl in *.
  fold pr W1 V1 in Hent.
  destruct (start_row_range n size Hn Hsize rank Hrank) as [Hse Hen].
  assert (Hpivot : load (pivot_swap A_inv (work s) n col (mem s)) (work s)
                     (col * n + col) = W1 col col).
  { fold_entries. apply Hent; lia. }
  unfold s', matrix_inverse_mpi_column, gj_step. fold pr W1.
  rewrite Hpivot. destruct (d_lt (d_fabs (W1 col col)) d_eps); simpl.
  - split; [done|]. split_and!; [done..| |].
    + unfold cells. rewrite lookup_delete_ne by done. apply Hca.
    + intros i j Hi Hj. unfold entry, load, buffer.
      rewrite lookup_delete_ne by done. apply Hent; lia.
  - split; [done|]. split_and!; [done..|]. unfold rank_holds. simpl.
    rewrite !cells_eliminate_rows, !cells_scale_row.
    split_and!; [done..|]. intros i j Hi Hj.
    rewrite !eliminate_rows_entries
      by (rewrite ?cells_scale_row; (auto || lia)).
    unfold gj_eliminate.
    rewrite !scale_row_entries by (auto || lia).
    fold V1. unfold gj_scale.
    assert (HW : ∀ i' j', 0 ≤ i' < n → 0 ≤ j' < n →
              entry (pivot_swap A_inv (work s) n col (mem s)) (work s) n i' j'
              = W1 i' j') by (intros; by apply Hent).
    assert (HV : ∀ i' j', 0 ≤ i' < n → 0 ≤ j' < n →
              entry (pivot_swap A_inv (work s) n col (mem s)) A_inv n i' j'
              = V1 i' j') by (intros; by apply Hent).
    repeat case_decide; try lia; split; rewrite ?HW, ?HV by lia; done.
Qed.
End column_reference.

(** ** Matrix inversion: one round on all ranks against the reference *)

Lemma forallb_intro {X : Type} (f : X → bool) (l : list X) :
  (∀ i x, l !! i = Some x → f x = true) → forallb f l = true.
Proof.
  induction l as [|y l IH]; intros Hall; simpl; [done|].
  rewrite (Hall 0%nat y eq_refl). simpl. apply IH.
  intros i x Hi. by apply (Hall (S i)).
Qed.

Section round_reference.
Context `{Scalar D}.
Implicit Types (s : rank_state D) (w : list (rank_state D)) (W V : Z → Z → D).

Lemma allgather_in_place_inv (buf : rank_state D → loc) recvcount w (r : nat) s' :
  allgather_in_place buf recvcount w !! r = Some s' →
  ∃ s, w !! r = Some s ∧ work s' = work s ∧ st s' = st s ∧ cout s' = cout s ∧
       ∀ q, cells (mem s') q = cells (mem s) q.
Proof.
  unfold allgather_in_place. rewrite list_lookup_fmap.
  destruct (w !! r) as [s|]; simpl; [|done]. intros [= <-].
  exists s. split_and!; [done..|]. simpl. intros q.
  generalize (seq 0 (length w)). intros l. generalize (mem s).
  induction l as [|x l IH]; intros h; simpl; [done|].
  by rewrite IH, cells_write_range.
Qed.

(** When the process count divides [n] and every rank holds [W] and [V],
    a round in which the pivot passes the test leaves every rank with the
    reference step of [W] and [V]. *)
Lemma matrix_inverse_mpi_round_reference A_inv size n col W V W' V' w :
  0 ≤ n → 1 ≤ size → n `rem` size = 0 → length w = Z.to_nat size →
  0 ≤ col < n →
  (∀ (r : nat) s, w !! r = Some s → st s = Running ∧ rank_holds A_inv n W V s) →
  gj_step n col W V = Some (W', V') →
  ∀ (r : nat) s', matrix_inverse_mpi_round A_inv size n col w !! r = Some s' →
    ∃ s, w !! r = Some s ∧ st s' = Running ∧ cout s' = cout s ∧
         work s' = work s ∧ rank_holds A_inv n W' V' s'.
Proof.
  intros Hn Hsize Hrem Hlen Hcol Hall Hstep r s' Hs'.
  unfold matrix_inverse_mpi_round in Hs'.
  set (w1 := imap _ w) in Hs'.
  (* every rank after the body of the loop *)
  assert (H1 : ∀ (q : nat) t1, w1 !! q = Some t1 →
    ∃ t, w !! q = Some t ∧ work t1 = work t ∧ st t1 = Running ∧ cout t1 = cout t ∧
      rank_holds A_inv n
        (λ i j, if decide (start_row n size (Z.of_nat q) ≤ i
                           < end_row n size (Z.of_nat q))
                then W' i j
                else gj_scale (gj_swap_rows W col (gj_find_pivot W n col)) col
                       (gj_swap_rows W col (gj_find_pivot W n col) col col) i j)
        (λ i j, if decide (start_row n size (Z.of_nat q) ≤ i
                           < end_row n size (Z.of_nat q))
                then V' i j
                else gj_scale (gj_swap_rows V col (gj_find_pivot W n col)) col
                       (gj_swap_rows W col (gj_find_pivot W n col) col col) i j)
        t1).
  { intros q t1 Ht1. unfold w1 in Ht1. rewrite list_lookup_imap in Ht1.
    destruct (w !! q) as [t|] eqn:Ht; simpl in Ht1; [|done].
    destruct (Hall q t Ht) as [Hrun Hholds].
    unfold is_running in Ht1. rewrite bool_decide_eq_true_2 in Ht1 by done.
    injection Ht1 as <-.
    assert (Hq : 0 ≤ Z.of_nat q < size) by (apply lookup_lt_Some in Ht; lia).
    pose proof (matrix_inverse_mpi_column_reference A_inv (Z.of_nat q) size n col
                  W V t Hholds Hn Hsize Hq Hcol) as [Hwork Hcolumn].
    rewrite Hstep in Hcolumn. destruct Hcolumn as (Hst & Hcout & Hh).
    exists t. by split_and!. }
  assert (Hrun1 : forallb is_running w1 = true).
  { apply forallb_intro. intros q t1 Ht1.
    destruct (H1 q t1 Ht1) as (_ & _ & _ & Hst & _).
    unfold is_running. by apply bool_decide_eq_true_2. }
  rewrite Hrun1 in Hs'.
  assert (Hlen1 : length w1 = Z.to_nat size) by (unfold w1; by rewrite length_imap).
  (* the rank before the all-gathers *)
  destruct (allgather_in_place_inv _ _ _ _ _ Hs')
    as (s2 & Hs2 & Hw2 & Hst2 & Hco2 & Hce2).
  destruct (allgather_in_place_inv _ _ _ _ _ Hs2)
    as (s1 & Hs1 & Hw1 & Hst1 & Hco1 & Hce1).
  destruct (H1 r s1 Hs1) as (s & Hs & Hws & Hsts & Hcos & Hhs).
  exists s. split_and!; [done|congruence|congruence|congruence|].
  destruct Hhs as (Hne & Hcw & Hca & _).
  unfold rank_holds. rewrite Hw2, Hw1, !Hce2, !Hce1.
  split_and!; [done..|]. intros i j Hi Hj.
  destruct (allgathers_merge_when_divisible A_inv size n w1 r s' i j)
    as (t1 & Ht1 & HtW & HtV); [done..| |done|done|done|].
  { intros q t1 Ht1. destruct (H1 q t1 Ht1) as (_ & _ & _ & _ & _ & Ht).
    destruct Ht as (Hne' & Hcw' & Hca' & _). split; [done|].
    destruct (cells_allocated _ _ _ Hcw') as (lw & Hlw & Hllw).
    destruct (cells_allocated _ _ _ Hca') as (la & Hla & Hlla).
    exists lw, la. split_and!; [done..|lia|lia]. }
  destruct (H1 _ t1 Ht1) as (_ & _ & _ & _ & _ & Ht).
  destruct Ht as (_ & _ & _ & Hent).
  pose proof (owner_range n size Hn Hsize i Hi) as Ho.
  pose proof (owner_holds n size Hn Hsize i Hi) as Hown.
  rewrite Z2Nat.id in Hent by lia.
  specialize (Hent i j Hi Hj). rewrite !decide_True in Hent by done.
  rewrite Hw2, Hw1 in HtW. unfold entry in *.
  rewrite HtW, HtV. exact Hent.
Qed.

(** A round in which the pivot fails the test makes every rank return with
    the message and the swapped accumulator. *)
Lemma matrix_inverse_mpi_round_reference_singular A_inv size n col W V w :
  0 ≤ n → 1 ≤ size → length w = Z.to_nat size → 0 ≤ col < n →
  (∀ (r : nat) s, w !! r = Some s → st s = Running ∧ rank_holds A_inv n W V s) →
  gj_step n col W V = None →
  ∀ (r : nat) s', matrix_inverse_mpi_round A_inv size n col w !! r = Some s' →
    ∃ s, w !! r = Some s ∧ st s' = Returned ∧
         cout s' = cout s ++ singular_message ∧
         cells (mem s') A_inv = Some (Z.to_nat (n * n)) ∧
         ∀ i j, 0 ≤ i < n → 0 ≤ j < n →
           entry (mem s') A_inv n i j
           = gj_swap_rows V col (gj_find_pivot W n col) i j.
Proof.
  intros Hn Hsize Hlen Hcol Hall Hstep r s' Hs'.
  unfold matrix_inverse_mpi_round in Hs'.
  set (w1 := imap _ w) in Hs'.
  assert (H1 : ∀ (q : nat) t1, w1 !! q = Some t1 →
    ∃ t, w !! q = Some t ∧ st t1 = Returned ∧
      cout t1 = cout t ++ singular_message ∧
      cells (mem t1) A_inv = Some (Z.to_nat (n * n)) ∧
      ∀ i j, 0 ≤ i < n → 0 ≤ j < n →
        entry (mem t1) A_inv n i j = gj_swap_rows V col (gj_find_pivot W n col) i j).
  { intros q t1 Ht1. unfold w1 in Ht1. rewrite list_lookup_imap in Ht1.
    destruct (w !! q) as [t|] eqn:Ht; simpl in Ht1; [|done].
    destruct (Hall q t Ht) as [Hrun Hholds].
    unfold is_running in Ht1. rewrite bool_decide_eq_true_2 in Ht1 by done.
    injection Ht1 as <-.
    assert (Hq : 0 ≤ Z.of_nat q < size) by (apply lookup_lt_Some in Ht; lia).
    pose proof (matrix_inverse_mpi_column_reference A_inv (Z.of_nat q) size n col
                  W V t Hholds Hn Hsize Hq Hcol) as [Hwork Hcolumn].
    rewrite Hstep in Hcolumn. exists t. by split. }
  destruct (forallb is_running w1) eqn:Hrun1.
  - destruct (lookup_lt_is_Some_2 w1 0%nat) as [t1 Ht1].
    { unfold w1. rewrite length_imap. lia. }
    pose proof (forallb_lookup _ _ _ _ Hrun1 Ht1) as Hr1.
    destruct (H1 _ _ Ht1) as (_ & _ & Hst & _).
    unfold is_running in Hr1. rewrite Hst in Hr1. done.
  - rewrite list_lookup_fmap in Hs'.
    destruct (w1 !! r) as [t1|] eqn:Ht1; simpl in Hs'; [|done].
    destruct (H1 _ _ Ht1) as (t & Ht & Hst & Hco & Hce & Hent).
    unfold is_running in Hs'. rewrite Hst in Hs'. simpl in Hs'.
    injection Hs' as <-. by exists t.
Qed.
End round_reference.

(** ** Matrix inversion: the whole run against the reference *)

Section run_reference.
Context `{Scalar D}.
Implicit Types (h : gmap loc (list D)) (s : rank_state D) (w : list (rank_state D)).

Lemma length_matrix_inverse_mpi_round A_inv size n col w :
  length (matrix_inverse_mpi_round A_inv size n col w) = length w.
Proof.
  unfold matrix_inverse_mpi_round. destruct (forallb _ _).
  - by rewrite !length_allgather_in_place, length_imap.
  - by rewrite length_fmap, length_imap.
Qed.

Lemma cells_initialize_identity matrix size h q :
  cells (initialize_identity matrix size h) q = cells h q.
Proof.
  unfold initialize_identity. apply (for_range_preserves (λ h', cells h' q)).
  intros i acc. apply (for_range_preserves (λ h', cells h' q)).
  intros j acc'. apply cells_store.
Qed.

(** On entry a rank holds a copy of [A] and the identity. *)
Lemma matrix_inverse_mpi_begin_holds A A_inv n h out a :
  h !! A = Some a → cells h A_inv = Some (Z.to_nat (n * n)) → 0 ≤ n →
  rank_holds A_inv n (λ i j, get_cell a (i * n + j))
    (λ i j, if decide (i = j) then d_one else d_zero)
    (matrix_inverse_mpi_begin A A_inv n h out).
Proof.
  intros HA Hca Hn.
  destruct (cells_allocated _ _ _ Hca) as (la & Hla & Hlla).
  destruct (matrix_inverse_mpi_begin_copy A A_inv n h out) as [Hfresh Hcopy];
    [by rewrite HA | by rewrite Hla | done |].
  unfold matrix_inverse_mpi_begin in *. simpl in *.
  set (wk := fresh (dom h)) in *.
  assert (Hne : wk ≠ A_inv) by (intros ->; apply Hfresh, elem_of_dom; by rewrite Hla).
  set (h2 := for_range 0 (n * n) _ _) in *.
  assert (Hc2 : ∀ q, cells h2 q
                     = cells (<[wk := replicate (Z.to_nat (n * n)) d_zero]> h) q).
  { intros q. unfold h2. apply (for_range_preserves (λ h', cells h' q)).
    intros i acc. apply cells_store. }
  unfold rank_holds. simpl. rewrite !cells_initialize_identity, !Hc2.
  unfold cells at 1 2. rewrite lookup_insert_eq, lookup_insert_ne by done.
  simpl. rewrite length_replicate. split_and!; [done|done|by rewrite Hla; simpl; f_equal|].
  intros i j Hi Hj. split.
  - unfold entry. rewrite Hcopy by nia. unfold load, buffer. by rewrite HA.
  - assert (Hla2 : cells h2 A_inv = Some (Z.to_nat (n * n))).
    { rewrite Hc2. unfold cells. rewrite lookup_insert_ne by done.
      rewrite Hla. simpl. by f_equal. }
    destruct (cells_allocated _ _ _ Hla2) as (l2 & Hl2 & Hll2).
    destruct (fill_cells A_inv n n (λ i j, if decide (i = j) then d_one else d_zero)
                h2 l2) as (l' & Heq & _ & Hcells & _); [done|done|done|lia|].
    unfold initialize_identity, entry. rewrite Heq, load_insert_eq.
    by apply Hcells.
Qed.

(** The run of all ranks against the sequential elimination. *)
Lemma matrix_inverse_mpi_reference A A_inv (size n : Z) (a : list D)
    (w : list (gmap loc (list D) * list (out_item D))) (r : nat) h out :
  0 ≤ n → 1 ≤ size → n `rem` size = 0 → length w = Z.to_nat size →
  (∀ (r' : nat) h' out', w !! r' = Some (h', out') →
     h' !! A = Some a ∧ cells h' A_inv = Some (Z.to_nat (n * n))) →
  w !! r = Some (h, out) →
  ∃ s, matrix_inverse_mpi A A_inv size n w !! r = Some s ∧
       st s = Returned ∧
       match gj_run n n (λ i j, get_cell a (i * n + j)) with
       | GJRunning _ V =>
           cout s = out ∧
           ∀ i j, 0 ≤ i < n → 0 ≤ j < n → entry (mem s) A_inv n i j = V i j
       | GJSingular _ V =>
           cout s = out ++ singular_message ∧
           ∀ i j, 0 ≤ i < n → 0 ≤ j < n → entry (mem s) A_inv n i j = V i j
       end.
Proof.
  intros Hn Hsize Hrem Hlen Hw Hr.
  set (A0 := λ i j, get_cell a (i * n + j)).
  unfold matrix_inverse_mpi.
  set (w0 := _ <$> w).
  pose (Inv := λ (c : Z) (acc : list (rank_state D)),
    length acc = Z.to_nat size ∧
    ∀ (q : nat) s, acc !! q = Some s →
      ∃ hq outq, w !! q = Some (hq, outq) ∧
        match gj_run n c A0 with
        | GJRunning W V =>
            st s = Running ∧ cout s = outq ∧ rank_holds A_inv n W V s
        | GJSingular _ V =>
            st s = Returned ∧ cout s = outq ++ singular_message ∧
            ∀ i j, 0 ≤ i < n → 0 ≤ j < n → entry (mem s) A_inv n i j = V i j
        end).
  assert (HInv : Inv n
    (for_range 0 n (λ col w1, matrix_inverse_mpi_round A_inv size n col w1) w0)).
  { apply (for_range_inv Inv); [done| |].
    - split; [unfold w0; by rewrite length_fmap|].
      intros q s Hs. unfold w0 in Hs. rewrite list_lookup_fmap in Hs.
      destruct (w !! q) as [[hq outq]|] eqn:Hq; simpl in Hs; [|done].
      injection Hs as <-. exists hq, outq. split; [done|].
      unfold gj_run. rewrite for_range_empty by lia.
      destruct (Hw q hq outq Hq) as [HA Hca].
      split_and!; [done..|]. by apply matrix_inverse_mpi_begin_holds.
    - intros c acc Hc [Hlacc Hacc]. split.
      { by rewrite length_matrix_inverse_mpi_round. }
      intros q s' Hs'.
      assert (Hrun : gj_run n (c + 1) A0 = gj_column n c (gj_run n c A0)).
      { unfold gj_run. by rewrite for_range_snoc by lia. }
      rewrite Hrun. destruct (gj_run n c A0) as [W V|c0 V] eqn:Hgj.
      + assert (Hall : ∀ (q' : nat) s, acc !! q' = Some s →
                  st s = Running ∧ rank_holds A_inv n W V s).
        { intros q' s Hs. destruct (Hacc q' s Hs) as (_ & _ & _ & Hst & _ & Hh).
          done. }
        simpl. destruct (gj_step n c W V) as [[W' V']|] eqn:Hstep.
        * destruct (matrix_inverse_mpi_round_reference A_inv size n c W V W' V' acc
                      Hn Hsize Hrem Hlacc Hc Hall Hstep q s' Hs')
            as (s & Hs & Hst & Hco & _ & Hh).
          destruct (Hacc q s Hs) as (hq & outq & Hq & _ & Hcos & _).
          exists hq, outq. split; [done|]. split_and!; [done|congruence|done].
        * destruct (matrix_inverse_mpi_round_reference_singular A_inv size n c W V
                      acc Hn Hsize Hlacc Hc Hall Hstep q s' Hs')
            as (s & Hs & Hst & Hco & _ & Hent).
          destruct (Hacc q s Hs) as (hq & outq & Hq & _ & Hcos & _).
          exists hq, outq. split; [done|]. split_and!; [done|congruence|done].
      + simpl.
        destruct (lookup_lt_is_Some_2 acc q) as [s Hs].
        { apply lookup_lt_Some in Hs'.
          by rewrite length_matrix_inverse_mpi_round in Hs'. }
        destruct (Hacc q s Hs) as (hq & outq & Hq & Hst & Hco & Hent).
        assert (Hstop : is_running s = false)
          by (unfold is_running; by rewrite Hst).
        rewrite (matrix_inverse_mpi_round_stopped A_inv size n c acc q s Hs Hstop)
          in Hs'.
        injection Hs' as <-. by exists hq, outq. }
  destruct HInv as [Hlfin Hfin].
  destruct (lookup_lt_is_Some_2
              (for_range 0 n (λ col w1, matrix_inverse_mpi_round A_inv size n col w1) w0)
              r) as [s Hs].
  { rewrite Hlfin, <- Hlen. by apply lookup_lt_Some in Hr. }
  destruct (Hfin r s Hs) as (hq & outq & Hq & Hres).
  assert (outq = out) as -> by congruence.
  rewrite list_lookup_fmap, Hs. simpl. eexists. split; [done|].
  unfold matrix_inverse_mpi_end, is_running.
  destruct (gj_run n n A0) as [W V|c0 V].
  - destruct Hres as (Hst & Hco & Hne & _ & _ & Hent).
    rewrite Hst. simpl. split_and!; [done..|].
    intros i j Hi Hj. unfold entry, load, buffer.
    rewrite lookup_delete_ne by done. by apply Hent.
  - destruct Hres as (Hst & Hco & Hent). rewrite Hst. simpl. by split_and!.
Qed.

(** X7.  When the process count divides [n] and every rank is passed the
    same matrix in [A] and a buffer of [n * n] cells as [A_inv], every rank
    returns from [matrix_inverse_mpi] with the accumulator of the sequential
    elimination in [A_inv]: after the last column, with nothing printed, or
    at the first column whose pivot is below the threshold, with "Matrix is
    singular!" printed once.  The accumulator, the message and the column
    are the same on every rank and for every such process count. *)
Theorem inverse_matches_reference A A_inv (size n : Z) (a : list D)
    (w : list (gmap loc (list D) * list (out_item D))) (r : nat) h out :
  0 ≤ n → 1 ≤ size → n `rem` size = 0 → length w = Z.to_nat size →
  (∀ (r' : nat) h' out', w !! r' = Some (h', out') →
     h' !! A = Some a ∧ cells h' A_inv = Some (Z.to_nat (n * n))) →
  w !! r = Some (h, out) →
  ∃ s, matrix_inverse_mpi A A_inv size n w !! r = Some s ∧
       st s = Returned ∧
       match gj_run n n (λ i j, get_cell a (i * n + j)) with
       | GJRunning _ V =>
           cout s = out ∧
           ∀ i j, 0 ≤ i < n → 0 ≤ j < n → entry (mem s) A_inv n i j = V i j
       | GJSingular _ V =>
           cout s = out ++ singular_message ∧
           ∀ i j, 0 ≤ i < n → 0 ≤ j < n → entry (mem s) A_inv n i j = V i j
       end.
Proof. apply matrix_inverse_mpi_reference. Qed.
End run_reference.

Lemma inverse_matches_reference_witness :
  ∃ s, matrix_inverse_mpi 1%positive 2%positive 2 2 [(q_mem, []); (q_mem, [])]
         !! 1%nat = Some s ∧
       st s = Returned ∧
       match gj_run 2 2 (λ i j, get_cell q_a (i * 2 + j)) with
       | GJRunning _ V =>
           cout s = [] ∧
           ∀ i j, 0 ≤ i < 2 → 0 ≤ j < 2 → entry (mem s) 2%positive 2 i j = V i j
       | GJSingular _ V =>
           cout s = [] ++ singular_message ∧
           ∀ i j, 0 ≤ i < 2 → 0 ≤ j < 2 → entry (mem s) 2%positive 2 i j = V i j
       end.
Proof.
  apply (inverse_matches_reference 1%positive 2%positive 2 2 q_a
           [(q_mem, []); (q_mem, [])] 1%nat q_mem []).
  - lia.
  - lia.
  - reflexivity.
  - reflexivity.
  - intros r' h' out' Hr'.
    assert (h' = q_mem) as ->.
    { destruct r' as [|[|r']]; simpl in Hr'; [congruence..|by destruct r']. }
    split; reflexivity.
  - reflexivity.
Defined.

(** ** Gauss-Jordan elimination in exact arithmetic *)

Lemma qsum_nonpos f n : n ≤ 0 → qsum f n = 0%Q.
Proof. intros Hn. unfold qsum. by rewrite for_range_empty. Qed.

Lemma qsum_snoc f n : 0 ≤ n → qsum f (n + 1) = (qsum f n + f n)%Q.
Proof. intros Hn. unfold qsum. by rewrite for_range_snoc. Qed.

(** Induction on the upper bound of a sum. *)
Lemma qsum_ind (P : Z → Prop) n :
  P 0 → (∀ k, 0 ≤ k < n → P k → P (k + 1)) → 0 ≤ n → P n.
Proof.
  intros H0 Hstep Hn.
  assert (Hgen : ∀ m : nat, Z.of_nat m ≤ n → P (Z.of_nat m)).
  { induction m as [|m IH]; intros Hm; [done|].
    replace (Z.of_nat (S m)) with (Z.of_nat m + 1) by lia.
    apply Hstep; [lia|]. apply IH. lia. }
  specialize (Hgen (Z.to_nat n)). rewrite Z2Nat.id in Hgen by lia.
  apply Hgen. lia.
Qed.

Lemma qsum_ext f g n :
  (∀ k, 0 ≤ k < n → (f k == g k)%Q) → (qsum f n == qsum g n)%Q.
Proof.
  intros Hfg. destruct (decide (0 ≤ n)) as [Hn|Hn].
  - revert Hfg. pattern n. apply qsum_ind with (n := n); [| |done].
    + intros _. rewrite !qsum_nonpos by lia. reflexivity.
    + intros k Hk IH Hfg. rewrite !qsum_snoc by lia.
      rewrite IH by (intros; apply Hfg; lia). rewrite Hfg by lia. reflexivity.
  - rewrite !qsum_nonpos by lia. reflexivity.
Qed.

Lemma qsum_linear f g (c : Q) n :
  (qsum (λ k, f k - c * g k) n == qsum f n - c * qsum g n)%Q.
Proof.
  destruct (decide (0 ≤ n)) as [Hn|Hn].
  - pattern n. apply qsum_ind with (n := n); [| |done].
    + rewrite !qsum_nonpos by lia. ring.
    + intros k Hk IH. rewrite !qsum_snoc by lia. rewrite IH. ring.
  - rewrite !qsum_nonpos by lia. ring.
Qed.

Lemma qsum_div f (c : Q) n :
  (qsum (λ k, f k / c) n == qsum f n / c)%Q.
Proof.
  destruct (decide (0 ≤ n)) as [Hn|Hn].
  - pattern n. apply qsum_ind with (n := n); [| |done].
    + rewrite !qsum_nonpos by lia. unfold Qdiv. ring.
    + intros k Hk IH. rewrite !qsum_snoc by lia. rewrite IH. unfold Qdiv. ring.
  - rewrite !qsum_nonpos by lia. unfold Qdiv. ring.
Qed.

Lemma qsum_zero f n : (∀ k, 0 ≤ k < n → (f k == 0)%Q) → (qsum f n == 0)%Q.
Proof.
  intros Hf. destruct (decide (0 ≤ n)) as [Hn|Hn].
  - revert Hf. pattern n. apply qsum_ind with (n := n); [| |done].
    + intros _. by rewrite qsum_nonpos by lia.
    + intros k Hk IH Hf. rewrite qsum_snoc by lia.
      rewrite IH by (intros; apply Hf; lia). rewrite Hf by lia. ring.
  - by rewrite qsum_nonpos by lia.
Qed.

(** A sum against a row of the identity picks one term. *)
Lemma qsum_delta (f : Z → Q) i n :
  0 ≤ i < n →
  (qsum (λ k, (if decide (i = k) then 1 else 0) * f k) n == f i)%Q.
Proof.
  intros Hi.
  assert (Hgen : ∀ m, 0 ≤ m →
    (qsum (λ k, (if decide (i = k) then 1 else 0) * f k) m
     == if decide (i < m)%Z then f i else 0)%Q).
  { intros m Hm. pattern m. apply qsum_ind with (n := m); [| |done].
    - rewrite qsum_nonpos by lia. by rewrite decide_False by lia.
    - intros k Hk IH. rewrite qsum_snoc by lia. rewrite IH.
      repeat case_decide; subst; try lia; ring. }
  rewrite Hgen by lia. by rewrite decide_True by lia.
Qed.

Lemma Q_pivot_nonzero (p : Q) :
  d_lt (d_fabs p) d_eps = false → ¬ (p == 0)%Q.
Proof.
  simpl. intros Hlt Hp.
  assert (Htrue : Q_lt (Qabs p) (1 # 10000000000) = true).
  { apply Q_lt_spec. rewrite Hp. simpl. reflexivity. }
  congruence.
Qed.

Lemma gj_step_invariant n col (A W V W' V' : Z → Z → Q) :
  0 ≤ col < n →
  (∀ i j, 0 ≤ i < n → 0 ≤ j < n → (qsum (λ k, V i k * A k j) n == W i j)%Q) →
  (∀ i j, 0 ≤ i < n → 0 ≤ j < col → (W i j == delta i j)%Q) →
  gj_step n col W V = Some (W', V') →
  (∀ i j, 0 ≤ i < n → 0 ≤ j < n → (qsum (λ k, V' i k * A k j) n == W' i j)%Q) ∧
  (∀ i j, 0 ≤ i < n → 0 ≤ j < col + 1 → (W' i j == delta i j)%Q).
Proof.
  intros Hcol HI1 HI2 Hstep. unfold gj_step in Hstep.
  pose proof (gj_find_pivot_range W n col Hcol) as Hpr.
  set (pr := gj_find_pivot W n col) in *.
  set (W1 := gj_swap_rows W col pr) in *.
  set (V1 := gj_swap_rows V col pr) in *.
  set (p := W1 col col) in *.
  destruct (d_lt (d_fabs p) d_eps) eqn:Hlt; [done|].
  apply Q_pivot_nonzero in Hlt.
  injection Hstep as <- <-.
  assert (H1 : ∀ i j, 0 ≤ i < n → 0 ≤ j < n →
            (qsum (λ k, V1 i k * A k j) n == W1 i j)%Q).
  { intros i j Hi Hj. unfold V1, W1, gj_swap_rows.
    repeat case_decide; apply HI1; lia. }
  assert (H2 : ∀ i j, 0 ≤ i < n → 0 ≤ j < col → (W1 i j == delta i j)%Q).
  { intros i j Hi Hj. unfold W1, gj_swap_rows.
    repeat case_decide; subst; rewrite HI2 by lia; unfold delta;
      repeat case_decide; try lia; reflexivity. }
  split.
  - intros i j Hi Hj. unfold gj_eliminate, gj_scale. simpl.
    destruct (decide (i = col)) as [->|Hne]; repeat case_decide; try done.
    + rewrite (qsum_ext _ (λ k, V1 col k * A k j / p)%Q)
        by (intros; unfold Qdiv; ring).
      rewrite qsum_div, H1 by lia. reflexivity.
    + rewrite (qsum_ext _ (λ k, V1 i k * A k j
                                - (W1 i col / p) * (V1 col k * A k j))%Q)
        by (intros; unfold Qdiv; ring).
      rewrite qsum_linear, !H1 by lia. unfold Qdiv. ring.
  - intros i j Hi Hj. unfold gj_eliminate, gj_scale, delta. simpl.
    destruct (decide (j = col)) as [->|Hjc].
    + destruct (decide (i = col)) as [->|Hne]; repeat case_decide; try done;
        fold p; by field.
    + assert (Hz : (W1 col j == 0)%Q).
      { rewrite H2 by lia. unfold delta. by rewrite decide_False by lia. }
      destruct (decide (i = col)) as [->|Hne]; repeat case_decide; try done;
        try lia; rewrite ?Hz, ?H2 by lia; unfold delta;
        repeat case_decide; try done; try lia; by field.
Qed.

Lemma gj_run_invariant n c (A : Z → Z → Q) :
  0 ≤ c ≤ n →
  match gj_run n c A with
  | GJRunning W V =>
      (∀ i j, 0 ≤ i < n → 0 ≤ j < n → (qsum (λ k, V i k * A k j) n == W i j)%Q) ∧
      (∀ i j, 0 ≤ i < n → 0 ≤ j < c → (W i j == delta i j)%Q)
  | GJSingular _ _ => True
  end.
Proof.
  intros Hc. unfold gj_run.
  apply (for_range_inv (λ c' (acc : gj_result),
    match acc with
    | GJRunning W V =>
        (∀ i j, 0 ≤ i < n → 0 ≤ j < n →
           (qsum (λ k, V i k * A k j) n == W i j)%Q) ∧
        (∀ i j, 0 ≤ i < n → 0 ≤ j < c' → (W i j == delta i j)%Q)
    | GJSingular _ _ => True
    end)); [lia| |].
  - split; [|lia]. intros i j Hi Hj. simpl.
    by apply (qsum_delta (λ k, A k j)).
  - intros col [W V|c0 V] Hcol Hacc; simpl; [|done].
    destruct Hacc as [HI1 HI2].
    destruct (gj_step n col W V) as [[W' V']|] eqn:Hstep; [|done].
    apply (gj_step_invariant n col A W V W' V'); (done || lia).
Qed.

(** In exact arithmetic the sequential elimination that passes every pivot
    test ends with a left inverse. *)
Lemma gj_run_left_inverse n (A W V : Z → Z → Q) i j :
  0 ≤ n → gj_run n n A = GJRunning W V →
  0 ≤ i < n → 0 ≤ j < n →
  (mat_dot n V A i j == delta i j)%Q.
Proof.
  intros Hn Hrun Hi Hj.
  pose proof (gj_run_invariant n n A ltac:(lia)) as Hinv.
  rewrite Hrun in Hinv. destruct Hinv as [HI1 HI2].
  change (mat_dot n V A i j) with (qsum (λ k, V i k * A k j)%Q n).
  rewrite HI1 by done. by apply HI2.
Qed.

(** X8.  In exact rational arithmetic, when the process count divides [n]
    and no rank prints the singular-matrix message, the matrix every rank
    holds in [A_inv] at the end, multiplied from the left with the input
    matrix, gives the identity matrix. *)
Theorem inverse_exact A A_inv (size n : Z) (a : list Q)
    (w : list (gmap loc (list Q) * list (out_item Q))) (r : nat) h out s i j :
  0 ≤ n → 1 ≤ size → n `rem` size = 0 → length w = Z.to_nat size →
  (∀ (r' : nat) h' out', w !! r' = Some (h', out') →
     h' !! A = Some a ∧ cells h' A_inv = Some (Z.to_nat (n * n))) →
  w !! r = Some (h, out) →
  matrix_inverse_mpi A A_inv size n w !! r = Some s →
  cout s = out →
  0 ≤ i < n → 0 ≤ j < n →
  (mat_dot n (entry (mem s) A_inv n) (λ i' j', get_cell a (i' * n + j')) i j
   == delta i j)%Q.
Proof.
  intros Hn Hsize Hrem Hlen Hw Hr Hs Hcout Hi Hj.
  destruct (matrix_inverse_mpi_reference A A_inv size n a w r h out
              Hn Hsize Hrem Hlen Hw Hr) as (s0 & Hs0 & _ & Hres).
  assert (s0 = s) as -> by congruence.
  destruct (gj_run n n (λ i' j', get_cell a (i' * n + j'))) as [W V|c0 V] eqn:Hrun.
  - destruct Hres as [_ Hent].
    rewrite <- (gj_run_left_inverse n _ W V i j Hn Hrun Hi Hj).
    change (qsum (λ k, entry (mem s) A_inv n i k * get_cell a (k * n + j))%Q n
            == qsum (λ k, V i k * get_cell a (k * n + j))%Q n)%Q.
    apply qsum_ext. intros k Hk. by rewrite Hent by lia.
  - destruct Hres as [Hco _]. rewrite Hcout in Hco.
    apply (f_equal length) in Hco. rewrite length_app in Hco. simpl in Hco. lia.
Qed.

Lemma inverse_exact_witness :
  ∃ s, matrix_inverse_mpi 1%positive 2%positive 2 2 [(q_mem, []); (q_mem, [])]
         !! 0%nat = Some s ∧
       (mat_dot 2 (entry (mem s) 2%positive 2)
          (λ i' j', get_cell q_a (i' * 2 + j')) 0 1 == delta 0 1)%Q.
Proof.
  eexists. split; [vm_compute; reflexivity|].
  apply (inverse_exact 1%positive 2%positive 2 2 q_a
           [(q_mem, []); (q_mem, [])] 0%nat q_mem [] _ 0 1).
  - lia.
  - lia.
  - reflexivity.
  - reflexivity.
  - intros r' h' out' Hr'.
    assert (h' = q_mem) as ->.
    { destruct r' as [|[|r']]; simpl in Hr'; [congruence..|by destruct r']. }
    split; reflexivity.
  - reflexivity.
  - vm_compute. reflexivity.
  - reflexivity.
  - lia.
  - lia.
Defined.

(** ** Multiplication: inputs and schedules *)

Section multiply_inputs.
Context `{Scalar D}.
Implicit Types (h : gmap loc (list D)) (A B C : loc).

(** X10.  [matrix_multiply_mpi] exchanges no input: when the ranks hold
    different matrices at [A] and [B], as they do after [main] has seeded
    [rand] with the rank, row [i] of [C] on rank 0 is row [i] of the product
    of the two matrices that the rank owning row [i] holds. *)
Theorem multiply_rows_from_owner A B C (size n : Z) (a b : Z → list D)
    (w : list (gmap loc (list D))) :
  0 ≤ n → 1 ≤ size → length w = Z.to_nat size →
  A ≠ C → B ≠ C →
  (∀ (r : nat) h, w !! r = Some h →
     h !! A = Some (a (Z.of_nat r)) ∧ h !! B = Some (b (Z.of_nat r)) ∧
     ∃ c, h !! C = Some c ∧ Z.of_nat (length c) = n * n) →
  ∃ h0 c,
    run_multiply A B C size n w !! 0%nat = Some h0 ∧
    h0 !! C = Some c ∧
    Z.of_nat (length c) = n * n ∧
    ∀ i j, 0 ≤ i < n → 0 ≤ j < n →
      get_cell c (i * n + j)
      = dot (a (owner n size i)) (b (owner n size i)) n i j.
Proof.
  intros Hn Hsize Hw HAC HBC Hmem.
  unfold run_multiply.
  set (outs := imap (λ r h, matrix_multiply_mpi A B C (Z.of_nat r) size n (λ _, []) h) w).
  set (sent := λ p : Z, default [] (outs !! Z.to_nat p ≫= snd)).
  assert (Hsent : ∀ p, 0 < p < size →
            length (sent p) = Z.to_nat (part_rows n size p * n) ∧
            ∀ i j, start_row n size p ≤ i < end_row n size p → 0 ≤ j < n →
              get_cell (sent p) ((i - start_row n size p) * n + j)
              = dot (a p) (b p) n i j).
  { intros p Hp.
    destruct (lookup_lt_is_Some_2 w (Z.to_nat p) ltac:(lia)) as [hp Hhp].
    destruct (Hmem _ _ Hhp) as (HA & HB & cp & HC & Hcp).
    rewrite Z2Nat.id in HA, HB by lia.
    destruct (multiply_worker_spec hp A B C (a p) (b p) cp p size n (λ _, []))
      as (c' & msg & Heq & _ & Hlm & Hmsg); [done..|].
    assert (Hs : sent p = msg).
    { unfold sent, outs. rewrite list_lookup_imap, Hhp. simpl.
      rewrite Z2Nat.id by lia. by rewrite Heq. }
    rewrite Hs. done. }
  clearbody sent. clear outs.
  destruct (lookup_lt_is_Some_2 w 0%nat ltac:(lia)) as [h Hh].
  destruct (Hmem _ _ Hh) as (HA & HB & c0 & HC & Hc0).
  change (Z.of_nat 0) with 0 in HA, HB.
  rewrite list_lookup_imap, Hh. simpl.
  destruct (start_row_range n size Hn Hsize 0 ltac:(lia)) as [Hse Hen].
  destruct (multiply_rows_spec h A B C (a 0) (b 0) c0 n
              (start_row n size 0) (end_row n size 0))
    as (c1 & -> & Hl1 & Hrows1 & _); [done..|nia|].
  pose (P := λ (p : Z) (acc : gmap loc (list D)),
    ∃ c, acc = <[C := c]> h ∧ Z.of_nat (length c) = n * n ∧
         ∀ q i j, 0 ≤ q < p → start_row n size q ≤ i < end_row n size q →
                  0 ≤ j < n → get_cell c (i * n + j) = dot (a q) (b q) n i j).
  match goal with |- ∃ h0 c, Some (for_range 1 size ?body ?s) = _ ∧ _ =>
    assert (HP : P size (for_range 1 size body s)) end.
  { apply (for_range_inv P); [lia| |].
    - exists c1. split_and!; [done|lia|].
      intros q i j Hq Hi Hj. assert (q = 0) as -> by lia. by apply Hrows1.
    - intros p acc Hp (c & -> & Hlc & Hdone).
      destruct (Hsent p ltac:(lia)) as [Hlen Hmsg].
      destruct (start_row_range n size Hn Hsize p ltac:(lia)) as [Hsp Hep].
      fold (start_row n size p).
      change (if decide (p = size - 1) then n
              else start_row n size p + rows_per_proc n size)
        with (end_row n size p).
      fold (part_rows n size p).
      rewrite take_ge by lia.
      destruct (write_range_spec (sent p) (<[C := c]> h) C c
                  (start_row n size p * n))
        as (c' & Heq & Hl' & Hin & Hout).
      { apply lookup_insert_eq. }
      { nia. }
      { rewrite Hlen. unfold part_rows. nia. }
      exists c'. split_and!.
      + by rewrite Heq, insert_insert_eq.
      + lia.
      + intros q i j Hq Hi Hj. destruct (decide (q = p)) as [->|Hne].
        * rewrite Hin by (rewrite Hlen; unfold part_rows; nia).
          replace (i * n + j - start_row n size p * n)
            with ((i - start_row n size p) * n + j) by lia.
          by apply Hmsg.
        * rewrite Hout; [apply (Hdone q); [lia|done..]|].
          rewrite Hlen.
          replace (start_row n size p * n + Z.of_nat (Z.to_nat (part_rows n size p * n)))
            with (end_row n size p * n) by (unfold part_rows; nia).
          apply (partition_cells_disjoint n size q p); [done..|lia|lia|done|done|done]. }
  destruct HP as (c & Heq & Hlc & Hdone).
  exists (<[C := c]> h), c. split_and!.
  - by rewrite Heq.
  - apply lookup_insert_eq.
  - done.
  - intros i j Hi Hj.
    apply (Hdone (owner n size i)); [by apply owner_range | by apply owner_holds | done].
Qed.

(** X9.  The product does not depend on the order in which the threads of
    the [collapse(2)] loop nest complete its iterations: every sequence of
    the iterations [(i, j)] of the rows [lo .. hi-1] leaves the memory that
    the two loops leave when run in ascending order. *)
Theorem multiply_schedule_independent A B C (a b c : list D) n lo hi
    (sched : list (Z * Z)) h :
  h !! A = Some a → h !! B = Some b → h !! C = Some c →
  A ≠ C → B ≠ C → 0 ≤ n → 0 ≤ lo ≤ hi →
  hi * n ≤ Z.of_nat (length c) →
  (∀ i j, (i, j) ∈ sched ↔ lo ≤ i < hi ∧ 0 ≤ j < n) →
  multiply_cells A B C n sched h = multiply_rows A B C n lo hi h.
Proof. apply multiply_rows_any_schedule. Qed.
End multiply_inputs.

Lemma multiply_rows_from_owner_witness :
  ∃ h0 c,
    run_multiply 1%positive 2%positive 3%positive 2 3 [mul_mem; mul_mem_swapped]
      !! 0%nat = Some h0 ∧
    h0 !! 3%positive = Some c ∧
    Z.of_nat (length c) = 3 * 3 ∧
    ∀ i j, 0 ≤ i < 3 → 0 ≤ j < 3 →
      get_cell c (i * 3 + j)
      = dot (mixed_a (owner 3 2 i)) (mixed_b (owner 3 2 i)) 3 i j.
Proof.
  apply (multiply_rows_from_owner 1%positive 2%positive 3%positive 2 3
           mixed_a mixed_b
           [mul_mem; mul_mem_swapped]).
  - lia.
  - lia.
  - reflexivity.
  - done.
  - done.
  - intros r h Hr.
    destruct r as [|[|r]]; simpl in Hr; [| |by destruct r].
    + injection Hr as <-. split_and!; [reflexivity..|].
      exists (replicate 9 0%float). split; reflexivity.
    + injection Hr as <-. split_and!; [reflexivity..|].
      exists (replicate 9 0%float). split; reflexivity.
Defined.

Lemma multiply_schedule_independent_witness :
  multiply_cells 1%positive 2%positive 3%positive 3
    [(1, 2); (0, 1); (1, 0); (0, 0); (1, 1); (0, 2)] mul_mem
  = multiply_rows 1%positive 2%positive 3%positive 3 0 2 mul_mem.
Proof.
  apply (multiply_schedule_independent 1%positive 2%positive 3%positive
           mul_a mul_b (replicate 9 0%float) 3 0 2
           [(1, 2); (0, 1); (1, 0); (0, 0); (1, 1); (0, 2)] mul_mem).
  - reflexivity.
  - reflexivity.
  - reflexivity.
  - done.
  - done.
  - lia.
  - lia.
  - simpl. lia.
  - intros i j. rewrite !elem_of_cons, elem_of_nil. split.
    + intros Hin. repeat destruct Hin as [Hin|Hin]; try done;
        injection Hin as -> ->; lia.
    + intros [Hi Hj].
      assert (i = 0 ∨ i = 1) as [-> | ->] by lia;
        assert (j = 0 ∨ j = 1 ∨ j = 2) as [-> | [-> | ->]] by lia; tauto.
Defined.
